(** * LoRa telemetry decoder: bit-exact packet codec and filter pipeline

    A shallow embedding of [src/decoder.py], [src/filters.py], the part of
    [src/csv_exporter.py] that builds a row, and the bit-packing generator of
    [test_decoder.py], followed by the properties of the specification.

    Python integers are unbounded, so they are [Z]; [bytes] is [list byte];
    a raised exception is an explicit outcome, and an object that is mutated
    in place (the [BitReader], the [BitWriter]) is threaded as a state. *)

From Stdlib Require Import ZArith Lia Bool List String Ascii QArith.
From Stdlib.Strings Require Import Byte.
From stdpp Require Import base option list gmap sets strings.

Local Open Scope Z_scope.

(** ** Outcomes of a Python call *)

Inductive exn_msg :=
| NegativeCount                       (* 'n must be >= 0' *)
| NotEnoughBits (n pos max : Z)       (* 'Not enough bits: requested n at pos, max' *)
| ExpectedBytes (want got : Z)        (* 'Expected 42 bytes, got n' *)
| NegativeWidth                       (* 'nbits must be non-negative' *)
| NotEnoughSpace (n pos : Z)          (* 'Not enough space to write n bits at pos' *)
| ByteOutOfRange.                     (* byte must be in range(0, 256) *)

Inductive exn :=
| ValueError (m : exn_msg)
| IndexError
| AssertionError (packed expected : Z).

(** [Exhausted] is the only outcome that does not exist in Python: it marks a
    [while] loop of the model that was cut by its iteration budget.  The
    reader's loop is shown below never to reach it. *)
Inductive outcome (A : Type) :=
| Returns (a : A)
| Raises (e : exn)
| Exhausted.
Arguments Returns {A} a.
Arguments Raises {A} e.
Arguments Exhausted {A}.

(** A computation over a mutable object of type [S]: it always leaves a
    state behind, also when it raises. *)
Definition stateful (S A : Type) : Type := S -> outcome A * S.

Definition ret {S A} (a : A) : stateful S A := fun s => (Returns a, s).
Definition bind {S A B} (m : stateful S A) (k : A -> stateful S B) : stateful S B :=
  fun s => match m s with
           | (Returns a, s') => k a s'
           | (Raises e, s') => (Raises e, s')
           | (Exhausted, s') => (Exhausted, s')
           end.

Notation "'let!' x ':=' m 'in' k" := (bind m (fun x => k))
  (at level 10, x name, m at level 100, k at level 200).

(** ** Bytes *)

Definition PACKET_SIZE : Z := 42.

Definition byte_val (b : byte) : Z := Z.of_N (Byte.to_N b).

(** [data[i]] for a Python sequence: a negative index counts from the end,
    and anything outside raises [IndexError] (here [None]). *)
Definition py_index {A} (l : list A) (i : Z) : option A :=
  if 0 <=? i then l !! Z.to_nat i
  else if 0 <=? Z.of_nat (length l) + i then l !! Z.to_nat (Z.of_nat (length l) + i)
  else None.

(** [data[a:b]] for [0 <= a <= b]. *)
Definition py_slice {A} (l : list A) (a b : Z) : list A :=
  take (Z.to_nat (b - a)) (drop (Z.to_nat a) l).

(** ** SystemFlags *)

Record SystemFlags := mkSystemFlags {
  err : bool; wait : bool; ok : bool; ping : bool;
  command : bool; land : bool; eject : bool; start : bool
}.

(** [bool(b & m)] *)
Definition truthy (z : Z) : bool := negb (z =? 0).

Definition from_byte (b : Z) : SystemFlags :=
  {| err     := truthy (Z.land b 0x01);
     wait    := truthy (Z.land b 0x02);
     ok      := truthy (Z.land b 0x04);
     ping    := truthy (Z.land b 0x08);
     command := truthy (Z.land b 0x10);
     land    := truthy (Z.land b 0x20);
     eject   := truthy (Z.land b 0x40);
     start   := truthy (Z.land b 0x80) |}.

Definition flag_char (f : bool) : ascii := if f then "1"%char else "0"%char.

Definition to_string (f : SystemFlags) : string :=
  string_of_list_ascii
    (map flag_char [err f; wait f; ok f; ping f; command f; land f; eject f; start f]).

(** The flag stored for bit [k] (bit0 = err ... bit7 = start). *)
Definition flag_of_bit (f : SystemFlags) (k : nat) : bool :=
  match k with
  | 0%nat => err f | 1%nat => wait f | 2%nat => ok f | 3%nat => ping f
  | 4%nat => command f | 5%nat => land f | 6%nat => eject f | 7%nat => start f
  | _ => false
  end.

(** ** TelemetryPacket *)

Record TelemetryPacket := mkTelemetryPacket {
  time_ms : Z; temp_cC : Z; pressPa : Z;
  magX : Z; magY : Z; magZ : Z;
  accelX : Z; accelY : Z; accelZ : Z;
  gyroX : Z; gyroY : Z; gyroZ : Z;
  lat_1e7 : Z; lon_1e7 : Z;
  flags : SystemFlags;
  radData0 : Z; radData1 : Z; radData2 : Z; radData3 : Z
}.

(** ** BitReader *)

Record BitReader := mkBitReader {
  _data : list byte;
  _bit_pos : Z;
  _max_bits : Z
}.

Definition BitReader_init (data : list byte) : BitReader :=
  {| _data := data; _bit_pos := 0; _max_bits := Z.of_nat (length data) * 8 |}.

(** The [while remain:] loop of [read_bits]; [result], [shift] and [remain]
    are its local variables, [_bit_pos] lives in the reader. *)
Fixpoint read_loop (budget : nat) (result shift remain : Z) : stateful BitReader Z :=
  fun r =>
    if remain =? 0 then (Returns result, r)
    else match budget with
         | O => (Exhausted, r)
         | S budget' =>
           let byte_idx := _bit_pos r / 8 in
           let bit_in_byte := _bit_pos r mod 8 in
           let available := 8 - bit_in_byte in
           let take := Z.min available remain in
           match py_index (_data r) byte_idx with
           | None => (Raises IndexError, r)
           | Some b =>
             let mask := Z.shiftl 1 take - 1 in
             let chunk := Z.land (Z.shiftr (byte_val b) bit_in_byte) mask in
             read_loop budget' (Z.lor result (Z.shiftl chunk shift))
                       (shift + take) (remain - take)
                       {| _data := _data r; _bit_pos := _bit_pos r + take;
                          _max_bits := _max_bits r |}
           end
         end.

Definition read_bits (n : Z) : stateful BitReader Z :=
  fun r =>
    if n =? 0 then (Returns 0, r)
    else if n <? 0 then (Raises (ValueError NegativeCount), r)
    else if _max_bits r <? _bit_pos r + n
         then (Raises (ValueError (NotEnoughBits n (_bit_pos r) (_max_bits r))), r)
    else read_loop (Z.to_nat n) 0 0 n r.

Definition bits_left (r : BitReader) : Z := _max_bits r - _bit_pos r.

Definition _sign_extend (value bits : Z) : Z :=
  let sign_bit := Z.shiftl 1 (bits - 1) in
  let mask := Z.shiftl 1 bits - 1 in
  let v := Z.land value mask in
  if truthy (Z.land v sign_bit) then v - Z.shiftl 1 bits else v.

(** ** TelemetryDecoder *)

(** The reads of [_decode_packet], in program order. *)
Definition decode_fields : stateful BitReader TelemetryPacket :=
  let! time_ms := read_bits 24 in
  let! temp_raw := read_bits 14 in
  let temp_cC := _sign_extend temp_raw 14 in
  let! pressPa := read_bits 20 in
  let! lat_raw := read_bits 30 in
  let lat_1e7 := _sign_extend lat_raw 30 in
  let! lon_raw := read_bits 30 in
  let lon_1e7 := _sign_extend lon_raw 30 in
  let! dummy := read_bits 2 in
  let! magX_raw := read_bits 16 in
  let magX := _sign_extend magX_raw 16 in
  let! magY_raw := read_bits 16 in
  let magY := _sign_extend magY_raw 16 in
  let! magZ_raw := read_bits 16 in
  let magZ := _sign_extend magZ_raw 16 in
  let! accelX_raw := read_bits 16 in
  let accelX := _sign_extend accelX_raw 16 in
  let! accelY_raw := read_bits 16 in
  let accelY := _sign_extend accelY_raw 16 in
  let! accelZ_raw := read_bits 16 in
  let accelZ := _sign_extend accelZ_raw 16 in
  let! gyroX_raw := read_bits 16 in
  let gyroX := _sign_extend gyroX_raw 16 in
  let! gyroY_raw := read_bits 16 in
  let gyroY := _sign_extend gyroY_raw 16 in
  let! gyroZ_raw := read_bits 16 in
  let gyroZ := _sign_extend gyroZ_raw 16 in
  let! flags_byte := read_bits 8 in
  let flags := from_byte flags_byte in
  let! rad0 := read_bits 16 in
  let! rad1 := read_bits 16 in
  let! rad2 := read_bits 16 in
  let! rad3 := read_bits 16 in
  ret {| time_ms := time_ms; temp_cC := temp_cC; pressPa := pressPa;
         magX := magX; magY := magY; magZ := magZ;
         accelX := accelX; accelY := accelY; accelZ := accelZ;
         gyroX := gyroX; gyroY := gyroY; gyroZ := gyroZ;
         lat_1e7 := lat_1e7; lon_1e7 := lon_1e7;
         flags := flags;
         radData0 := rad0; radData1 := rad1; radData2 := rad2; radData3 := rad3 |}.

(** What the decoder writes to its logger.  The text of a logged packet
    ([to_log_format], floating-point formatting) is not modelled: the event
    carries the packet itself. *)
Inductive log_event :=
| DebugBitsLeft (n : Z)                       (* 'Bits left after parsing: %d' *)
| WarnFileTooSmall (len : Z)                  (* 'File too small: %d bytes' *)
| InfoDecoding (count : Z)                    (* 'Decoding {count} packets ...' *)
| LogPacket (number : Z) (pkt : TelemetryPacket)
| WarnInvalidPacket (i : Z)                   (* 'Invalid packet %d (sanity checks failed)' *)
| WarnFailedDecode (i : Z) (e : exn)          (* 'Failed to decode packet %d: %s' *)
| InfoDecoded (n : Z).                        (* 'Successfully decoded {n} valid packets' *)

(** [_decode_packet] with what it logs: the debug line when bits are left
    over. *)
Definition _decode_packet (data : list byte) : outcome TelemetryPacket * list log_event :=
  if negb (Z.of_nat (length data) =? PACKET_SIZE)
  then (Raises (ValueError (ExpectedBytes PACKET_SIZE (Z.of_nat (length data)))), [])
  else match decode_fields (BitReader_init data) with
       | (Returns pkt, r) =>
         (Returns pkt, if truthy (bits_left r) then [DebugBitsLeft (bits_left r)] else [])
       | (Raises e, _) => (Raises e, [])
       | (Exhausted, _) => (Exhausted, [])
       end.

(** The two [isinstance(..., int)] checks hold by the type of the fields. *)
Definition _is_valid_packet (pkt : TelemetryPacket) : bool :=
  if (pressPa pkt <? 0) || (Z.shiftl 1 20 <=? pressPa pkt) then false
  else if 90 * 10000000 <? Z.abs (lat_1e7 pkt) then false
  else if 180 * 10000000 <? Z.abs (lon_1e7 pkt) then false
  else if 100000 <? Z.abs (temp_cC pkt) then false
  else true.

(** [range(n)] *)
Definition py_range (n : Z) : list Z := seqZ 0 n.

(** The body of the [for i in range(count)] loop of [decode_file], with its
    [try]/[except Exception].  The loop state is the [packets] list and the
    log; [Exhausted] is not a Python exception and is not caught. *)
Definition decode_block (log_packets : bool) (data : list byte)
    (st : outcome (list TelemetryPacket) * list log_event) (i : Z)
    : outcome (list TelemetryPacket) * list log_event :=
  match st with
  | (Returns packets, log) =>
    let start := i * PACKET_SIZE in
    let block := py_slice data start (start + PACKET_SIZE) in
    match _decode_packet block with
    | (Returns pkt, dbg) =>
      if _is_valid_packet pkt
      then (Returns (packets ++ [pkt]),
            log ++ dbg ++ (if log_packets then [LogPacket (i + 1) pkt] else []))
      else (Returns packets, log ++ dbg ++ [WarnInvalidPacket i])
    | (Raises e, dbg) => (Returns packets, log ++ dbg ++ [WarnFailedDecode i e])
    | (Exhausted, dbg) => (Exhausted, log ++ dbg)
    end
  | _ => st
  end.

(** [decode_file] after [data = path.read_bytes()].  [rssi] and [snr] only
    enter the text of a logged packet. *)
Definition decode_file (log_packets : bool) (data : list byte)
    : outcome (list TelemetryPacket) * list log_event :=
  let len := Z.of_nat (length data) in
  if len <? PACKET_SIZE then (Returns [], [WarnFileTooSmall len])
  else
    let count := len / PACKET_SIZE in
    match fold_left (decode_block log_packets data) (py_range count)
                    (Returns [], [InfoDecoding count]) with
    | (Returns packets, log) =>
      (Returns packets, log ++ [InfoDecoded (Z.of_nat (length packets))])
    | st => st
    end.

Definition decode_packet_with_log (log_packets : bool) (data : list byte)
    (packet_index : Z) : outcome (option TelemetryPacket) * list log_event :=
  match _decode_packet data with
  | (Returns pkt, dbg) =>
    if _is_valid_packet pkt
    then (Returns (Some pkt),
          dbg ++ (if log_packets then [LogPacket (packet_index + 1) pkt] else []))
    else (Returns None, dbg ++ [WarnInvalidPacket packet_index])
  | (Raises e, dbg) => (Returns None, dbg ++ [WarnFailedDecode packet_index e])
  | (Exhausted, dbg) => (Exhausted, dbg)
  end.

(** ** The bit stream a buffer denotes

    Bit [j] of the stream is bit [j mod 8] of byte [j / 8]: bit 0 of byte 0
    comes first.  [bits_value data off n] is the unsigned integer whose bit
    [i] is stream bit [off + i], for [i < n]. *)

Definition buf_bit (data : list byte) (j : Z) : bool :=
  match data !! Z.to_nat (j / 8) with
  | Some b => Z.testbit (byte_val b) (j mod 8)
  | None => false
  end.

Fixpoint bits_value (data : list byte) (off : Z) (n : nat) : Z :=
  match n with
  | O => 0
  | S k => Z.b2z (buf_bit data off) + 2 * bits_value data (off + 1) k
  end.

(** Two's-complement reading of an unsigned [w]-bit value. *)
Definition twos_complement (w v : Z) : Z :=
  if 2 ^ (w - 1) <=? v then v - 2 ^ w else v.

(** ** The record layout, as the specification words it

    Section 4.2, in decode order: name, bit width, and how the bits are
    read.  [layout_field] looks a field up by name and reads it off the bit
    stream at the offset the table gives it. *)

Inductive field_kind := Unsigned | Signed | Discarded | Bitfield.

Definition record_layout : list (string * nat * field_kind) :=
  [ ("time_ms", 24%nat, Unsigned); ("temp_cC", 14%nat, Signed);
    ("pressPa", 20%nat, Unsigned);
    ("lat_1e7", 30%nat, Signed); ("lon_1e7", 30%nat, Signed);
    ("dummy", 2%nat, Discarded);
    ("magX", 16%nat, Signed); ("magY", 16%nat, Signed); ("magZ", 16%nat, Signed);
    ("accelX", 16%nat, Signed); ("accelY", 16%nat, Signed); ("accelZ", 16%nat, Signed);
    ("gyroX", 16%nat, Signed); ("gyroY", 16%nat, Signed); ("gyroZ", 16%nat, Signed);
    ("flags", 8%nat, Bitfield);
    ("radData0", 16%nat, Unsigned); ("radData1", 16%nat, Unsigned);
    ("radData2", 16%nat, Unsigned); ("radData3", 16%nat, Unsigned) ]%string.

Fixpoint layout_find (name : string) (off : Z) (l : list (string * nat * field_kind))
    : option (Z * nat * field_kind) :=
  match l with
  | [] => None
  | (nm, w, k) :: rest =>
    if String.eqb nm name then Some (off, w, k)
    else layout_find name (off + Z.of_nat w) rest
  end.

Definition layout_field (data : list byte) (name : string) : Z :=
  match layout_find name 0 record_layout with
  | Some (off, w, Signed) => twos_complement (Z.of_nat w) (bits_value data off w)
  | Some (off, w, _) => bits_value data off w
  | None => 0
  end.

Definition reader_wf (r : BitReader) : Prop :=
  _max_bits r = Z.of_nat (length (_data r)) * 8 /\ 0 <= _bit_pos r <= _max_bits r.

Definition advance (r : BitReader) (n : Z) : BitReader :=
  {| _data := _data r; _bit_pos := _bit_pos r + n; _max_bits := _max_bits r |}.

(** [pkt] is the reading of [data] under [record_layout]: every named field
    of the table, in its kind, at its offset. *)
Definition layout_decoding (data : list byte) (pkt : TelemetryPacket) : Prop :=
  time_ms pkt = layout_field data "time_ms"
  /\ temp_cC pkt = layout_field data "temp_cC"
  /\ pressPa pkt = layout_field data "pressPa"
  /\ lat_1e7 pkt = layout_field data "lat_1e7"
  /\ lon_1e7 pkt = layout_field data "lon_1e7"
  /\ magX pkt = layout_field data "magX"
  /\ magY pkt = layout_field data "magY"
  /\ magZ pkt = layout_field data "magZ"
  /\ accelX pkt = layout_field data "accelX"
  /\ accelY pkt = layout_field data "accelY"
  /\ accelZ pkt = layout_field data "accelZ"
  /\ gyroX pkt = layout_field data "gyroX"
  /\ gyroY pkt = layout_field data "gyroY"
  /\ gyroZ pkt = layout_field data "gyroZ"
  /\ (forall k, (k < 8)%nat ->
        flag_of_bit (flags pkt) k = Z.testbit (layout_field data "flags") (Z.of_nat k))
  /\ radData0 pkt = layout_field data "radData0"
  /\ radData1 pkt = layout_field data "radData1"
  /\ radData2 pkt = layout_field data "radData2"
  /\ radData3 pkt = layout_field data "radData3".

(** The plausibility bounds of the data model (section 3), negated. *)
Definition implausible (pkt : TelemetryPacket) : Prop :=
  ~ (0 <= pressPa pkt < 2 ^ 20)
  \/ Z.abs (lat_1e7 pkt) > 900000000
  \/ Z.abs (lon_1e7 pkt) > 1800000000
  \/ Z.abs (temp_cC pkt) > 100000.

(** ** Batch decoding, record by record *)

(** Window [i] of a buffer: [data[start:start + PACKET_SIZE]]. *)
Definition block_at (data : list byte) (i : Z) : list byte :=
  py_slice data (i * PACKET_SIZE) (i * PACKET_SIZE + PACKET_SIZE).

(** The [k] consecutive 42-byte windows of a buffer. *)
Definition record_blocks (data : list byte) (k : Z) : list (list byte) :=
  map (block_at data) (py_range k).

(** What one record contributes to the output: its packet when it decodes
    and passes the sanity checks, nothing otherwise. *)
Definition record_result (block : list byte) : option TelemetryPacket :=
  match _decode_packet block with
  | (Returns pkt, _) => if _is_valid_packet pkt then Some pkt else None
  | _ => None
  end.

(** A warning that record [i] was dropped. *)
Definition drop_warning (i : Z) (ev : log_event) : Prop :=
  ev = WarnInvalidPacket i \/ exists e, ev = WarnFailedDecode i e.

(** Some 42-byte record. *)
Definition sample_record : list byte :=
  [ xe8; x03; x00; xc4; x89; x62; x8c; x01; x40; xe4; xd2; x1a;
    x30; xf9; xd7; x05; x64; x00; x38; xff; x2c; x01; x00; x00;
    x00; x00; xe8; x03; x0a; x00; x14; x00; xe2; xff; x84; xdc;
    x05; xdd; x05; xde; x05; xdf ]%byte.

(** The packet the decoder builds from a 42-byte record, field by field. *)
Definition decoded_fields (data : list byte) : TelemetryPacket :=
  {| time_ms := bits_value data 0 24;
     temp_cC := _sign_extend (bits_value data 24 14) 14;
     pressPa := bits_value data 38 20;
     magX := _sign_extend (bits_value data 120 16) 16;
     magY := _sign_extend (bits_value data 136 16) 16;
     magZ := _sign_extend (bits_value data 152 16) 16;
     accelX := _sign_extend (bits_value data 168 16) 16;
     accelY := _sign_extend (bits_value data 184 16) 16;
     accelZ := _sign_extend (bits_value data 200 16) 16;
     gyroX := _sign_extend (bits_value data 216 16) 16;
     gyroY := _sign_extend (bits_value data 232 16) 16;
     gyroZ := _sign_extend (bits_value data 248 16) 16;
     lat_1e7 := _sign_extend (bits_value data 58 30) 30;
     lon_1e7 := _sign_extend (bits_value data 88 30) 30;
     flags := from_byte (bits_value data 264 8);
     radData0 := bits_value data 272 16;
     radData1 := bits_value data 288 16;
     radData2 := bits_value data 304 16;
     radData3 := bits_value data 320 16 |}.

(** What a window of the buffer gives, read off its length alone: a window
    of 42 bytes gives the packet of its fields, any other window nothing. *)
Definition window_packet (block : list byte) : option TelemetryPacket :=
  if decide (length block = 42%nat) then Some (decoded_fields block) else None.

(** What window [i] leaves in the log: for a window of 42 bytes the line of
    its packet, numbered from 1, when packets are logged; for any other
    window the warning that names it and the length found. *)
Definition window_log (log_packets : bool) (i : Z) (block : list byte) : list log_event :=
  if decide (length block = 42%nat)
  then (if log_packets then [LogPacket (i + 1) (decoded_fields block)] else [])
  else [WarnFailedDecode i (ValueError (ExpectedBytes 42 (Z.of_nat (length block))))].

(** ** CSV export *)

(** A value of the dictionary [to_dict] builds: an [int], or the flag
    string. *)
Inductive py_value := PyInt (z : Z) | PyStr (s : string).

Definition to_dict (p : TelemetryPacket) : gmap string py_value :=
  list_to_map
    [ ("time_ms", PyInt (time_ms p)); ("temp_cC", PyInt (temp_cC p));
      ("pressPa", PyInt (pressPa p));
      ("magX", PyInt (magX p)); ("magY", PyInt (magY p)); ("magZ", PyInt (magZ p));
      ("accelX", PyInt (accelX p)); ("accelY", PyInt (accelY p));
      ("accelZ", PyInt (accelZ p));
      ("gyroX", PyInt (gyroX p)); ("gyroY", PyInt (gyroY p)); ("gyroZ", PyInt (gyroZ p));
      ("lat_1e7", PyInt (lat_1e7 p)); ("lon_1e7", PyInt (lon_1e7 p));
      ("flags", PyStr (to_string (flags p)));
      ("radData0", PyInt (radData0 p)); ("radData1", PyInt (radData1 p));
      ("radData2", PyInt (radData2 p)); ("radData3", PyInt (radData3 p)) ]%string.

Definition HEADER : list string :=
  [ "time_ms"; "temp_cC"; "pressPa"; "magX"; "magY"; "magZ";
    "accelX"; "accelY"; "accelZ"; "gyroX"; "gyroY"; "gyroZ";
    "lat_1e7"; "lon_1e7"; "flags"; "radData0"; "radData1"; "radData2"; "radData3" ]%string.

(** [row_data] of [CSVExporter.export]: one value per header field, in
    header order, [''] for a field the dictionary lacks. *)
Definition row_data (packet : TelemetryPacket) : list (string * py_value) :=
  let packet_dict := to_dict packet in
  map (fun field => (field, default (PyStr "") (packet_dict !! field))) HEADER.

(** The value the exporter writes under a header field. *)
Definition row_value (packet : TelemetryPacket) (field : string) : option py_value :=
  snd <$> List.find (fun kv => String.eqb (fst kv) field) (row_data packet).

(** A record whose only non-zero byte is the flags byte, with bit 7 set. *)
Definition start_record : list byte :=
  (repeat x00 33 ++ [x80] ++ repeat x00 8)%byte.

(** ** The test packet generator ([test_decoder.py]) *)

Definition PACKET_SIZE_BYTES : Z := 42.

Record BitWriter := mkBitWriter {
  buf : list byte;
  bit_pos : Z;
  size_bits : Z
}.

Definition BitWriter_init (size_bytes : Z) : BitWriter :=
  {| buf := repeat x00%byte (Z.to_nat size_bytes); bit_pos := 0;
     size_bits := size_bytes * 8 |}.

(** [l[i] = x] for an index that [py_index] accepts. *)
Definition py_setitem {A} (l : list A) (i : Z) (x : A) : list A :=
  if 0 <=? i then <[Z.to_nat i := x]> l
  else <[Z.to_nat (Z.of_nat (length l) + i) := x]> l.

(** The [while remaining:] loop of [write_bits].  Storing an [int] outside
    [range(0, 256)] into a [bytearray] raises [ValueError]. *)
Fixpoint write_loop (budget : nat) (v remaining : Z) : stateful BitWriter unit :=
  fun w =>
    if remaining =? 0 then (Returns tt, w)
    else match budget with
         | O => (Exhausted, w)
         | S budget' =>
           let byte_idx := bit_pos w / 8 in
           let bit_in_byte := bit_pos w mod 8 in
           let free := 8 - bit_in_byte in
           let to_write := Z.min free remaining in
           let mask := Z.shiftl 1 to_write - 1 in
           let chunk := Z.land v mask in
           match py_index (buf w) byte_idx with
           | None => (Raises IndexError, w)
           | Some old =>
             let stored := Z.lor (byte_val old) (Z.land (Z.shiftl chunk bit_in_byte) 0xFF) in
             match (if (0 <=? stored) && (stored <? 256)
                    then Byte.of_N (Z.to_N stored) else None) with
             | None => (Raises (ValueError ByteOutOfRange), w)
             | Some b =>
               write_loop budget' (Z.shiftr v to_write) (remaining - to_write)
                          {| buf := py_setitem (buf w) byte_idx b;
                             bit_pos := bit_pos w + to_write;
                             size_bits := size_bits w |}
             end
           end
         end.

Definition write_bits (value nbits : Z) : stateful BitWriter unit :=
  fun w =>
    if nbits =? 0 then (Returns tt, w)
    else if nbits <? 0 then (Raises (ValueError NegativeWidth), w)
    else if size_bits w <? bit_pos w + nbits
         then (Raises (ValueError (NotEnoughSpace nbits (bit_pos w))), w)
    else
      let v := if nbits <? 64 then Z.land value (Z.shiftl 1 nbits - 1) else value in
      write_loop (Z.to_nat nbits) v nbits w.

Definition get_bytes (w : BitWriter) : list byte := buf w.

Definition _to_twos_complement (value nbits : Z) : Z :=
  let mask := Z.shiftl 1 nbits - 1 in
  Z.land value mask.

(** [for v in values: bw.write_bits(f(v), nbits)] *)
Fixpoint write_each (f : Z -> Z) (nbits : Z) (values : list Z) : stateful BitWriter unit :=
  match values with
  | [] => ret tt
  | v :: rest => let! _ := write_bits (f v) nbits in write_each f nbits rest
  end.

(** The values [generate_test_packet] draws from [random]; the generator is
    a function of them.  [ok_draw] stands for [random.random() < 0.1]. *)
Record random_draws := mkDraws {
  draw_temp_cC : Z;
  draw_pressPa : Z;
  draw_mag : list Z;
  draw_accel : list Z;
  draw_gyro : list Z;
  draw_lat_1e7 : Z;
  draw_lon_1e7 : Z;
  ok_draw : bool;
  draw_rad_data : list Z
}.

Definition generator_flags (packet_id : Z) (d : random_draws) : Z :=
  let flags := 0 in
  let flags := if packet_id =? 10 then Z.lor flags 0x80 else flags in
  let flags := if packet_id =? 50 then Z.lor flags 0x20 else flags in
  let flags := if packet_id =? 100 then Z.lor flags 0x40 else flags in
  let flags := if ok_draw d then Z.lor flags 0x04 else flags in
  flags.

Definition pack_fields (time_ms packet_id : Z) (d : random_draws) : stateful BitWriter unit :=
  let flags := generator_flags packet_id d in
  let! _ := write_bits time_ms 24 in
  let! _ := write_bits (_to_twos_complement (draw_temp_cC d) 14) 14 in
  let! _ := write_bits (Z.land (draw_pressPa d) (Z.shiftl 1 20 - 1)) 20 in
  let! _ := write_each (fun v => _to_twos_complement v 16) 16 (draw_mag d) in
  let! _ := write_each (fun v => _to_twos_complement v 16) 16 (draw_accel d) in
  let! _ := write_each (fun v => _to_twos_complement v 16) 16 (draw_gyro d) in
  let! _ := write_bits (_to_twos_complement (draw_lat_1e7 d) 30) 30 in
  let! _ := write_bits (_to_twos_complement (draw_lon_1e7 d) 30) 30 in
  let! _ := write_bits (Z.land flags 0xFF) 8 in
  let! _ := write_each (fun r => Z.land r 0xFFFF) 16 (draw_rad_data d) in
  write_bits 0x0 2.

Definition generate_test_packet (time_ms packet_id : Z) (d : random_draws)
    : outcome (list byte) :=
  match pack_fields time_ms packet_id d (BitWriter_init PACKET_SIZE_BYTES) with
  | (Returns _, bw) =>
    if negb (bit_pos bw =? PACKET_SIZE_BYTES * 8)
    then Raises (AssertionError (bit_pos bw) (PACKET_SIZE_BYTES * 8))
    else Returns (get_bytes bw)
  | (Raises e, _) => Raises e
  | (Exhausted, _) => Exhausted
  end.

(** Field values inside the generator's own random ranges. *)
Definition sample_draws : random_draws :=
  {| draw_temp_cC := 2500; draw_pressPa := 101325;
     draw_mag := [100; -200; 300];
     draw_accel := [10; -20; 980];
     draw_gyro := [5; -5; 0];
     draw_lat_1e7 := 450000000; draw_lon_1e7 := -50000000;
     ok_draw := false;
     draw_rad_data := [1500; 1501; 1502; 1503] |}.

(** ** FilterManager ([filters.py])

    The debug lines the filters log are not modelled. *)

(** [time_settings] is a dictionary that only ever receives the keys
    'max_jump_ms' (an [int]) and 'allow_wrap' (a [bool]), from
    [load_filters] and from [get_time_settings]; a missing key is [None]. *)
Record time_settings_t := mkTimeSettings {
  max_jump_ms : option Z;
  allow_wrap : option bool
}.

(** [not self.time_settings] *)
Definition time_settings_empty (ts : time_settings_t) : bool :=
  match max_jump_ms ts, allow_wrap ts with
  | None, None => true
  | _, _ => false
  end.

(** [old.update(new)] *)
Definition time_settings_update (old new : time_settings_t) : time_settings_t :=
  {| max_jump_ms := match max_jump_ms new with Some m => Some m | None => max_jump_ms old end;
     allow_wrap := match allow_wrap new with Some w => Some w | None => allow_wrap old end |}.

(** A [float]: the finite ones are rationals; an [int] is compared with a
    [float] exactly. *)
Inductive py_float := Finite (q : Q) | PosInf | NegInf | NaN.

(** [v < f] and [v > f] for an [int] [v]. *)
Definition int_lt_float (v : Z) (f : py_float) : bool :=
  match f with
  | Finite q => negb (Qle_bool q (inject_Z v))
  | PosInf => true
  | NegInf | NaN => false
  end.

Definition int_gt_float (v : Z) (f : py_float) : bool :=
  match f with
  | Finite q => negb (Qle_bool (inject_Z v) q)
  | NegInf => true
  | PosInf | NaN => false
  end.

(** The inner dictionary of [channel_limits]: keys 'min' and 'max'. *)
Record limits_t := mkLimits {
  lim_min : option py_float;
  lim_max : option py_float
}.

Definition limits_update (old new : limits_t) : limits_t :=
  {| lim_min := match lim_min new with Some m => Some m | None => lim_min old end;
     lim_max := match lim_max new with Some m => Some m | None => lim_max old end |}.

Record FilterManager := mkFilterManager {
  time_settings : time_settings_t;
  channel_limits : gmap string limits_t;
  manual_drops : gset Z
}.

Definition FilterManager_init : FilterManager :=
  {| time_settings := mkTimeSettings None None; channel_limits := ∅; manual_drops := ∅ |}.

(** What the configuration collaborator hands over: the results of
    [get_time_settings()] and [get_channel_limits()]. *)
Record ConfigManager := mkConfigManager {
  get_time_settings : time_settings_t;
  get_channel_limits : gmap string limits_t
}.

Definition _merge_config_settings (fm : FilterManager) (config_manager : ConfigManager)
    : FilterManager :=
  {| time_settings := time_settings_update (time_settings fm) (get_time_settings config_manager);
     channel_limits :=
       union_with (fun new old => Some (limits_update old new))
                  (get_channel_limits config_manager) (channel_limits fm);
     manual_drops := manual_drops fm |}.

(** [time_diff > max_jump], where a missing 'max_jump_ms' is [float('inf')]. *)
Definition exceeds (time_diff : Z) (max_jump : option Z) : bool :=
  match max_jump with
  | Some m => m <? time_diff
  | None => false
  end.

Definition _passes_time_filter (fm : FilterManager) (packet : TelemetryPacket)
    (prev_time : option Z) (idx : Z) : bool :=
  if time_settings_empty (time_settings fm) then true
  else match prev_time with
  | None => true
  | Some prev =>
    let time_diff := time_ms packet - prev in
    let max_jump := max_jump_ms (time_settings fm) in
    let allow_wrap := default false (allow_wrap (time_settings fm)) in
    let time_diff :=
      if (time_diff <? 0) && allow_wrap then time_diff + Z.shiftl 1 24 else time_diff in
    if exceeds time_diff max_jump then false
    else if (time_diff <? 0) && negb allow_wrap then false
    else true
  end.

(** One turn of the loop of [_passes_channel_filter].  Only 'flags' maps to
    a string, and it is skipped before any comparison. *)
Definition channel_ok (packet_dict : gmap string py_value) (channel : string)
    (limits : limits_t) : bool :=
  match packet_dict !! channel with
  | None => true
  | Some value =>
    if String.eqb channel "flags" then true
    else match value with
         | PyStr _ => true
         | PyInt v =>
           if match lim_min limits with Some m => int_lt_float v m | None => false end
           then false
           else if match lim_max limits with Some m => int_gt_float v m | None => false end
           then false
           else true
         end
  end.

Definition _passes_channel_filter (fm : FilterManager) (packet : TelemetryPacket) : bool :=
  let packet_dict := to_dict packet in
  forallb (fun cl => channel_ok packet_dict cl.1 cl.2) (map_to_list (channel_limits fm)).

(** [enumerate(packets)] *)
Definition enumerate {A} (l : list A) : list (Z * A) :=
  zip (seqZ 0 (Z.of_nat (length l))) l.

(** The state of the loop of [apply_filters]. *)
Record filter_state := mkFilterState {
  filtered_packets : list TelemetryPacket;
  prev_time : option Z
}.

Definition filter_step (fm : FilterManager) (st : filter_state)
    (entry : Z * TelemetryPacket) : filter_state :=
  let '(idx, packet) := entry in
  if negb (_passes_time_filter fm packet (prev_time st) idx) then st
  else if negb (_passes_channel_filter fm packet) then st
  else if bool_decide (idx ∈ manual_drops fm) then st
  else {| filtered_packets := filtered_packets st ++ [packet];
          prev_time := Some (time_ms packet) |}.

Definition filter_loop (fm : FilterManager) (entries : list (Z * TelemetryPacket))
    : filter_state :=
  fold_left (filter_step fm) entries {| filtered_packets := []; prev_time := None |}.

(** [apply_filters] returns the filtered list; the manager keeps the merged
    settings. *)
Definition apply_filters (fm : FilterManager) (packets : list TelemetryPacket)
    (config_manager : ConfigManager) : list TelemetryPacket * FilterManager :=
  match packets with
  | [] => (packets, fm)
  | _ =>
    let fm' := _merge_config_settings fm config_manager in
    (filtered_packets (filter_loop fm' (enumerate packets)), fm')
  end.

(** ** The manual drop list

    Text is a [string] of code points below 256.  [str.strip] and [int]
    are Python built-ins; they are modelled on that alphabet ([int] in base
    10: surrounding whitespace, an optional sign, and digits that single
    underscores may separate, at most 4300 digits in all). *)

Definition is_space (c : ascii) : bool :=
  let n := nat_of_ascii c in
  ((9 <=? n) && (n <=? 13) || (28 <=? n) && (n <=? 32) || (n =? 133) || (n =? 160))%nat.

Fixpoint lstrip (s : string) : string :=
  match s with
  | String c rest => if is_space c then lstrip rest else s
  | EmptyString => EmptyString
  end.

Fixpoint rstrip (s : string) : string :=
  match s with
  | String c rest =>
    match rstrip rest with
    | EmptyString => if is_space c then EmptyString else String c EmptyString
    | rest' => String c rest'
    end
  | EmptyString => EmptyString
  end.

Definition strip (s : string) : string := rstrip (lstrip s).

(** [s.split(sep)] for a one-character separator. *)
Fixpoint split (sep : ascii) (s : string) : list string :=
  match s with
  | EmptyString => [EmptyString]
  | String c rest =>
    if Ascii.eqb c sep then EmptyString :: split sep rest
    else match split sep rest with
         | cur :: more => String c cur :: more
         | [] => [String c EmptyString]
         end
  end.

(** [sep in s] *)
Fixpoint contains (sep : ascii) (s : string) : bool :=
  match s with
  | EmptyString => false
  | String c rest => Ascii.eqb c sep || contains sep rest
  end.

(** [s.split(sep, 1)] for a string that contains [sep]: the text before the
    first [sep] and the text after it. *)
Fixpoint split_once (sep : ascii) (s : string) : string * string :=
  match s with
  | EmptyString => (EmptyString, EmptyString)
  | String c rest =>
    if Ascii.eqb c sep then (EmptyString, rest)
    else let '(before, after) := split_once sep rest in (String c before, after)
  end.

Definition digit_of (c : ascii) : option Z :=
  let n := nat_of_ascii c in
  if ((48 <=? n) && (n <=? 57))%nat then Some (Z.of_nat n - 48) else None.

(** Digits with single underscores between them; [after_digit] tells
    whether the previous character was a digit. *)
Fixpoint parse_digits (acc : Z) (after_digit : bool) (s : string) : option Z :=
  match s with
  | EmptyString => if after_digit then Some acc else None
  | String c rest =>
    match digit_of c with
    | Some d => parse_digits (10 * acc + d) true rest
    | None =>
      if Ascii.eqb c "_" && after_digit then parse_digits acc false rest else None
    end
  end.

(** The decimal digits in a text; signs, underscores and whitespace do not
    count. *)
Fixpoint count_digits (s : string) : Z :=
  match s with
  | EmptyString => 0
  | String c rest =>
    match digit_of c with Some _ => 1 | None => 0 end + count_digits rest
  end.

(** [sys.get_int_max_str_digits()], as CPython sets it by default: [int]
    refuses a decimal text with more digits
    ("Exceeds the limit (4300 digits) for integer string conversion"). *)
Definition MAX_STR_DIGITS : Z := 4300.

(** The text after the sign; [None] is [ValueError], whichever of the two
    messages it carries. *)
Definition parse_numeral (body : string) : option Z :=
  if MAX_STR_DIGITS <? count_digits body then None
  else parse_digits 0 false body.

(** [int(s)]; [None] is [ValueError]. *)
Definition py_int (s : string) : option Z :=
  match strip s with
  | String "-" rest => Z.opp <$> parse_numeral rest
  | String "+" rest => parse_numeral rest
  | body => parse_numeral body
  end.

(** [range(a, b)] *)
Definition py_range2 (a b : Z) : list Z := seqZ a (b - a).

(** The body of the loop of [_parse_packet_list]; a [ValueError] is caught,
    a warning is logged, and [drops] is left as it is. *)
Definition parse_item (drops : gset Z) (item : string) : gset Z :=
  let item := strip item in
  match item with
  | EmptyString => drops
  | _ =>
    if contains "-" item then
      let '(start, end_) := split_once "-" item in
      match py_int (strip start) with
      | None => drops
      | Some start_idx =>
        match py_int (strip end_) with
        | None => drops
        | Some end_idx => drops ∪ list_to_set (py_range2 start_idx (end_idx + 1))
        end
      end
    else
      match py_int item with
      | Some n => drops ∪ {[ n ]}
      | None => drops
      end
  end.

Definition _parse_packet_list (drop_list : string) : gset Z :=
  fold_left parse_item (split "," drop_list) ∅.

(** The last step of [load_filters], for a file with a [manual] section. *)
Definition load_manual_drops (fm : FilterManager) (drop_list : string) : FilterManager :=
  {| time_settings := time_settings fm; channel_limits := channel_limits fm;
     manual_drops := _parse_packet_list drop_list |}.

(** ** The time stage, as the specification words it *)

(** The delta against the baseline, with [2^24] added to a negative delta
    when wrap-around is permitted. *)
Definition spec_time_delta (wrap : bool) (baseline t : Z) : Z :=
  let delta := t - baseline in
  if (delta <? 0) && wrap then delta + 2 ^ 24 else delta.

(** Drop if the delta exceeds [maxJumpMs] (unbounded when absent) or if it
    is negative and wrap is not permitted. *)
Definition spec_time_drop (max_jump : option Z) (wrap : bool) (baseline t : Z) : Prop :=
  let delta := spec_time_delta wrap baseline t in
  (exists m, max_jump = Some m /\ delta > m) \/ (delta < 0 /\ wrap = false).

(** A packet that carries only a time. *)
Definition packet_at (t : Z) : TelemetryPacket :=
  {| time_ms := t; temp_cC := 0; pressPa := 0;
     magX := 0; magY := 0; magZ := 0; accelX := 0; accelY := 0; accelZ := 0;
     gyroX := 0; gyroY := 0; gyroZ := 0; lat_1e7 := 0; lon_1e7 := 0;
     flags := from_byte 0;
     radData0 := 0; radData1 := 0; radData2 := 0; radData3 := 0 |}.

(** A configuration collaborator with nothing to merge. *)
Definition no_config : ConfigManager :=
  {| get_time_settings := mkTimeSettings None None; get_channel_limits := ∅ |}.

(** The baseline is the time of the last packet accepted so far. *)
Definition baseline_inv (st : filter_state) : Prop :=
  prev_time st = time_ms <$> last (filtered_packets st).

(** ** Drop-list tokens, as the specification words them

    A literal index, or an inclusive range "a-b", each index written as a
    decimal numeral.  What a numeral stands for is defined here by the
    place value of its digits, not by the parser. *)

Definition is_digit (c : ascii) : bool :=
  ((48 <=? nat_of_ascii c) && (nat_of_ascii c <=? 57))%nat.

Fixpoint all_digits (s : string) : bool :=
  match s with
  | EmptyString => true
  | String c rest => is_digit c && all_digits rest
  end.

Definition digit_value (c : ascii) : Z := Z.of_nat (nat_of_ascii c) - 48.

(** The digit [i] places from the right counts [10^i]. *)
Fixpoint numeral_value (s : string) : Z :=
  match s with
  | EmptyString => 0
  | String c rest =>
    digit_value c * 10 ^ Z.of_nat (String.length rest) + numeral_value rest
  end.

(** One or more decimal digits. *)
Definition digit_string (s : string) : Prop := s <> EmptyString /\ all_digits s = true.

(** A numeral the interpreter reads: one to 4300 decimal digits. *)
Definition numeral (s : string) : Prop :=
  s <> EmptyString /\ all_digits s = true /\ Z.of_nat (String.length s) <= MAX_STR_DIGITS.

(** Decimal digits, too many of them for [int]. *)
Definition overlong_numeral (s : string) : Prop :=
  all_digits s = true /\ MAX_STR_DIGITS < Z.of_nat (String.length s).

Inductive drop_token :=
| Literal (index : string)
| Range (lo hi : string).

Definition token_text (t : drop_token) : string :=
  match t with
  | Literal index => index
  | Range lo hi => lo ++ "-" ++ hi
  end.

(** No whitespace at either end. *)
Definition trimmed (s : string) : Prop := lstrip s = s /\ rstrip s = s.

(** A token written with decimal digits. *)
Definition token_form (t : drop_token) : Prop :=
  match t with
  | Literal index => digit_string index
  | Range lo hi => digit_string lo /\ digit_string hi
  end.

(** A token whose numerals the interpreter reads. *)
Definition token_wf (t : drop_token) : Prop :=
  match t with
  | Literal index => numeral index
  | Range lo hi => numeral lo /\ numeral hi
  end.

(** The positions a token excludes. *)
Definition token_covers (t : drop_token) (z : Z) : Prop :=
  match t with
  | Literal index => z = numeral_value index
  | Range lo hi => numeral_value lo <= z <= numeral_value hi
  end.

(** ** Little-endian integers

    The unsigned integer a run of bytes stands for, first byte least
    significant. *)
Fixpoint le_value (bs : list byte) : Z :=
  match bs with
  | [] => 0
  | b :: rest => byte_val b + 256 * le_value rest
  end.


(** ** SystemFlags.to_flags_display *)

Definition to_flags_display (f : SystemFlags) : string :=
  let flag_mapping :=
    [ (start f, "START"); (eject f, "DROP"); (ping f, "PING"); (ok f, "OK");
      (err f, "ERR"); (wait f, "WAIT"); (command f, "CMD"); (land f, "LAND") ]%string in
  let active_flags :=
    map (fun entry => ("|" ++ entry.2 ++ "|")%string)
        (List.filter (fun entry : bool * string => entry.1) flag_mapping) in
  match active_flags with
  | [] => "|NONE|"%string
  | _ => String.concat "" active_flags
  end.

(** [needle in s] for strings. *)
Fixpoint has_infix (needle s : string) : bool :=
  String.prefix needle s
  || match s with
     | EmptyString => false
     | String _ rest => has_infix needle rest
     end.

(** ** CSVExporter.export

    What [export] hands to the CSV writer: the header and one [row_data]
    per packet.  Creating the directory and writing the file are not
    modelled. *)
Record csv_table := mkCsvTable {
  csv_header : list string;
  csv_rows : list (list (string * py_value))
}.

Inductive export_result :=
| ExportValueError           (* ValueError("No packets to export") *)
| Exported (table : csv_table).

Definition export (packets : list TelemetryPacket) : export_result :=
  match packets with
  | [] => ExportValueError
  | _ => Exported {| csv_header := HEADER; csv_rows := map row_data packets |}
  end.


(** ** Channel limits, read as intervals

    [v] respects a bound when the comparison the filter makes with it is
    false: a finite minimum [q] asks for [q <= v], a finite maximum for
    [v <= q]; [inf] as a minimum and [-inf] as a maximum exclude every
    value, and the other non-finite bounds exclude none. *)
Definition respects_min (v : Z) (bound : option py_float) : Prop :=
  match bound with
  | Some (Finite q) => (q <= inject_Z v)%Q
  | Some PosInf => False
  | Some NegInf | Some NaN | None => True
  end.

Definition respects_max (v : Z) (bound : option py_float) : Prop :=
  match bound with
  | Some (Finite q) => (inject_Z v <= q)%Q
  | Some NegInf => False
  | Some PosInf | Some NaN | None => True
  end.

(** The bound a limits dictionary holds for a channel, if any. *)
Definition bound_of (limits : gmap string limits_t) (channel : string)
    (which : limits_t -> option py_float) : option py_float :=
  limits !! channel ≫= which.


(** Every packet of [l] passes the time stage against the one before it,
    the first one against [baseline]. *)
Fixpoint time_chain (fm : FilterManager) (baseline : option Z)
    (l : list TelemetryPacket) : Prop :=
  match l with
  | [] => True
  | p :: rest =>
    _passes_time_filter fm p baseline 0 = true /\ time_chain fm (Some (time_ms p)) rest
  end.


(** The state of the filter loop holds a list that is a time chain and
    whose packets all passed the channel stage. *)
Definition output_inv (fm : FilterManager) (st : filter_state) : Prop :=
  baseline_inv st
  /\ time_chain fm None (filtered_packets st)
  /\ Forall (fun q => _passes_channel_filter fm q = true) (filtered_packets st).

(** A string of whitespace only. *)
Fixpoint all_space (s : string) : bool :=
  match s with
  | EmptyString => true
  | String c rest => is_space c && all_space rest
  end.


(** ** BitWriter: well-formed writers and lists of fields *)

Definition writer_wf (w : BitWriter) : Prop :=
  size_bits w = Z.of_nat (length (buf w)) * 8 /\ 0 <= bit_pos w <= size_bits w.

(** Stream bit [j] is bit [j - pos] of [value] when [j] lies in the [nbits]
    positions from [pos] on. *)
Definition value_bit (pos nbits value j : Z) : bool :=
  (pos <=? j) && (j <? pos + nbits) && Z.testbit value (j - pos).

(** [for (value, nbits) in fields: bw.write_bits(value, nbits)] *)
Fixpoint write_fields (fields : list (Z * Z)) : stateful BitWriter unit :=
  match fields with
  | [] => ret tt
  | (value, nbits) :: rest => let! _ := write_bits value nbits in write_fields rest
  end.

(** The bit position at which field [k] of a list of fields starts. *)
Definition field_offset (fields : list (Z * Z)) (k : nat) : Z :=
  foldr Z.add 0 ((take k fields).*2).

(** The calls to [write_bits] that [generate_test_packet] makes, in order:
    value and width. *)
Definition generator_fields (time_ms packet_id : Z) (d : random_draws) : list (Z * Z) :=
  [(time_ms, 24); (_to_twos_complement (draw_temp_cC d) 14, 14);
   (Z.land (draw_pressPa d) (Z.shiftl 1 20 - 1), 20)]
  ++ map (fun v => (_to_twos_complement v 16, 16)) (draw_mag d)
  ++ map (fun v => (_to_twos_complement v 16, 16)) (draw_accel d)
  ++ map (fun v => (_to_twos_complement v 16, 16)) (draw_gyro d)
  ++ [(_to_twos_complement (draw_lat_1e7 d) 30, 30);
      (_to_twos_complement (draw_lon_1e7 d) 30, 30);
      (Z.land (generator_flags packet_id d) 0xFF, 8)]
  ++ map (fun r => (Z.land r 0xFFFF, 16)) (draw_rad_data d)
  ++ [(0x0, 2)].


(** ** The test file generator ([test_decoder.py]) *)

(** What [generate_test_file] draws from [random] for packet [i]: whether
    [random.random() < 0.05], the result of [random.randint(5000, 10000)] or
    of [random.randint(100, 500)] (nothing of this is drawn for packet 0),
    and the draws of [generate_test_packet]. *)
Record file_draws := mkFileDraws {
  big_jump : bool;
  jump_ms : Z;
  step_ms : Z;
  packet_draws : random_draws
}.

(** The body of the [for i in range(packet_count)] loop; the loop state is
    [time_ms] and the bytes written to the file so far. *)
Definition write_packet (draws : Z -> file_draws) (st : outcome (Z * list byte)) (i : Z)
    : outcome (Z * list byte) :=
  match st with
  | Returns (time_ms, f) =>
    let time_ms :=
      if i =? 0 then 1000
      else if big_jump (draws i) then time_ms + jump_ms (draws i)
      else time_ms + step_ms (draws i) in
    let time_ms := time_ms mod Z.shiftl 1 24 in
    match generate_test_packet time_ms i (packet_draws (draws i)) with
    | Returns packet =>
      if negb (Z.of_nat (length packet) =? PACKET_SIZE_BYTES)
      then Raises (AssertionError (Z.of_nat (length packet)) PACKET_SIZE_BYTES)
      else Returns (time_ms, f ++ packet)
    | Raises e => Raises e
    | Exhausted => Exhausted
    end
  | _ => st
  end.

(** The content of the file [generate_test_file] writes. *)
Definition generate_test_file (packet_count : Z) (draws : Z -> file_draws)
    : outcome (list byte) :=
  match fold_left (write_packet draws) (py_range packet_count) (Returns (1000, [])) with
  | Returns (_, f) => Returns f
  | Raises e => Raises e
  | Exhausted => Exhausted
  end.

(** The time stamp of packet [i] of a generated file: 1000 for the first
    packet, then the drawn increments, modulo [2^24]. *)
Fixpoint generated_time (draws : Z -> file_draws) (i : nat) : Z :=
  match i with
  | O => 1000
  | S k =>
    let dr := draws (Z.of_nat i) in
    (if big_jump dr then generated_time draws k + jump_ms dr
     else generated_time draws k + step_ms dr) mod Z.shiftl 1 24
  end.

(** Draws of the shape [generate_test_packet] makes: three values per axis
    triple and four radiation counters. *)
Definition generator_shape (d : random_draws) : Prop :=
  length (draw_mag d) = 3%nat /\ length (draw_accel d) = 3%nat
  /\ length (draw_gyro d) = 3%nat /\ length (draw_rad_data d) = 4%nat.

(** Some draws for a file: every packet 250 ms after the one before. *)
Definition sample_file_draws (i : Z) : file_draws :=
  {| big_jump := false; jump_ms := 5000; step_ms := 250; packet_draws := sample_draws |}.


(** ** Plot groups ([plotter.py])

    [PlotManager._parse_graphs_spec] turns the text of the [--graphs] option
    into groups of channels, one plot file per group.  Of [CHANNEL_INFO] only
    the keys matter here. *)

Definition CHANNEL_INFO : list string :=
  [ "time_ms"; "temp_cC"; "pressPa"; "magX"; "magY"; "magZ";
    "accelX"; "accelY"; "accelZ"; "gyroX"; "gyroY"; "gyroZ";
    "lat_1e7"; "lon_1e7"; "radData0"; "radData1"; "radData2"; "radData3" ]%string.

(** The variables of the loop. *)
Record graphs_state := mkGraphsState {
  plot_groups : list (list string * string);
  current_group : list string;
  current_axis : string
}.

(** The loop either goes on or has raised
    [ValueError("Unknown channel '...'")]. *)
Inductive graphs_run :=
| Parsing (st : graphs_state)
| UnknownChannel (channel : string).

(** The body of the loop; the warning about an invalid axis is not
    modelled. *)
Definition graphs_step (run : graphs_run) (item : string) : graphs_run :=
  match run with
  | UnknownChannel _ => run
  | Parsing st =>
    let item := strip item in
    match item with
    | EmptyString => run
    | _ =>
      let '(channel, st) :=
        if contains ":" item then
          let '(channel, axis_spec) := split_once ":" item in
          let channel := strip channel in
          let axis_spec := strip axis_spec in
          let axis_spec :=
            if negb (String.eqb axis_spec "single" || String.eqb axis_spec "multi")
            then "multi"%string else axis_spec in
          let st :=
            if negb (Nat.eqb (length (current_group st)) 0)
               && negb (String.eqb axis_spec (current_axis st))
            then {| plot_groups := plot_groups st ++ [(current_group st, current_axis st)];
                    current_group := [];
                    current_axis := current_axis st |}
            else st in
          (channel, {| plot_groups := plot_groups st; current_group := current_group st;
                       current_axis := axis_spec |})
        else (item, st) in
      if negb (bool_decide (channel ∈ CHANNEL_INFO)) then UnknownChannel channel
      else
        let st := {| plot_groups := plot_groups st;
                     current_group := current_group st ++ [channel];
                     current_axis := current_axis st |} in
        if String.eqb (current_axis st) "multi"
        then Parsing {| plot_groups := plot_groups st ++ [([channel], current_axis st)];
                        current_group := [];
                        current_axis := current_axis st |}
        else Parsing st
    end
  end.

Inductive graphs_result :=
| PlotGroups (groups : list (list string * string))
| GraphsValueError (channel : string).

Definition _parse_graphs_spec (graphs_spec : string) : graphs_result :=
  match fold_left graphs_step (split "," graphs_spec)
                  (Parsing {| plot_groups := []; current_group := [];
                              current_axis := "multi" |}) with
  | UnknownChannel channel => GraphsValueError channel
  | Parsing st =>
    if negb (Nat.eqb (length (current_group st)) 0)
    then PlotGroups (plot_groups st ++ [(current_group st, current_axis st)])
    else PlotGroups (plot_groups st)
  end.

(** The channel an item of the list names: none for a blank item, the text
    before the first colon or else the whole item, without surrounding
    whitespace. *)
Definition item_channel (item : string) : option string :=
  let item := strip item in
  match item with
  | EmptyString => None
  | _ => if contains ":" item then Some (strip (split_once ":" item).1) else Some item
  end.

Definition requested_channels (graphs_spec : string) : list string :=
  omap item_channel (split "," graphs_spec).

(** A well-formed plot group: a single channel on its own axes, or one or
    more channels that share one pair of axes. *)
Definition group_ok (group : list string * string) : Prop :=
  (group.2 = "multi"%string /\ length group.1 = 1%nat)
  \/ (group.2 = "single"%string /\ group.1 <> []).

(** What holds after the loop of [_parse_graphs_spec] has seen the items
    [seen]: no channel is lost, the finished groups are well formed, and a
    group is only kept open in 'single' mode. *)
Definition graphs_inv (seen : list string) (run : graphs_run) : Prop :=
  match run with
  | Parsing st =>
    concat ((plot_groups st).*1) ++ current_group st = omap item_channel seen
    /\ Forall group_ok (plot_groups st)
    /\ (current_group st <> [] -> current_axis st = "single"%string)
    /\ (current_axis st = "single"%string \/ current_axis st = "multi"%string)
    /\ Forall (fun c => c ∈ CHANNEL_INFO) (omap item_channel seen)
  | UnknownChannel channel =>
    exists before after,
      omap item_channel seen = before ++ channel :: after
      /\ Forall (fun c => c ∈ CHANNEL_INFO) before
      /\ channel ∉ CHANNEL_INFO
  end.


(** * Properties *)

(** ** Bit streams *)

Section BitStream.
Context (data : list byte).

Lemma bits_value_range off n :
  0 <= bits_value data off n < 2 ^ Z.of_nat n.
Proof.
  revert off; induction n as [|k IH]; intros off.
  - simpl. lia.
  - cbn [bits_value]. specialize (IH (off + 1)).
    rewrite Nat2Z.inj_succ, Z.pow_succ_r by lia.
    destruct (buf_bit data off); simpl Z.b2z; lia.
Qed.

Lemma bits_value_testbit off n i :
  0 <= i ->
  Z.testbit (bits_value data off n) i = (i <? Z.of_nat n) && buf_bit data (off + i).
Proof.
  revert off i; induction n as [|k IH]; intros off i Hi.
  - simpl bits_value. rewrite Z.bits_0.
    replace (i <? Z.of_nat 0) with false; [done|]. symmetry. apply Z.ltb_ge. lia.
  - cbn [bits_value]. destruct (Z.eq_dec i 0) as [->|Hne].
    + rewrite Z.add_b2z_double_bit0, Z.add_0_r. reflexivity.
    + replace i with (Z.succ (i - 1)) at 1 by lia.
      rewrite Z.add_comm, Z.testbit_succ_r by lia.
      rewrite IH by lia. replace (off + 1 + (i - 1)) with (off + i) by lia.
      f_equal. rewrite Nat2Z.inj_succ.
      destruct (Z.ltb_spec (i - 1) (Z.of_nat k)), (Z.ltb_spec i (Z.succ (Z.of_nat k))); lia || reflexivity.
Qed.

(** Reading [n1 + n2] bits is reading [n1] bits and then [n2] bits. *)
Lemma bits_value_app off n1 n2 :
  bits_value data off (n1 + n2) =
  bits_value data off n1 + 2 ^ Z.of_nat n1 * bits_value data (off + Z.of_nat n1) n2.
Proof.
  revert off; induction n1 as [|k IH]; intros off.
  - simpl. rewrite Z.add_0_r. destruct (bits_value data off n2); reflexivity.
  - cbn [Nat.add bits_value]. rewrite IH, Nat2Z.inj_succ, Z.pow_succ_r by lia.
    replace (off + 1 + Z.of_nat k) with (off + Z.succ (Z.of_nat k)) by lia. ring.
Qed.

Lemma same_byte pos i :
  0 <= i -> pos mod 8 + i < 8 ->
  (pos + i) / 8 = pos / 8 /\ (pos + i) mod 8 = pos mod 8 + i.
Proof. intros. Z.div_mod_to_equations. lia. Qed.

Lemma mask_ones take : 0 <= take -> Z.shiftl 1 take - 1 = Z.ones take.
Proof. intros. rewrite Z.shiftl_1_l, Z.ones_equiv. lia. Qed.

(** What one iteration of the loop extracts from the current byte. *)
Lemma byte_chunk pos b take :
  0 <= pos -> data !! Z.to_nat (pos / 8) = Some b ->
  0 <= take <= 8 - pos mod 8 ->
  Z.land (Z.shiftr (byte_val b) (pos mod 8)) (Z.shiftl 1 take - 1)
  = bits_value data pos (Z.to_nat take).
Proof.
  intros Hpos Hb Htake. rewrite mask_ones by lia.
  apply Z.bits_inj'; intros i Hi.
  rewrite Z.land_spec, Z.shiftr_spec, bits_value_testbit, Z2Nat.id by lia.
  rewrite Z.testbit_ones_nonneg by lia.
  destruct (Z.ltb_spec i take) as [Hlt|Hge].
  - destruct (same_byte pos i) as [Hd Hm]; [lia..|].
    unfold buf_bit. rewrite Hd, Hb, Hm.
    rewrite andb_true_r. simpl. f_equal. lia.
  - rewrite andb_false_r. reflexivity.
Qed.

End BitStream.

(** ** BitReader *)

Lemma lor_shifted result shift chunk :
  0 <= shift -> 0 <= result < 2 ^ shift ->
  Z.lor result (Z.shiftl chunk shift) = result + 2 ^ shift * chunk.
Proof.
  intros Hs Hr.
  assert (Hdisj : Z.land result (Z.shiftl chunk shift) = 0).
  { apply Z.bits_inj'; intros i Hi. rewrite Z.land_spec, Z.bits_0.
    destruct (Z.ltb_spec i shift).
    - rewrite Z.shiftl_spec_low by lia. apply andb_false_r.
    - rewrite <- (Z.mod_small result (2 ^ shift)) by lia.
      rewrite Z.mod_pow2_bits_high by lia. reflexivity. }
  rewrite <- Z.lxor_lor by exact Hdisj.
  rewrite <- Z.add_nocarry_lxor by exact Hdisj.
  rewrite Z.shiftl_mul_pow2 by lia. ring.
Qed.

Lemma py_index_nonneg {A} (l : list A) i : 0 <= i -> py_index l i = l !! Z.to_nat i.
Proof. intros. unfold py_index. destruct (Z.leb_spec 0 i); [reflexivity|lia]. Qed.

(** The loop invariant: with [remain] bits still inside the buffer the loop
    returns, adds the next [remain] stream bits above the [shift] bits
    gathered so far, and leaves the cursor [remain] bits further. *)
Lemma read_loop_correct budget : forall result shift remain r,
  0 <= remain -> (Z.to_nat remain <= budget)%nat ->
  0 <= shift -> 0 <= result < 2 ^ shift ->
  0 <= _bit_pos r -> _bit_pos r + remain <= Z.of_nat (length (_data r)) * 8 ->
  read_loop budget result shift remain r
  = (Returns (result + 2 ^ shift * bits_value (_data r) (_bit_pos r) (Z.to_nat remain)),
     advance r remain).
Proof.
  induction budget as [|budget IH]; intros result shift remain r Hrem Hbud Hsh Hres Hpos Hfit.
  - assert (remain = 0) as -> by lia. simpl.
    rewrite Z.mul_0_r, Z.add_0_r. unfold advance. rewrite Z.add_0_r.
    destruct r; reflexivity.
  - cbn [read_loop]. destruct (Z.eqb_spec remain 0) as [->|Hnz].
    + simpl. rewrite Z.mul_0_r, Z.add_0_r. unfold advance. rewrite Z.add_0_r.
      destruct r; reflexivity.
    + cbv zeta.
      set (pos := _bit_pos r) in *.
      set (take := Z.min (8 - pos mod 8) remain).
      assert (Hm : 0 <= pos mod 8 < 8) by (apply Z.mod_pos_bound; lia).
      assert (Htake : 1 <= take <= remain /\ take <= 8 - pos mod 8) by (unfold take; lia).
      assert (Hidx : (Z.to_nat (pos / 8) < length (_data r))%nat).
      { apply Nat2Z.inj_lt. rewrite Z2Nat.id by (apply Z.div_pos; lia).
        Z.div_mod_to_equations. lia. }
      rewrite py_index_nonneg by (apply Z.div_pos; lia).
      destruct (lookup_lt_is_Some_2 _ _ Hidx) as [b Hb]. rewrite Hb.
      rewrite (byte_chunk (_data r) pos b take) by (done || lia).
      rewrite lor_shifted by lia.
      pose proof (bits_value_range (_data r) pos (Z.to_nat take)) as Hrange.
      rewrite Z2Nat.id in Hrange by lia.
      rewrite IH; cbn [_data _bit_pos _max_bits]; try lia.
      * unfold advance. cbn [_data _bit_pos _max_bits]. subst pos.
        f_equal; [|f_equal; lia].
        f_equal. replace (Z.to_nat remain) with (Z.to_nat take + Z.to_nat (remain - take))%nat by lia.
        rewrite bits_value_app, Z2Nat.id by lia.
        rewrite Z.pow_add_r by lia. ring.
      * rewrite Z.pow_add_r by lia. nia.
Qed.

(** A successful [read_bits n] returns the next [n] stream bits and moves
    the cursor by [n]. *)
Lemma read_bits_ok r n :
  reader_wf r -> 0 <= n -> n <= bits_left r ->
  read_bits n r = (Returns (bits_value (_data r) (_bit_pos r) (Z.to_nat n)), advance r n).
Proof.
  intros [Hmax Hpos] Hn Hleft. unfold bits_left in Hleft. unfold read_bits.
  destruct (Z.eqb_spec n 0) as [->|Hnz].
  - simpl. unfold advance. rewrite Z.add_0_r. destruct r; reflexivity.
  - destruct (Z.ltb_spec n 0); [lia|].
    destruct (Z.ltb_spec (_max_bits r) (_bit_pos r + n)); [lia|].
    rewrite read_loop_correct; try lia.
    f_equal. f_equal. simpl. destruct (bits_value _ _ _); reflexivity.
Qed.

Lemma advance_wf r n :
  reader_wf r -> 0 <= n -> n <= bits_left r -> reader_wf (advance r n).
Proof. unfold reader_wf, bits_left, advance. simpl. lia. Qed.

(** The loop never runs out of its budget, whatever the reader looks like:
    every iteration takes at least one bit. *)
Lemma read_loop_terminates budget : forall result shift remain r,
  0 <= remain -> (Z.to_nat remain <= budget)%nat ->
  (read_loop budget result shift remain r).1 <> Exhausted.
Proof.
  induction budget as [|budget IH]; intros result shift remain r Hrem Hbud.
  - assert (remain = 0) as -> by lia. simpl. discriminate.
  - cbn [read_loop]. destruct (Z.eqb_spec remain 0) as [->|Hnz]; [simpl; discriminate|].
    cbv zeta. destruct (py_index _ _); [|simpl; discriminate].
    assert (Hm : 0 <= _bit_pos r mod 8 < 8) by (apply Z.mod_pos_bound; lia).
    apply IH; lia.
Qed.

Lemma read_bits_terminates n r : (read_bits n r).1 <> Exhausted.
Proof.
  unfold read_bits. destruct (n =? 0); [simpl; discriminate|].
  destruct (Z.ltb_spec n 0); [simpl; discriminate|].
  destruct (_ <? _); [simpl; discriminate|].
  apply read_loop_terminates; lia.
Qed.

(** ** Sign extension and flag bits *)

Lemma land_pow2 v k :
  0 <= k -> Z.land v (2 ^ k) = Z.b2z (Z.testbit v k) * 2 ^ k.
Proof.
  intros Hk. apply Z.bits_inj'; intros i Hi.
  rewrite Z.land_spec, Z.pow2_bits_eqb by lia.
  destruct (Z.eqb_spec k i) as [->|Hne].
  - destruct (Z.testbit v i) eqn:E; simpl Z.b2z.
    + rewrite Z.mul_1_l, Z.pow2_bits_true by lia. reflexivity.
    + rewrite Z.mul_0_l, Z.bits_0. reflexivity.
  - rewrite andb_false_r. destruct (Z.testbit v k); simpl Z.b2z.
    + rewrite Z.mul_1_l, Z.pow2_bits_false by lia. reflexivity.
    + rewrite Z.mul_0_l, Z.bits_0. reflexivity.
Qed.

Lemma truthy_land_pow2 v k : 0 <= k -> truthy (Z.land v (2 ^ k)) = Z.testbit v k.
Proof.
  intros Hk. rewrite land_pow2 by lia. unfold truthy.
  assert (0 < 2 ^ k) by (apply Z.pow_pos_nonneg; lia).
  destruct (Z.testbit v k); simpl Z.b2z.
  - destruct (Z.eqb_spec (1 * 2 ^ k) 0); [lia|reflexivity].
  - reflexivity.
Qed.

Lemma testbit_top w v :
  1 <= w -> 0 <= v < 2 ^ w -> Z.testbit v (w - 1) = (2 ^ (w - 1) <=? v).
Proof.
  intros Hw Hv.
  assert (Hp : 2 ^ w = 2 * 2 ^ (w - 1)).
  { replace w with (Z.succ (w - 1)) at 1 by lia. apply Z.pow_succ_r. lia. }
  assert (0 < 2 ^ (w - 1)) by (apply Z.pow_pos_nonneg; lia).
  destruct (Z.leb_spec (2 ^ (w - 1)) v) as [Hge|Hlt].
  - apply Z.testbit_true; [lia|].
    replace (v / 2 ^ (w - 1)) with 1; [reflexivity|].
    apply Z.div_unique with (r := v - 2 ^ (w - 1)); lia.
  - apply Z.testbit_false; [lia|].
    rewrite Z.div_small by lia. reflexivity.
Qed.

(** On an unsigned [w]-bit value [_sign_extend] is the two's-complement
    reading. *)
Lemma sign_extend_twos_complement w v :
  1 <= w -> 0 <= v < 2 ^ w -> _sign_extend v w = twos_complement w v.
Proof.
  intros Hw Hv. unfold _sign_extend, twos_complement. cbv zeta.
  rewrite mask_ones, Z.land_ones, Z.mod_small by lia.
  rewrite !Z.shiftl_1_l, truthy_land_pow2, testbit_top by lia.
  reflexivity.
Qed.

Lemma from_byte_bits b k :
  (k < 8)%nat -> flag_of_bit (from_byte b) k = Z.testbit b (Z.of_nat k).
Proof.
  intros Hk.
  destruct k as [|k]; [exact (truthy_land_pow2 b 0 ltac:(lia))|].
  destruct k as [|k]; [exact (truthy_land_pow2 b 1 ltac:(lia))|].
  destruct k as [|k]; [exact (truthy_land_pow2 b 2 ltac:(lia))|].
  destruct k as [|k]; [exact (truthy_land_pow2 b 3 ltac:(lia))|].
  destruct k as [|k]; [exact (truthy_land_pow2 b 4 ltac:(lia))|].
  destruct k as [|k]; [exact (truthy_land_pow2 b 5 ltac:(lia))|].
  destruct k as [|k]; [exact (truthy_land_pow2 b 6 ltac:(lia))|].
  destruct k as [|k]; [exact (truthy_land_pow2 b 7 ltac:(lia))|]. lia.
Qed.

(** ** Claims about the BitReader *)

(** C6.  For a well-formed reader and [n >= 0]: with fewer than [n] bits
    left, [read_bits n] raises the not-enough-bits [ValueError] and leaves
    the reader exactly as it was, so that any later read gives what it would
    have given without the failing call; with at least [n] bits left it
    returns a value. *)
Theorem read_bits_out_of_range (r : BitReader) (n : Z) :
  reader_wf r -> 0 <= n ->
  (bits_left r < n ->
     read_bits n r
       = (Raises (ValueError (NotEnoughBits n (_bit_pos r) (_max_bits r))), r)
     /\ forall m, read_bits m (read_bits n r).2 = read_bits m r)
  /\ (n <= bits_left r -> exists v r', read_bits n r = (Returns v, r')).
Proof.
  intros Hwf Hn. split.
  - intros Hlt. destruct Hwf as [Hmax Hpos]. unfold bits_left in Hlt.
    assert (E : read_bits n r
                = (Raises (ValueError (NotEnoughBits n (_bit_pos r) (_max_bits r))), r)).
    { unfold read_bits.
      destruct (Z.eqb_spec n 0); [lia|].
      destruct (Z.ltb_spec n 0); [lia|].
      destruct (Z.ltb_spec (_max_bits r) (_bit_pos r + n)); [reflexivity|lia]. }
    split; [exact E|]. intros m. rewrite E. reflexivity.
  - intros Hle. rewrite read_bits_ok by assumption. eauto.
Qed.

Lemma read_bits_out_of_range_witness :
  let r := advance (BitReader_init ["a"%byte; "b"%byte]) 11 in
  (read_bits 6 r = (Raises (ValueError (NotEnoughBits 6 11 16)), r)
   /\ forall m, read_bits m (read_bits 6 r).2 = read_bits m r).
Proof.
  intros r.
  refine (proj1 (read_bits_out_of_range r 6 _ _) _).
  - unfold reader_wf, r; simpl; lia.
  - lia.
  - unfold bits_left, r; simpl; lia.
Defined.

(** C7.  For a well-formed reader with [n1 + n2] bits left: reading [n1]
    bits ([v1]) and then [n2] bits ([v2]) gives [v1 + v2 * 2^n1] equal to
    the value of one read of [n1 + n2] bits from the same start, both ways
    end at the same cursor, and each read moves the cursor by exactly its
    bit count, lowering [bits_left] by as much. *)
Theorem read_bits_split (r : BitReader) (n1 n2 : Z) :
  reader_wf r -> 0 <= n1 -> 0 <= n2 -> n1 + n2 <= bits_left r ->
  exists v1 v2 v12 r1 r2,
    read_bits n1 r = (Returns v1, r1)
    /\ read_bits n2 r1 = (Returns v2, r2)
    /\ read_bits (n1 + n2) r = (Returns v12, r2)
    /\ v1 + v2 * 2 ^ n1 = v12
    /\ _bit_pos r1 = _bit_pos r + n1 /\ bits_left r1 = bits_left r - n1
    /\ _bit_pos r2 = _bit_pos r1 + n2 /\ bits_left r2 = bits_left r1 - n2
    /\ _data r1 = _data r /\ _data r2 = _data r.
Proof.
  intros Hwf H1 H2 Hleft.
  assert (Hwf1 : reader_wf (advance r n1)) by (apply advance_wf; [assumption|lia..]).
  assert (Hleft1 : bits_left (advance r n1) = bits_left r - n1)
    by (unfold bits_left, advance; simpl; lia).
  exists (bits_value (_data r) (_bit_pos r) (Z.to_nat n1)),
         (bits_value (_data r) (_bit_pos r + n1) (Z.to_nat n2)),
         (bits_value (_data r) (_bit_pos r) (Z.to_nat (n1 + n2))),
         (advance r n1), (advance (advance r n1) n2).
  split; [apply read_bits_ok; [assumption|lia..]|].
  split; [rewrite read_bits_ok by (assumption || lia); reflexivity|].
  split.
  { rewrite read_bits_ok by (assumption || lia). f_equal.
    unfold advance; simpl. f_equal. lia. }
  split.
  { rewrite Z2Nat.inj_add, bits_value_app, Z2Nat.id by lia. ring. }
  unfold bits_left, advance; simpl. repeat split; lia.
Qed.

Lemma read_bits_split_witness :
  exists v1 v2 v12 r1 r2,
    let r := advance (BitReader_init ["a"%byte; "b"%byte; "c"%byte]) 3 in
    read_bits 7 r = (Returns v1, r1)
    /\ read_bits 9 r1 = (Returns v2, r2)
    /\ read_bits (7 + 9) r = (Returns v12, r2)
    /\ v1 + v2 * 2 ^ 7 = v12
    /\ _bit_pos r1 = _bit_pos r + 7 /\ bits_left r1 = bits_left r - 7
    /\ _bit_pos r2 = _bit_pos r1 + 9 /\ bits_left r2 = bits_left r1 - 9
    /\ _data r1 = _data r /\ _data r2 = _data r.
Proof.
  apply (read_bits_split (advance (BitReader_init ["a"%byte; "b"%byte; "c"%byte]) 3) 7 9).
  - unfold reader_wf; simpl; lia.
  - lia.
  - lia.
  - unfold bits_left; simpl; lia.
Defined.

(** ** Decoding one record *)

Lemma read_bits_at data p n p' mx :
  mx = Z.of_nat (length data) * 8 -> 0 <= p -> 0 <= n -> p' = p + n -> p' <= mx ->
  read_bits n (mkBitReader data p mx)
  = (Returns (bits_value data p (Z.to_nat n)), mkBitReader data p' mx).
Proof.
  intros -> Hp Hn -> Hfit.
  rewrite read_bits_ok; [reflexivity| |lia|].
  - unfold reader_wf; simpl; lia.
  - unfold bits_left; simpl; lia.
Qed.

Ltac read_step data p n :=
  let p' := eval cbv in (p + n) in
  rewrite (read_bits_at data p n p' 336) by (simpl; lia);
  cbv beta iota.

Lemma decode_fields_42 data :
  length data = 42%nat ->
  decode_fields (BitReader_init data)
  = (Returns (decoded_fields data), mkBitReader data 336 336).
Proof.
  intros Hlen. unfold decode_fields, BitReader_init, bind, ret. rewrite Hlen.
  change (Z.of_nat 42 * 8) with 336.
  read_step data 0 24. read_step data 24 14. read_step data 38 20.
  read_step data 58 30. read_step data 88 30. read_step data 118 2.
  read_step data 120 16. read_step data 136 16. read_step data 152 16.
  read_step data 168 16. read_step data 184 16. read_step data 200 16.
  read_step data 216 16. read_step data 232 16. read_step data 248 16.
  read_step data 264 8.
  read_step data 272 16. read_step data 288 16. read_step data 304 16.
  read_step data 320 16.
  reflexivity.
Qed.

Lemma decode_packet_42 data :
  length data = 42%nat -> _decode_packet data = (Returns (decoded_fields data), []).
Proof.
  intros Hlen. unfold _decode_packet. rewrite Hlen.
  change (negb (Z.of_nat 42 =? PACKET_SIZE)) with false. cbv iota.
  rewrite decode_fields_42 by exact Hlen. reflexivity.
Qed.

Lemma decode_packet_wrong_length data :
  length data <> 42%nat ->
  _decode_packet data
  = (Raises (ValueError (ExpectedBytes 42 (Z.of_nat (length data)))), []).
Proof.
  intros Hlen. unfold _decode_packet, PACKET_SIZE.
  destruct (Z.eqb_spec (Z.of_nat (length data)) 42); [lia|reflexivity].
Qed.

Lemma sign_extend_bits data off (w : nat) :
  (1 <= w)%nat ->
  _sign_extend (bits_value data off w) (Z.of_nat w)
  = twos_complement (Z.of_nat w) (bits_value data off w).
Proof.
  intros Hw. apply sign_extend_twos_complement; [lia|apply bits_value_range].
Qed.

Lemma twos_complement_range w v :
  1 <= w -> 0 <= v < 2 ^ w ->
  - 2 ^ (w - 1) <= twos_complement w v < 2 ^ (w - 1).
Proof.
  intros Hw Hv.
  assert (Hp : 2 ^ w = 2 * 2 ^ (w - 1)).
  { replace w with (Z.succ (w - 1)) at 1 by lia. apply Z.pow_succ_r. lia. }
  unfold twos_complement. destruct (Z.leb_spec (2 ^ (w - 1)) v); lia.
Qed.

(** C1.  A 42-byte record always decodes, consuming all 336 bits, and the
    packet is the reading of the record under the layout table of section
    4.2: each field is the run of stream bits at the offset its position in
    the table gives it, least-significant bit first; the signed fields
    (temp_cC, lat_1e7, lon_1e7, mag, accel, gyro) are read in two's
    complement and the others unsigned; flag k is bit k of the flags byte;
    the two dummy bits occupy their place and go nowhere. *)
Theorem decode_packet_layout (data : list byte) :
  length data = 42%nat ->
  exists pkt, _decode_packet data = (Returns pkt, []) /\ layout_decoding data pkt.
Proof.
  intros Hlen. exists (decoded_fields data). split; [apply decode_packet_42, Hlen|].
  unfold layout_decoding, decoded_fields; cbn -[layout_field bits_value _sign_extend from_byte].
  repeat match goal with |- _ /\ _ => split end;
    try reflexivity;
    try (match goal with
         | |- _sign_extend (bits_value _ ?off ?w) _ = _ =>
           exact (sign_extend_bits data off w ltac:(lia))
         end).
  intros k Hk. apply from_byte_bits, Hk.
Qed.

Lemma decode_packet_layout_witness :
  exists pkt, _decode_packet sample_record = (Returns pkt, [])
              /\ layout_decoding sample_record pkt.
Proof. apply (decode_packet_layout sample_record). reflexivity. Defined.

(** Every field of a decoded record lies in the range of its bit width, so
    no 42-byte record can fail the sanity checks. *)
Lemma decoded_fields_valid data : _is_valid_packet (decoded_fields data) = true.
Proof.
  unfold _is_valid_packet, decoded_fields;
    cbn -[bits_value _sign_extend from_byte Z.shiftl Z.mul Z.abs].
  pose proof (bits_value_range data 38 20) as Hp.
  pose proof (bits_value_range data 58 30) as Hlat.
  pose proof (bits_value_range data 88 30) as Hlon.
  pose proof (bits_value_range data 24 14) as Ht.
  change (Z.of_nat 30) with 30 in *. change (Z.of_nat 14) with 14 in *.
  rewrite !(sign_extend_twos_complement 30), (sign_extend_twos_complement 14)
    by (assumption || lia).
  apply (twos_complement_range 30) in Hlat; [|lia].
  apply (twos_complement_range 30) in Hlon; [|lia].
  apply (twos_complement_range 14) in Ht; [|lia].
  change (Z.shiftl 1 20) with 1048576.
  change (2 ^ Z.of_nat 20) with 1048576 in Hp.
  change (2 ^ (30 - 1)) with 536870912 in Hlat, Hlon.
  change (2 ^ (14 - 1)) with 8192 in Ht.
  destruct (Z.ltb_spec (bits_value data 38 20) 0); [lia|].
  destruct (Z.leb_spec 1048576 (bits_value data 38 20)); [lia|]. cbn [orb].
  destruct (Z.ltb_spec (90 * 10000000) (Z.abs (twos_complement 30 (bits_value data 58 30)))); [lia|].
  destruct (Z.ltb_spec (180 * 10000000) (Z.abs (twos_complement 30 (bits_value data 88 30)))); [lia|].
  destruct (Z.ltb_spec 100000 (Z.abs (twos_complement 14 (bits_value data 24 14)))); [lia|].
  reflexivity.
Qed.

Lemma is_valid_packet_spec pkt : _is_valid_packet pkt = false <-> implausible pkt.
Proof.
  unfold _is_valid_packet, implausible.
  change (Z.shiftl 1 20) with 1048576. change (2 ^ 20) with 1048576.
  destruct (Z.ltb_spec (pressPa pkt) 0); cbn [orb]; [split; [left; lia|reflexivity]|].
  destruct (Z.leb_spec 1048576 (pressPa pkt)); [split; [left; lia|reflexivity]|].
  destruct (Z.ltb_spec (90 * 10000000) (Z.abs (lat_1e7 pkt)));
    [split; [right; left; lia|reflexivity]|].
  destruct (Z.ltb_spec (180 * 10000000) (Z.abs (lon_1e7 pkt)));
    [split; [right; right; left; lia|reflexivity]|].
  destruct (Z.ltb_spec 100000 (Z.abs (temp_cC pkt)));
    [split; [right; right; right; lia|reflexivity]|].
  split; [discriminate|]. intros [?|[?|[?|?]]]; lia.
Qed.

(** C5.  [_decode_packet] raises the wrong-length [ValueError] exactly when
    the input is not 42 bytes long, and the single-packet entry point then
    reports a failed decode.  A 42-byte input always decodes to a packet;
    when that packet breaks a plausibility bound the entry point returns no
    packet and reports an invalid packet (another event than the failed
    decode), otherwise it returns that very packet.  The sanity check fails
    exactly on the bounds of the data model. *)
Theorem decode_one_outcomes (log_packets : bool) (data : list byte) (idx : Z) :
  ((exists got, (_decode_packet data).1 = Raises (ValueError (ExpectedBytes 42 got)))
     <-> length data <> 42%nat)
  /\ (length data <> 42%nat ->
        decode_packet_with_log log_packets data idx
        = (Returns None,
           [WarnFailedDecode idx (ValueError (ExpectedBytes 42 (Z.of_nat (length data))))]))
  /\ (length data = 42%nat ->
        exists pkt, _decode_packet data = (Returns pkt, [])
          /\ (implausible pkt ->
                decode_packet_with_log log_packets data idx
                = (Returns None, [WarnInvalidPacket idx]))
          /\ (~ implausible pkt ->
                decode_packet_with_log log_packets data idx
                = (Returns (Some pkt),
                   if log_packets then [LogPacket (idx + 1) pkt] else [])))
  /\ (forall pkt, _is_valid_packet pkt = false <-> implausible pkt).
Proof.
  split; [|split; [|split]].
  - split.
    + intros [got Hgot] Hlen. rewrite decode_packet_42 in Hgot by exact Hlen. discriminate.
    + intros Hlen. rewrite decode_packet_wrong_length by exact Hlen. eauto.
  - intros Hlen. unfold decode_packet_with_log.
    rewrite decode_packet_wrong_length by exact Hlen. reflexivity.
  - intros Hlen. exists (decoded_fields data).
    split; [apply decode_packet_42, Hlen|].
    unfold decode_packet_with_log. rewrite decode_packet_42 by exact Hlen.
    split; intros Hpl.
    + apply is_valid_packet_spec in Hpl. rewrite Hpl. reflexivity.
    + destruct (_is_valid_packet (decoded_fields data)) eqn:E; [reflexivity|].
      apply is_valid_packet_spec in E. contradiction.
  - apply is_valid_packet_spec.
Qed.

(** ** Batch decoding *)

Lemma decode_packet_cases block :
  (exists pkt, _decode_packet block = (Returns pkt, []))
  \/ (exists e, _decode_packet block = (Raises e, [])).
Proof.
  destruct (decide (length block = 42%nat)) as [Hlen|Hlen].
  - left. rewrite decode_packet_42 by exact Hlen. eauto.
  - right. rewrite decode_packet_wrong_length by exact Hlen. eauto.
Qed.

Lemma record_result_42 block :
  length block = 42%nat -> record_result block = Some (decoded_fields block).
Proof.
  intros Hlen. unfold record_result.
  rewrite decode_packet_42, decoded_fields_valid by exact Hlen. reflexivity.
Qed.

Section BatchDecoding.
Context (log_packets : bool) (data : list byte).

(** One turn of the loop: the record contributes its result to the packet
    list, and a dropped record leaves a warning that names it. *)
Lemma decode_block_step packets log i :
  exists evs,
    decode_block log_packets data (Returns packets, log) i
    = (Returns (packets ++ option_list (record_result (block_at data i))), log ++ evs)
    /\ (record_result (block_at data i) = None ->
        exists ev, ev ∈ evs /\ drop_warning i ev).
Proof.
  unfold decode_block, record_result. fold (block_at data i).
  destruct (decode_packet_cases (block_at data i)) as [[pkt ->]|[e ->]].
  - destruct (_is_valid_packet pkt).
    + eexists. split; [reflexivity|]. discriminate.
    + exists [WarnInvalidPacket i]. split.
      * simpl. rewrite app_nil_r. reflexivity.
      * intros _. exists (WarnInvalidPacket i).
        split; [apply list_elem_of_singleton; reflexivity|left; reflexivity].
  - exists [WarnFailedDecode i e]. split.
    + simpl. rewrite app_nil_r. reflexivity.
    + intros _. exists (WarnFailedDecode i e).
      split; [apply list_elem_of_singleton; reflexivity|right; eauto].
Qed.

Lemma decode_loop (indices : list Z) : forall packets log,
  exists evs,
    fold_left (decode_block log_packets data) indices (Returns packets, log)
    = (Returns (packets ++ omap (fun i => record_result (block_at data i)) indices),
       log ++ evs)
    /\ (forall i, i ∈ indices -> record_result (block_at data i) = None ->
        exists ev, ev ∈ evs /\ drop_warning i ev).
Proof.
  induction indices as [|i rest IH]; intros packets log.
  - exists []. simpl. rewrite !app_nil_r. split; [reflexivity|].
    intros i Hi. apply elem_of_nil in Hi. contradiction.
  - destruct (decode_block_step packets log i) as (evs1 & Hstep & Hwarn1).
    cbn [fold_left]. rewrite Hstep.
    destruct (IH (packets ++ option_list (record_result (block_at data i))) (log ++ evs1))
      as (evs2 & Hrest & Hwarn2).
    exists (evs1 ++ evs2). rewrite Hrest. split.
    + f_equal; [|by rewrite app_assoc]. f_equal. rewrite <- app_assoc. f_equal.
      cbn [omap list_omap]. destruct (record_result (block_at data i)); reflexivity.
    + intros j Hj Hnone. apply elem_of_cons in Hj as [->|Hj].
      * destruct (Hwarn1 Hnone) as (ev & Hev & Hdrop). exists ev.
        split; [apply elem_of_app; left; exact Hev|exact Hdrop].
      * destruct (Hwarn2 j Hj Hnone) as (ev & Hev & Hdrop). exists ev.
        split; [apply elem_of_app; right; exact Hev|exact Hdrop].
Qed.

Lemma block_at_take_drop i :
  0 <= i -> block_at data i = take 42 (drop (Z.to_nat (i * 42)) data).
Proof.
  intros Hi. unfold block_at, py_slice, PACKET_SIZE. f_equal.
  replace (i * 42 + 42 - i * 42) with 42 by lia. reflexivity.
Qed.

Lemma record_blocks_fmap k : record_blocks data k = block_at data <$> seqZ 0 k.
Proof. reflexivity. Qed.

Lemma concat_blocks (n : nat) : forall m, 0 <= m ->
  concat (block_at data <$> seqZ m (Z.of_nat n))
  = take (42 * n) (drop (Z.to_nat (m * 42)) data).
Proof.
  induction n as [|n IH]; intros m Hm.
  - rewrite Nat.mul_0_r. reflexivity.
  - rewrite seqZ_cons by lia.
    replace (Z.pred (Z.of_nat (S n))) with (Z.of_nat n) by lia.
    cbn [fmap list_fmap concat]. change (list_fmap _ _ (block_at data)) with (fmap (block_at data)).
    rewrite IH, block_at_take_drop by lia.
    replace (Z.to_nat (Z.succ m * 42)) with (Z.to_nat (m * 42) + 42)%nat by lia.
    rewrite <- drop_drop, take_take_drop. f_equal. lia.
Qed.

Lemma blocks_length k block :
  42 * k <= Z.of_nat (length data) -> block ∈ record_blocks data k -> length block = 42%nat.
Proof.
  intros Hfit Hin. rewrite record_blocks_fmap in Hin.
  apply list_elem_of_fmap in Hin as (i & -> & Hi).
  apply elem_of_seqZ in Hi. rewrite block_at_take_drop by lia.
  rewrite length_take, length_drop. lia.
Qed.

Lemma omap_blocks k :
  omap (fun i => record_result (block_at data i)) (seqZ 0 k)
  = omap record_result (record_blocks data k).
Proof.
  rewrite record_blocks_fmap. induction (seqZ 0 k) as [|i l IH]; [reflexivity|].
  cbn. rewrite IH. reflexivity.
Qed.

(** All complete records of a buffer decode to a packet. *)
Lemma omap_blocks_decoded k :
  42 * k <= Z.of_nat (length data) ->
  omap record_result (record_blocks data k) = decoded_fields <$> record_blocks data k.
Proof.
  intros Hfit. pose proof (blocks_length k) as Hlen.
  induction (record_blocks data k) as [|b l IH]; [reflexivity|].
  cbn. rewrite record_result_42 by (apply Hlen; [lia|set_solver]).
  rewrite IH; [reflexivity|]. intros b' ? ?. apply Hlen; [lia|set_solver].
Qed.

Lemma record_blocks_count k : 0 <= k -> length (record_blocks data k) = Z.to_nat k.
Proof. intros. rewrite record_blocks_fmap, length_fmap, length_seqZ. reflexivity. Qed.

(** [decode_file] with the loop resolved. *)
Lemma decode_file_unfold :
  42 <= Z.of_nat (length data) ->
  let count := Z.of_nat (length data) / 42 in
  exists evs,
    decode_file log_packets data
    = (Returns (omap record_result (record_blocks data count)),
       [InfoDecoding count] ++ evs
       ++ [InfoDecoded (Z.of_nat (length (omap record_result (record_blocks data count))))])
    /\ (forall i, i ∈ seqZ 0 count -> record_result (block_at data i) = None ->
        exists ev, ev ∈ evs /\ drop_warning i ev).
Proof.
  intros Hlen count. unfold decode_file, PACKET_SIZE, py_range.
  destruct (Z.ltb_spec (Z.of_nat (length data)) 42); [lia|]. cbv zeta. fold count.
  destruct (decode_loop (seqZ 0 count) [] [InfoDecoding count])
    as (evs & Hloop & Hwarn).
  rewrite Hloop. rewrite app_nil_l, omap_blocks. exists evs. split; [|exact Hwarn].
  reflexivity.
Qed.

(** One turn of the loop, exactly: the window is decoded and its packet
    appended, or the [except] branch logs the failure; either way the loop
    state stays a running one. *)
Lemma decode_block_exact packets log i :
  decode_block log_packets data (Returns packets, log) i
  = (Returns (packets ++ option_list (window_packet (block_at data i))),
     log ++ window_log log_packets i (block_at data i)).
Proof.
  unfold decode_block, window_packet, window_log. fold (block_at data i).
  destruct (decide (length (block_at data i) = 42%nat)) as [Hlen|Hlen].
  - rewrite decode_packet_42, decoded_fields_valid by exact Hlen. reflexivity.
  - rewrite decode_packet_wrong_length by exact Hlen. cbn [option_list].
    rewrite app_nil_r. reflexivity.
Qed.

(** The loop over any list of windows. *)
Lemma decode_loop_exact (indices : list Z) : forall packets log,
  fold_left (decode_block log_packets data) indices (Returns packets, log)
  = (Returns (packets ++ omap (fun i => window_packet (block_at data i)) indices),
     log ++ concat ((fun i => window_log log_packets i (block_at data i)) <$> indices)).
Proof.
  induction indices as [|i rest IH]; intros packets log.
  - cbn. rewrite !app_nil_r. reflexivity.
  - cbn [fold_left]. rewrite decode_block_exact, IH.
    cbn [omap list_omap fmap list_fmap concat].
    rewrite <- !app_assoc. destruct (window_packet (block_at data i)); reflexivity.
Qed.

Lemma window_packets_blocks k :
  omap (fun i => window_packet (block_at data i)) (seqZ 0 k)
  = omap window_packet (record_blocks data k).
Proof.
  rewrite record_blocks_fmap. induction (seqZ 0 k) as [|i l IH]; [reflexivity|].
  cbn. rewrite IH. reflexivity.
Qed.

(** Every complete record of the buffer gives a packet and no warning. *)
Lemma window_packets_complete (indices : list Z) :
  (forall i, i ∈ indices -> length (block_at data i) = 42%nat) ->
  omap (fun i => window_packet (block_at data i)) indices
  = (fun i => decoded_fields (block_at data i)) <$> indices.
Proof.
  induction indices as [|i rest IH]; intros Hall; [reflexivity|].
  cbn [omap list_omap fmap list_fmap]. unfold window_packet at 1.
  destruct (decide (length (block_at data i) = 42%nat)) as [_|Hne];
    [|exfalso; apply Hne, Hall, list_elem_of_here].
  f_equal. apply IH. intros j Hj. apply Hall, list_elem_of_further, Hj.
Qed.

Lemma window_logs_complete (indices : list Z) :
  (forall i, i ∈ indices -> length (block_at data i) = 42%nat) ->
  concat ((fun i => window_log log_packets i (block_at data i)) <$> indices)
  = if log_packets
    then (fun i => LogPacket (i + 1) (decoded_fields (block_at data i))) <$> indices
    else [].
Proof.
  induction indices as [|i rest IH]; intros Hall; [destruct log_packets; reflexivity|].
  cbn [fmap list_fmap concat]. unfold window_log at 1.
  destruct (decide (length (block_at data i) = 42%nat)) as [_|Hne];
    [|exfalso; apply Hne, Hall, list_elem_of_here].
  rewrite IH by (intros j Hj; apply Hall, list_elem_of_further, Hj).
  destruct log_packets; reflexivity.
Qed.

Lemma complete_windows k i :
  42 * k <= Z.of_nat (length data) -> i ∈ seqZ 0 k -> length (block_at data i) = 42%nat.
Proof.
  intros Hfit Hi. apply (blocks_length k); [exact Hfit|].
  rewrite record_blocks_fmap. apply list_elem_of_fmap. eauto.
Qed.

(** [decode_file] on a buffer of at least one record: result and log. *)
Lemma decode_file_run :
  42 <= Z.of_nat (length data) ->
  let count := Z.of_nat (length data) / 42 in
  decode_file log_packets data
  = (Returns (omap (fun i => window_packet (block_at data i)) (seqZ 0 count)),
     [InfoDecoding count]
     ++ concat ((fun i => window_log log_packets i (block_at data i)) <$> seqZ 0 count)
     ++ [InfoDecoded
           (Z.of_nat (length (omap (fun i => window_packet (block_at data i))
                                   (seqZ 0 count))))]).
Proof.
  intros Hlen count. unfold decode_file, PACKET_SIZE, py_range.
  destruct (Z.ltb_spec (Z.of_nat (length data)) 42); [lia|]. cbv zeta. fold count.
  rewrite decode_loop_exact. reflexivity.
Qed.

End BatchDecoding.

(** C8.  For a buffer of [42 * k] bytes, the [k] windows the batch decoder
    cuts are 42 bytes each and, put end to end in order, are the buffer.
    The batch returns (it does not raise) the packets of the windows that
    decode, in record order, and its log is the opening line, what each
    window leaves in turn, and the closing line with the number of packets
    (for the empty buffer: the single too-small warning).  On such a buffer
    every window decodes, so nothing is dropped.  The loop itself absorbs a
    failing window: run over any indices, it logs the warning that names a
    window that is not 42 bytes long, leaves the packets as they are, and
    goes on with the next index; it never stops early and never raises. *)
Theorem decode_file_batch (log_packets : bool) (data : list byte) (k : Z) :
  Z.of_nat (length data) = 42 * k ->
  concat (record_blocks data k) = data
  /\ (forall block, block ∈ record_blocks data k -> length block = 42%nat)
  /\ decode_file log_packets data
     = (Returns (omap window_packet (record_blocks data k)),
        if k =? 0 then [WarnFileTooSmall 0]
        else [InfoDecoding k]
             ++ concat ((fun i => window_log log_packets i (block_at data i)) <$> seqZ 0 k)
             ++ [InfoDecoded (Z.of_nat (length (omap window_packet (record_blocks data k))))])
  /\ omap window_packet (record_blocks data k) = decoded_fields <$> record_blocks data k
  /\ (forall indices packets log,
        Forall (fun i => 0 <= i) indices ->
        fold_left (decode_block log_packets data) indices (Returns packets, log)
        = (Returns (packets ++ omap (fun i => window_packet (block_at data i)) indices),
           log ++ concat ((fun i => window_log log_packets i (block_at data i))
                            <$> indices))).
Proof.
  intros Hlen.
  assert (Hk : 0 <= k) by lia.
  split; [|split; [|split; [|split]]].
  - rewrite record_blocks_fmap. rewrite <- (Z2Nat.id k) by lia.
    rewrite concat_blocks by lia. simpl drop. apply take_ge. lia.
  - intros block. apply blocks_length. lia.
  - destruct (Z.eqb_spec k 0) as [->|Hnz].
    + unfold decode_file, PACKET_SIZE.
      destruct (Z.ltb_spec (Z.of_nat (length data)) 42); [|lia].
      replace (Z.of_nat (length data)) with 0 by lia. reflexivity.
    + rewrite decode_file_run by lia. cbv zeta.
      replace (Z.of_nat (length data) / 42) with k
        by (rewrite Hlen; Z.div_mod_to_equations; lia).
      rewrite window_packets_blocks. reflexivity.
  - rewrite <- window_packets_blocks, record_blocks_fmap, <- list_fmap_compose.
    apply window_packets_complete. intros i. apply complete_windows. lia.
  - intros indices packets log _. apply decode_loop_exact.
Qed.

(** On one record: the batch, and the loop run over window 1, which lies
    past the end of the buffer, and then over window 0. *)
Lemma decode_file_batch_witness :
  decode_file false sample_record
  = (Returns [decoded_fields sample_record], [InfoDecoding 1; InfoDecoded 1])
  /\ fold_left (decode_block false sample_record) [1; 0] (Returns [], [])
     = (Returns [decoded_fields sample_record],
        [WarnFailedDecode 1 (ValueError (ExpectedBytes 42 0))]).
Proof.
  destruct (decode_file_batch false sample_record 1 eq_refl) as (_ & _ & Hrun & _ & Hloop).
  split.
  - rewrite Hrun. reflexivity.
  - rewrite (Hloop [1; 0] [] []) by (repeat constructor; lia). reflexivity.
Defined.

Lemma record_blocks_truncate data k :
  0 <= k -> 42 * k <= Z.of_nat (length data) ->
  record_blocks (take (Z.to_nat (42 * k)) data) k = record_blocks data k.
Proof.
  intros Hk Hfit. rewrite !record_blocks_fmap.
  apply list_fmap_ext. intros n i Hi. apply lookup_seqZ in Hi as [-> Hlt].
  rewrite !block_at_take_drop by lia.
  replace (Z.to_nat (42 * k))
    with (Z.to_nat ((0 + Z.of_nat n) * 42) + (Z.to_nat (42 * k) - Z.to_nat ((0 + Z.of_nat n) * 42)))%nat
    by lia.
  rewrite <- take_drop_commute, take_take. f_equal. lia.
Qed.

(** C10.  For a buffer of any length the batch decoder returns (it never
    raises) exactly [len / 42] packets, the decodings of the first
    [len / 42] windows in order.  A buffer of fewer than 42 bytes gives the
    empty list and the single too-small warning.  Otherwise the log is the
    opening line with the record count, one line per packet when packets are
    logged, and the closing line with the same count, and nothing else: no
    warning about a failed or invalid record, so the bytes after the last
    complete record are passed over in silence.  They change nothing: the
    windows lie inside the first [42 * (len / 42)] bytes, and the decoder
    gives the same result and the same log on those bytes alone. *)
Theorem decode_file_any_length (log_packets : bool) (data : list byte) :
  let len := Z.of_nat (length data) in
  let count := len / 42 in
  (len < 42 -> decode_file log_packets data = (Returns [], [WarnFileTooSmall len]))
  /\ (42 <= len ->
      decode_file log_packets data
      = (Returns ((fun i => decoded_fields (block_at data i)) <$> seqZ 0 count),
         [InfoDecoding count]
         ++ (if log_packets
             then (fun i => LogPacket (i + 1) (decoded_fields (block_at data i)))
                    <$> seqZ 0 count
             else [])
         ++ [InfoDecoded count]))
  /\ (exists packets log,
        decode_file log_packets data = (Returns packets, log)
        /\ Z.of_nat (length packets) = count
        /\ (forall i e, WarnFailedDecode i e ∉ log)
        /\ (forall i, WarnInvalidPacket i ∉ log))
  /\ (forall i, 0 <= i < count ->
        block_at (take (Z.to_nat (42 * count)) data) i = block_at data i)
  /\ (42 <= len ->
      decode_file log_packets (take (Z.to_nat (42 * count)) data)
      = decode_file log_packets data)
  /\ (decode_file log_packets (take (Z.to_nat (42 * count)) data)).1
     = (decode_file log_packets data).1.
Proof.
  intros len count.
  assert (Hcount : 0 <= count /\ 42 * count <= len /\ len < 42 * count + 42)
    by (unfold count; Z.div_mod_to_equations; lia).
  assert (Hsmall : forall buffer : list byte,
             Z.of_nat (length buffer) < 42 ->
             decode_file log_packets buffer
             = (Returns [], [WarnFileTooSmall (Z.of_nat (length buffer))])).
  { intros buffer Hlt. unfold decode_file, PACKET_SIZE.
    destruct (Z.ltb_spec (Z.of_nat (length buffer)) 42); [reflexivity|lia]. }
  assert (Hrun : forall buffer : list byte,
             42 <= Z.of_nat (length buffer) ->
             let n := Z.of_nat (length buffer) / 42 in
             decode_file log_packets buffer
             = (Returns ((fun i => decoded_fields (block_at buffer i)) <$> seqZ 0 n),
                [InfoDecoding n]
                ++ (if log_packets
                    then (fun i => LogPacket (i + 1) (decoded_fields (block_at buffer i)))
                           <$> seqZ 0 n
                    else [])
                ++ [InfoDecoded n])).
  { intros buffer Hge n.
    assert (Hn : 0 <= n /\ 42 * n <= Z.of_nat (length buffer))
      by (unfold n; Z.div_mod_to_equations; lia).
    rewrite decode_file_run by exact Hge. cbv zeta. fold n.
    rewrite window_packets_complete, window_logs_complete
      by (intros i; apply complete_windows; lia).
    rewrite length_fmap, length_seqZ, Z2Nat.id by lia. reflexivity. }
  assert (Hwin : forall i, 0 <= i < count ->
             block_at (take (Z.to_nat (42 * count)) data) i = block_at data i).
  { intros i Hi. pose proof (record_blocks_truncate data count) as Htr.
    rewrite !record_blocks_fmap in Htr.
    assert (Hlook : seqZ 0 count !! Z.to_nat i = Some i)
      by (apply lookup_seqZ; lia).
    apply (f_equal (fun l => l !! Z.to_nat i)) in Htr; [|lia|fold len; lia].
    rewrite !list_lookup_fmap, Hlook in Htr. cbn in Htr. congruence. }
  assert (Htrunc : 42 <= len ->
             decode_file log_packets (take (Z.to_nat (42 * count)) data)
             = decode_file log_packets data).
  { intros Hge.
    assert (Htl : Z.of_nat (length (take (Z.to_nat (42 * count)) data)) = 42 * count)
      by (rewrite length_take; fold len; lia).
    rewrite (Hrun data Hge), (Hrun (take (Z.to_nat (42 * count)) data)) by lia.
    cbv zeta. rewrite Htl. fold len. fold count.
    replace (42 * count / 42) with count by (Z.div_mod_to_equations; lia).
    assert (Hp : (fun i => decoded_fields (block_at (take (Z.to_nat (42 * count)) data) i))
                   <$> seqZ 0 count
                 = (fun i => decoded_fields (block_at data i)) <$> seqZ 0 count).
    { apply list_fmap_ext. intros n i Hi. apply lookup_seqZ in Hi as [-> Hlt].
      rewrite Hwin by lia. reflexivity. }
    assert (Hl : (fun i => LogPacket (i + 1)
                     (decoded_fields (block_at (take (Z.to_nat (42 * count)) data) i)))
                   <$> seqZ 0 count
                 = (fun i => LogPacket (i + 1) (decoded_fields (block_at data i)))
                     <$> seqZ 0 count).
    { apply list_fmap_ext. intros n i Hi. apply lookup_seqZ in Hi as [-> Hlt].
      rewrite Hwin by lia. reflexivity. }
    rewrite Hp, Hl. reflexivity. }
  split; [exact (Hsmall data)|]. split; [exact (Hrun data)|].
  split; [|split; [exact Hwin|split; [exact Htrunc|]]].
  - destruct (Z_lt_le_dec len 42) as [Hlt|Hge].
    + exists [], [WarnFileTooSmall len]. split; [exact (Hsmall data Hlt)|].
      split; [cbn; lia|]. split.
      * intros i e Hin. apply list_elem_of_singleton in Hin. discriminate.
      * intros i Hin. apply list_elem_of_singleton in Hin. discriminate.
    + eexists _, _. split; [exact (Hrun data Hge)|]. cbv zeta. fold len. fold count.
      split; [rewrite length_fmap, length_seqZ; lia|].
      split.
      * intros i e Hin. apply elem_of_cons in Hin as [Hin|Hin]; [discriminate|].
        apply elem_of_app in Hin as [Hin|Hin];
          [|apply list_elem_of_singleton in Hin; discriminate].
        destruct log_packets; [|apply elem_of_nil in Hin; contradiction].
        apply list_elem_of_fmap in Hin as (j & Hj & _). discriminate.
      * intros i Hin. apply elem_of_cons in Hin as [Hin|Hin]; [discriminate|].
        apply elem_of_app in Hin as [Hin|Hin];
          [|apply list_elem_of_singleton in Hin; discriminate].
        destruct log_packets; [|apply elem_of_nil in Hin; contradiction].
        apply list_elem_of_fmap in Hin as (j & Hj & _). discriminate.
  - destruct (Z_lt_le_dec len 42) as [Hlt|Hge]; [|rewrite (Htrunc Hge); reflexivity].
    rewrite (Hsmall data Hlt), Hsmall; [reflexivity|].
    rewrite length_take. lia.
Qed.

(** ** CSV export *)

Lemma row_value_flags packet :
  row_value packet "flags" = Some (PyStr (to_string (flags packet))).
Proof. reflexivity. Qed.

(** C4, as the code has it.  The flags value of a CSV row is the string of
    the eight flags in bit order: it has 8 characters and character k is
    '1' exactly when flag k (bit k of the flags byte) is set, so character 0
    is the err flag (bit 0) and character 7 the start flag (bit 7). *)
Theorem csv_flags_lsb_first (packet : TelemetryPacket) :
  exists s, row_value packet "flags" = Some (PyStr s)
    /\ String.length s = 8%nat
    /\ (forall k, (k < 8)%nat -> String.get k s = Some (flag_char (flag_of_bit (flags packet) k)))
    /\ String.get 0 s = Some (flag_char (err (flags packet)))
    /\ String.get 7 s = Some (flag_char (start (flags packet))).
Proof.
  exists (to_string (flags packet)). split; [apply row_value_flags|].
  split; [reflexivity|]. split; [|split; reflexivity].
  intros k Hk. do 8 (destruct k as [|k]; [reflexivity|]). lia.
Qed.

(** C4 as stated fails: for the record with only the start bit set, the
    flags string is "00000001"; its character 0 is not the start flag and
    its character 7 is not the err flag. *)
Lemma csv_flags_msb_first_fails :
  exists packet,
    _decode_packet start_record = (Returns packet, [])
    /\ start (flags packet) = true /\ err (flags packet) = false
    /\ row_value packet "flags" = Some (PyStr "00000001")
    /\ String.get 0 "00000001" <> Some (flag_char (start (flags packet)))
    /\ String.get 7 "00000001" <> Some (flag_char (err (flags packet))).
Proof.
  exists (decoded_fields start_record).
  split; [apply decode_packet_42; reflexivity|].
  repeat split; try reflexivity; vm_compute; discriminate.
Qed.

(** ** Generator and decoder together *)

(** C2 fails on the code.  The generator writes mag, accel and gyro right
    after pressPa and the two dummy bits last; the decoder reads lat_1e7,
    lon_1e7 and the dummy bits right after pressPa.  For field values inside
    the generator's own ranges, only time_ms, temp_cC and pressPa come back:
    magX was 100 and is decoded as -80, lat_1e7 was 450000000 and is decoded
    as -13107100, and the start flag that was written is not set. *)
Theorem roundtrip_layout_mismatch :
  exists record packet,
    generate_test_packet 1000 10 sample_draws = Returns record
    /\ length record = 42%nat
    /\ _decode_packet record = (Returns packet, [])
    /\ time_ms packet = 1000
    /\ temp_cC packet = draw_temp_cC sample_draws
    /\ pressPa packet = draw_pressPa sample_draws
    /\ draw_mag sample_draws = [100; -200; 300] /\ magX packet = -80
    /\ draw_lat_1e7 sample_draws = 450000000 /\ lat_1e7 packet = -13107100
    /\ generator_flags 10 sample_draws = 0x80 /\ start (flags packet) = false.
Proof.
  eexists _, _. split; [vm_compute; reflexivity|].
  split; [reflexivity|]. split; [vm_compute; reflexivity|].
  repeat split.
Qed.

(** ** The filter pipeline: time stage *)

Section TimeStage.
Context (fm : FilterManager).

Lemma time_filter_first packet idx : _passes_time_filter fm packet None idx = true.
Proof. unfold _passes_time_filter. destruct (time_settings_empty _); reflexivity. Qed.

Lemma time_filter_disabled packet prev idx :
  time_settings_empty (time_settings fm) = true ->
  _passes_time_filter fm packet prev idx = true.
Proof. intros H. unfold _passes_time_filter. rewrite H. reflexivity. Qed.

Lemma time_filter_enabled packet baseline idx :
  time_settings_empty (time_settings fm) = false ->
  _passes_time_filter fm packet (Some baseline) idx = false
  <-> spec_time_drop (max_jump_ms (time_settings fm))
                     (default false (allow_wrap (time_settings fm)))
                     baseline (time_ms packet).
Proof.
  intros Hne. unfold _passes_time_filter, spec_time_drop, spec_time_delta. rewrite Hne.
  cbv zeta. change (Z.shiftl 1 24) with (2 ^ 24).
  set (wrap := default false (allow_wrap (time_settings fm))).
  set (delta := if (time_ms packet - baseline <? 0) && wrap
                then time_ms packet - baseline + 2 ^ 24
                else time_ms packet - baseline).
  destruct (max_jump_ms (time_settings fm)) as [m|]; cbn [exceeds].
  - destruct (Z.ltb_spec m delta) as [Hgt|Hle].
    + split; [|reflexivity]. intros _. left. exists m. split; [reflexivity|lia].
    + destruct (Z.ltb_spec delta 0) as [Hneg|Hpos], wrap; cbn [andb negb];
        split; try discriminate; try reflexivity.
      * intros [(m' & [= <-] & ?)|[_ ?]]; [lia|discriminate].
      * intros _. right. split; [lia|reflexivity].
      * intros [(m' & [= <-] & ?)|[? _]]; lia.
      * intros [(m' & [= <-] & ?)|[? _]]; lia.
  - destruct (Z.ltb_spec delta 0) as [Hneg|Hpos], wrap; cbn [andb negb];
      split; try discriminate; try reflexivity.
    + intros [(m' & [=] & ?)|[_ ?]]; discriminate.
    + intros _. right. split; [lia|reflexivity].
    + intros [(m' & [=] & ?)|[? _]]; lia.
    + intros [(m' & [=] & ?)|[? _]]; lia.
Qed.

(** A turn of the loop either leaves the state alone (the packet was
    dropped by some stage) or appends the packet and makes its time the
    baseline. *)
Lemma filter_step_cases st idx packet :
  let accepted := {| filtered_packets := filtered_packets st ++ [packet];
                     prev_time := Some (time_ms packet) |} in
  (filter_step fm st (idx, packet) = st
   /\ (_passes_time_filter fm packet (prev_time st) idx = false
       \/ _passes_channel_filter fm packet = false
       \/ idx ∈ manual_drops fm))
  \/ (filter_step fm st (idx, packet) = accepted
      /\ _passes_time_filter fm packet (prev_time st) idx = true
      /\ _passes_channel_filter fm packet = true
      /\ idx ∉ manual_drops fm).
Proof.
  intros accepted. unfold filter_step.
  destruct (_passes_time_filter fm packet (prev_time st) idx); cbn [negb];
    [|left; split; [reflexivity|left; reflexivity]].
  destruct (_passes_channel_filter fm packet); cbn [negb];
    [|left; split; [reflexivity|right; left; reflexivity]].
  destruct (bool_decide_reflect (idx ∈ manual_drops fm)) as [Hin|Hout].
  - left. split; [reflexivity|right; right; exact Hin].
  - right. repeat split; assumption.
Qed.

Lemma filter_step_baseline st entry :
  baseline_inv st -> baseline_inv (filter_step fm st entry).
Proof.
  intros Hinv. destruct entry as [idx packet].
  destruct (filter_step_cases st idx packet) as [[-> _]|[-> _]]; [exact Hinv|].
  unfold baseline_inv. cbn [filtered_packets prev_time]. rewrite last_snoc. reflexivity.
Qed.

Lemma fold_baseline entries : forall st,
  baseline_inv st -> baseline_inv (fold_left (filter_step fm) entries st).
Proof.
  induction entries as [|e rest IH]; intros st Hinv; [exact Hinv|].
  cbn [fold_left]. apply IH, filter_step_baseline, Hinv.
Qed.

(** C3, as the code has it.  The first packet passes the time stage, and
    with no time setting configured every packet does.  With a time setting
    configured and a baseline, a packet is dropped by the time stage exactly
    when its delta against the baseline, after adding 2^24 to a negative
    delta if wrap is allowed, exceeds max_jump_ms (unbounded when absent) or
    is negative with wrap not allowed.  A dropped packet, whatever the
    stage, leaves the loop state and so the baseline untouched; an accepted
    one becomes the baseline; hence after any prefix of the input the
    baseline is the time of the last accepted packet. *)
Theorem time_stage_behaviour (packet : TelemetryPacket) (idx : Z) :
  _passes_time_filter fm packet None idx = true
  /\ (time_settings_empty (time_settings fm) = true ->
        forall prev, _passes_time_filter fm packet prev idx = true)
  /\ (time_settings_empty (time_settings fm) = false ->
        forall baseline,
          _passes_time_filter fm packet (Some baseline) idx = false
          <-> spec_time_drop (max_jump_ms (time_settings fm))
                             (default false (allow_wrap (time_settings fm)))
                             baseline (time_ms packet))
  /\ (forall st,
        (filter_step fm st (idx, packet) = st
         /\ (_passes_time_filter fm packet (prev_time st) idx = false
             \/ _passes_channel_filter fm packet = false
             \/ idx ∈ manual_drops fm))
        \/ (filter_step fm st (idx, packet)
            = {| filtered_packets := filtered_packets st ++ [packet];
                 prev_time := Some (time_ms packet) |}
            /\ _passes_time_filter fm packet (prev_time st) idx = true
            /\ _passes_channel_filter fm packet = true
            /\ idx ∉ manual_drops fm))
  /\ (forall entries,
        prev_time (filter_loop fm entries)
        = time_ms <$> last (filtered_packets (filter_loop fm entries))).
Proof.
  split; [apply time_filter_first|].
  split; [intros H prev; apply time_filter_disabled, H|].
  split; [intros H baseline; apply time_filter_enabled, H|].
  split; [intros st; apply filter_step_cases|].
  intros entries. apply (fold_baseline entries). reflexivity.
Qed.

End TimeStage.

(** C3 as stated fails for the configuration with no time setting: after an
    accepted packet at 1000 ms, the packet at 500 ms has a negative delta
    and wrap is not allowed, so the claim drops it; the code keeps it. *)
Lemma time_stage_unconfigured_keeps_negative_delta :
  spec_time_drop (max_jump_ms (time_settings FilterManager_init))
                 (default false (allow_wrap (time_settings FilterManager_init)))
                 1000 (time_ms (packet_at 500))
  /\ _passes_time_filter FilterManager_init (packet_at 500) (Some 1000) 1 = true
  /\ (apply_filters FilterManager_init [packet_at 1000; packet_at 500] no_config).1
     = [packet_at 1000; packet_at 500].
Proof.
  split; [right; split; [vm_compute; reflexivity|reflexivity]|].
  split; [reflexivity|]. vm_compute. reflexivity.
Qed.

(** ** The manual drop list *)

Lemma append_nil (s : string) : String.append EmptyString s = s.
Proof. reflexivity. Qed.

Lemma append_cons c (a s : string) :
  String.append (String c a) s = String c (String.append a s).
Proof. reflexivity. Qed.

Lemma split_no_sep sep s : contains sep s = false -> split sep s = [s].
Proof.
  induction s as [|c s IH]; intros H; [reflexivity|].
  cbn [split contains] in *. destruct (Ascii.eqb c sep); [discriminate|].
  rewrite IH by exact H. reflexivity.
Qed.

Lemma split_app sep x rest :
  contains sep x = false ->
  split sep (x ++ String sep rest) = x :: split sep rest.
Proof.
  induction x as [|c x IH]; intros H.
  - rewrite append_nil. cbn [split]. rewrite Ascii.eqb_refl. reflexivity.
  - rewrite append_cons. cbn [split contains] in *.
    destruct (Ascii.eqb c sep); [discriminate|].
    rewrite IH by exact H. reflexivity.
Qed.

Lemma split_concat (texts : list string) :
  texts <> [] -> Forall (fun s => contains "," s = false) texts ->
  split "," (String.concat "," texts) = texts.
Proof.
  induction texts as [|x rest IH]; intros Hne Hall; [contradiction|].
  apply Forall_cons in Hall as [Hx Hrest].
  destruct rest as [|y rest'].
  - cbn [String.concat]. apply split_no_sep, Hx.
  - change (String.concat "," (x :: y :: rest'))
      with (x ++ String "," (String.concat "," (y :: rest')))%string.
    rewrite split_app by exact Hx. rewrite IH; [reflexivity|discriminate|exact Hrest].
Qed.

Lemma lstrip_length s : (String.length (lstrip s) <= String.length s)%nat.
Proof.
  induction s as [|c s IH]; [reflexivity|].
  cbn [lstrip String.length]. destruct (is_space c); cbn [String.length]; lia.
Qed.

Lemma lstrip_app a r : a <> EmptyString -> lstrip a = a -> lstrip (a ++ r) = (a ++ r)%string.
Proof.
  destruct a as [|c a]; [contradiction|]. intros _ H.
  rewrite append_cons. cbn [lstrip] in *.
  destruct (is_space c); [|reflexivity].
  pose proof (lstrip_length a) as Hlen. rewrite H in Hlen. cbn [String.length] in Hlen. lia.
Qed.

Lemma rstrip_app l b : b <> EmptyString -> rstrip b = b -> rstrip (l ++ b) = (l ++ b)%string.
Proof.
  intros Hne Hb. induction l as [|c l IH]; [exact Hb|].
  rewrite append_cons. cbn [rstrip]. rewrite IH. destruct (l ++ b)%string eqn:E; [|reflexivity].
  destruct l; [rewrite append_nil in E; contradiction|rewrite append_cons in E; discriminate].
Qed.

Lemma contains_app sep a b : contains sep (a ++ String sep b) = true.
Proof.
  induction a as [|c a IH].
  - rewrite append_nil. cbn [contains]. rewrite Ascii.eqb_refl. reflexivity.
  - rewrite append_cons. cbn [contains]. rewrite IH. apply orb_true_r.
Qed.

Lemma split_once_app sep a b :
  contains sep a = false -> split_once sep (a ++ String sep b) = (a, b).
Proof.
  induction a as [|c a IH]; intros H.
  - rewrite append_nil. cbn [split_once]. rewrite Ascii.eqb_refl. reflexivity.
  - rewrite append_cons. cbn [split_once contains] in *.
    destruct (Ascii.eqb c sep); [discriminate|]. rewrite IH by exact H. reflexivity.
Qed.

Lemma py_int_cases s :
  py_int s
  = match strip s with
    | EmptyString => None
    | String c rest =>
      if Ascii.eqb c "-" then Z.opp <$> parse_numeral rest
      else if Ascii.eqb c "+" then parse_numeral rest
      else parse_numeral (String c rest)
    end.
Proof.
  unfold py_int. destruct (strip s) as [|c rest]; [reflexivity|].
  destruct c as [[] [] [] [] [] [] [] []]; reflexivity.
Qed.

(** *** Decimal numerals *)

Lemma digit_not_space c : is_digit c = true -> is_space c = false.
Proof.
  unfold is_digit, is_space. cbv zeta. intros H.
  apply andb_true_iff in H as [H1 H2]. apply Nat.leb_le in H1, H2.
  destruct (Nat.leb_spec 9 (nat_of_ascii c)), (Nat.leb_spec (nat_of_ascii c) 13),
    (Nat.leb_spec 28 (nat_of_ascii c)), (Nat.leb_spec (nat_of_ascii c) 32),
    (Nat.eqb_spec (nat_of_ascii c) 133), (Nat.eqb_spec (nat_of_ascii c) 160);
    cbn [andb orb]; first [reflexivity | lia].
Qed.

Lemma digit_of_digit c : is_digit c = true -> digit_of c = Some (digit_value c).
Proof. unfold is_digit, digit_of, digit_value. cbv zeta. intros ->. reflexivity. Qed.

Lemma digit_not_sign c sep : is_digit c = true -> is_digit sep = false -> Ascii.eqb c sep = false.
Proof.
  intros Hc Hsep. destruct (Ascii.eqb_spec c sep) as [->|]; [congruence|reflexivity].
Qed.

Lemma all_digits_contains sep s :
  is_digit sep = false -> all_digits s = true -> contains sep s = false.
Proof.
  intros Hsep. induction s as [|c s IH]; cbn [all_digits contains]; [reflexivity|].
  intros H. apply andb_true_iff in H as [Hc Hs].
  rewrite (digit_not_sign c sep Hc Hsep), (IH Hs). reflexivity.
Qed.

Lemma all_digits_trimmed s : all_digits s = true -> trimmed s.
Proof.
  intros H. split.
  - destruct s as [|c s]; [reflexivity|]. cbn [all_digits lstrip] in *.
    apply andb_true_iff in H as [Hc _]. rewrite (digit_not_space c Hc). reflexivity.
  - induction s as [|c s IH]; [reflexivity|]. cbn [all_digits rstrip] in *.
    apply andb_true_iff in H as [Hc Hs]. rewrite (IH Hs), (digit_not_space c Hc).
    destruct s; reflexivity.
Qed.

Lemma all_digits_strip s : all_digits s = true -> strip s = s.
Proof. intros H. destruct (all_digits_trimmed s H) as [Hl Hr]. unfold strip. rewrite Hl. exact Hr. Qed.

Lemma count_digits_all s : all_digits s = true -> count_digits s = Z.of_nat (String.length s).
Proof.
  induction s as [|c s IH]; [reflexivity|]. cbn [all_digits count_digits String.length].
  intros H. apply andb_true_iff in H as [Hc Hs].
  rewrite (digit_of_digit c Hc), (IH Hs). lia.
Qed.

(** The parser's left-to-right reading of a digit string is its place
    value. *)
Lemma parse_digits_numeral s : forall acc after_digit,
  all_digits s = true -> s <> EmptyString \/ after_digit = true ->
  parse_digits acc after_digit s
  = Some (acc * 10 ^ Z.of_nat (String.length s) + numeral_value s).
Proof.
  induction s as [|c s IH]; intros acc after_digit Hall Hne.
  - destruct Hne as [Hne| ->]; [contradiction|].
    cbn [parse_digits String.length numeral_value]. f_equal. cbn. lia.
  - cbn [all_digits] in Hall. apply andb_true_iff in Hall as [Hc Hs].
    cbn [parse_digits String.length numeral_value].
    rewrite (digit_of_digit c Hc), (IH _ true Hs) by (right; reflexivity).
    f_equal. rewrite Nat2Z.inj_succ, Z.pow_succ_r by lia. ring.
Qed.

Lemma py_int_digits s :
  s <> EmptyString -> all_digits s = true ->
  py_int s = parse_numeral s.
Proof.
  intros Hne Hall. rewrite py_int_cases, (all_digits_strip s Hall).
  destruct s as [|c rest]; [contradiction|].
  cbn [all_digits] in Hall. apply andb_true_iff in Hall as [Hc _].
  rewrite (digit_not_sign c "-" Hc), (digit_not_sign c "+" Hc) by reflexivity.
  reflexivity.
Qed.

(** [int] reads a numeral as its place value. *)
Lemma py_int_numeral s : numeral s -> py_int s = Some (numeral_value s).
Proof.
  intros (Hne & Hall & Hlen). rewrite (py_int_digits s Hne Hall). unfold parse_numeral.
  rewrite (count_digits_all s Hall).
  destruct (Z.ltb_spec MAX_STR_DIGITS (Z.of_nat (String.length s))); [lia|].
  rewrite parse_digits_numeral by (assumption || (left; exact Hne)). reflexivity.
Qed.

(** [int] refuses a digit string of more than 4300 digits. *)
Lemma py_int_overlong s : overlong_numeral s -> py_int s = None.
Proof.
  intros [Hall Hlen].
  assert (Hne : s <> EmptyString).
  { intros ->. cbn in Hlen. unfold MAX_STR_DIGITS in Hlen. lia. }
  rewrite (py_int_digits s Hne Hall). unfold parse_numeral.
  rewrite (count_digits_all s Hall).
  destruct (Z.ltb_spec MAX_STR_DIGITS (Z.of_nat (String.length s))); [reflexivity|lia].
Qed.

Lemma elem_of_py_range2 a b z : z ∈ py_range2 a (b + 1) <-> a <= z <= b.
Proof. unfold py_range2. rewrite elem_of_seqZ. lia. Qed.

Lemma strip_range lo hi :
  lo <> EmptyString -> hi <> EmptyString -> trimmed lo -> trimmed hi ->
  strip (lo ++ String "-" hi) = (lo ++ String "-" hi)%string.
Proof.
  intros Hne1 Hne2 [Hl1 Hr1] [Hl2 Hr2]. unfold strip.
  rewrite lstrip_app by assumption.
  apply rstrip_app; [discriminate|]. cbn [rstrip]. rewrite Hr2.
  destruct hi; [contradiction|reflexivity].
Qed.

(** What a literal adds to the set, for any text without a minus sign. *)
Lemma parse_item_literal drops text :
  text <> EmptyString -> strip text = text -> contains "-" text = false ->
  parse_item drops text
  = match py_int text with Some n => drops ∪ {[ n ]} | None => drops end.
Proof.
  intros Hne Hstrip Hdash. unfold parse_item. rewrite Hstrip.
  destruct text as [|c text]; [contradiction|]. rewrite Hdash. reflexivity.
Qed.

(** What a range adds to the set. *)
Lemma parse_item_range drops lo hi :
  lo <> EmptyString -> hi <> EmptyString -> trimmed lo -> trimmed hi ->
  contains "-" lo = false ->
  parse_item drops (lo ++ "-" ++ hi)
  = match py_int lo, py_int hi with
    | Some a, Some b => drops ∪ list_to_set (py_range2 a (b + 1))
    | _, _ => drops
    end.
Proof.
  intros Hne1 Hne2 Ht1 Ht2 Hdash.
  change (lo ++ "-" ++ hi)%string with (lo ++ String "-" hi)%string.
  unfold parse_item. rewrite (strip_range lo hi Hne1 Hne2 Ht1 Ht2).
  rewrite contains_app, split_once_app by exact Hdash.
  destruct Ht1 as [Hl1 Hr1], Ht2 as [Hl2 Hr2].
  assert (Hs1 : strip lo = lo) by (unfold strip; rewrite Hl1; exact Hr1).
  assert (Hs2 : strip hi = hi) by (unfold strip; rewrite Hl2; exact Hr2).
  rewrite Hs1, Hs2.
  destruct (lo ++ String "-" hi)%string eqn:E;
    [destruct lo; [rewrite append_nil in E|rewrite append_cons in E]; discriminate|].
  destruct (py_int lo); [|reflexivity]. destruct (py_int hi); reflexivity.
Qed.

(** What one well-formed token adds to the set. *)
Lemma parse_item_token drops t z :
  token_wf t ->
  z ∈ parse_item drops (token_text t) <-> z ∈ drops \/ token_covers t z.
Proof.
  destruct t as [index|lo hi]; cbn [token_wf token_text token_covers].
  - intros Hnum. pose proof Hnum as (Hne & Hall & _).
    rewrite parse_item_literal, (py_int_numeral index Hnum);
      [|exact Hne|apply all_digits_strip, Hall|apply all_digits_contains; [reflexivity|exact Hall]].
    rewrite elem_of_union, elem_of_singleton. reflexivity.
  - intros [Hlo Hhi]. pose proof Hlo as (Hne1 & Hall1 & _). pose proof Hhi as (Hne2 & Hall2 & _).
    rewrite parse_item_range, (py_int_numeral lo Hlo), (py_int_numeral hi Hhi);
      [|exact Hne1|exact Hne2|apply all_digits_trimmed, Hall1|apply all_digits_trimmed, Hall2
       |apply all_digits_contains; [reflexivity|exact Hall1]].
    rewrite elem_of_union, elem_of_list_to_set, elem_of_py_range2. reflexivity.
Qed.

Lemma digit_string_cases s : digit_string s -> numeral s \/ overlong_numeral s.
Proof.
  intros [Hne Hall].
  destruct (Z_le_gt_dec (Z.of_nat (String.length s)) MAX_STR_DIGITS) as [Hle|Hgt].
  - left. split; [exact Hne|]. split; [exact Hall|exact Hle].
  - right. split; [exact Hall|lia].
Qed.

Lemma overlong_not_numeral s : overlong_numeral s -> ~ numeral s.
Proof. intros [_ Hgt] (_ & _ & Hle). lia. Qed.

(** A token with an over-long numeral adds nothing. *)
Lemma parse_item_overlong drops t :
  token_form t -> ~ token_wf t -> parse_item drops (token_text t) = drops.
Proof.
  destruct t as [index|lo hi]; cbn [token_form token_wf token_text].
  - intros Hform Hnot. pose proof Hform as [Hne Hall].
    destruct (digit_string_cases index Hform) as [Hnum|Ho]; [contradiction|].
    rewrite parse_item_literal, (py_int_overlong index Ho);
      [reflexivity|exact Hne|apply all_digits_strip, Hall
      |apply all_digits_contains; [reflexivity|exact Hall]].
  - intros [Hlo Hhi] Hnot. pose proof Hlo as [Hne1 Hall1]. pose proof Hhi as [Hne2 Hall2].
    rewrite parse_item_range;
      [|exact Hne1|exact Hne2|apply all_digits_trimmed, Hall1|apply all_digits_trimmed, Hall2
       |apply all_digits_contains; [reflexivity|exact Hall1]].
    destruct (digit_string_cases lo Hlo) as [Hnum1|Ho1].
    + destruct (digit_string_cases hi Hhi) as [Hnum2|Ho2]; [tauto|].
      rewrite (py_int_overlong hi Ho2). destruct (py_int lo); reflexivity.
    + rewrite (py_int_overlong lo Ho1). reflexivity.
Qed.

Lemma token_wf_dec t : token_form t -> token_wf t \/ ~ token_wf t.
Proof.
  destruct t as [index|lo hi]; cbn [token_form token_wf].
  - intros Hform. destruct (digit_string_cases index Hform) as [H|H];
      [left; exact H|right; apply overlong_not_numeral, H].
  - intros [Hlo Hhi].
    destruct (digit_string_cases lo Hlo) as [H1|H1];
      [|right; intros [H _]; exact (overlong_not_numeral lo H1 H)].
    destruct (digit_string_cases hi Hhi) as [H2|H2];
      [left; split; assumption|right; intros [_ H]; exact (overlong_not_numeral hi H2 H)].
Qed.

(** What one token written with digits adds to the set. *)
Lemma parse_item_form drops t z :
  token_form t ->
  z ∈ parse_item drops (token_text t) <-> z ∈ drops \/ (token_wf t /\ token_covers t z).
Proof.
  intros Hform. destruct (token_wf_dec t Hform) as [Hwf|Hnot].
  - rewrite (parse_item_token drops t z Hwf). tauto.
  - rewrite (parse_item_overlong drops t Hform Hnot). tauto.
Qed.

Lemma parse_items_tokens (tokens : list drop_token) : forall drops z,
  Forall token_form tokens ->
  z ∈ fold_left parse_item (token_text <$> tokens) drops
  <-> z ∈ drops \/ exists t, t ∈ tokens /\ token_wf t /\ token_covers t z.
Proof.
  induction tokens as [|t rest IH]; intros drops z Hform.
  - cbn. split; [left; assumption|]. intros [?|(t & Ht & _)]; [assumption|].
    apply elem_of_nil in Ht. contradiction.
  - apply Forall_cons in Hform as [Ht Hrest]. cbn [fmap list_fmap fold_left].
    change (list_fmap _ _ token_text rest) with (token_text <$> rest).
    rewrite IH by exact Hrest. rewrite parse_item_form by exact Ht.
    split.
    + intros [[?|[Hwf Hc]]|(t' & Hin & Hc)].
      * left; assumption.
      * right. exists t. split; [apply list_elem_of_here|split; assumption].
      * right. exists t'. split; [apply list_elem_of_further, Hin|assumption].
    + intros [?|(t' & Hin & Hc)]; [left; left; assumption|].
      apply elem_of_cons in Hin as [->|Hin]; [left; right; assumption|].
      right. exists t'. split; assumption.
Qed.

Lemma contains_append sep a b :
  contains sep (a ++ b) = contains sep a || contains sep b.
Proof.
  induction a as [|c a IH].
  - rewrite append_nil. reflexivity.
  - rewrite append_cons. cbn [contains]. rewrite IH. apply orb_assoc.
Qed.

Lemma token_text_no_comma t : token_form t -> contains "," (token_text t) = false.
Proof.
  destruct t as [index|lo hi]; cbn [token_form token_text].
  - intros [_ Hall]. apply all_digits_contains; [reflexivity|exact Hall].
  - intros [[_ Hall1] [_ Hall2]].
    rewrite !contains_append, (all_digits_contains "," lo), (all_digits_contains "," hi)
      by (reflexivity || assumption).
    reflexivity.
Qed.

(** The set the drop list stands for. *)
Lemma parse_packet_list_tokens (tokens : list drop_token) z :
  Forall token_form tokens ->
  z ∈ _parse_packet_list (String.concat "," (token_text <$> tokens))
  <-> exists t, t ∈ tokens /\ token_wf t /\ token_covers t z.
Proof.
  intros Hform. unfold _parse_packet_list.
  destruct tokens as [|t rest].
  - cbn. split; [intros H; apply not_elem_of_empty in H; contradiction|].
    intros (t & Ht & _). apply elem_of_nil in Ht. contradiction.
  - rewrite split_concat.
    + rewrite parse_items_tokens by exact Hform.
      split; [intros [H|H]; [apply not_elem_of_empty in H; contradiction|exact H]|].
      intros H. right. exact H.
    + discriminate.
    + apply Forall_fmap. eapply Forall_impl; [exact Hform|].
      intros t' Ht'. apply token_text_no_comma, Ht'.
Qed.

(** ** The filter pipeline: manual stage and output order *)

Lemma enumerate_lookup {A} (l : list A) (i : nat) idx x :
  enumerate l !! i = Some (idx, x) <-> idx = Z.of_nat i /\ l !! i = Some x.
Proof.
  unfold enumerate. rewrite lookup_zip_with_Some. split.
  - intros (a & b & [= -> ->] & Ha & Hb). split; [|exact Hb].
    apply lookup_seqZ in Ha as [-> _]. lia.
  - intros [-> Hx]. exists (Z.of_nat i), x. split; [reflexivity|]. split; [|exact Hx].
    apply lookup_seqZ. split; [lia|]. apply lookup_lt_Some in Hx. lia.
Qed.

Lemma enumerate_snd {A} (l : list A) : (enumerate l).*2 = l.
Proof. unfold enumerate. apply snd_zip. rewrite length_seqZ. lia. Qed.

Section ManualStage.
Context (fm : FilterManager).

(** What the loop appends: a sub-sequence of the packets it is given, none
    of them at an excluded index. *)
Lemma filter_loop_kept entries : forall st,
  exists kept,
    filtered_packets (fold_left (filter_step fm) entries st) = filtered_packets st ++ kept
    /\ sublist kept (entries.*2)
    /\ forall q, q ∈ kept -> exists idx, (idx, q) ∈ entries /\ idx ∉ manual_drops fm.
Proof.
  induction entries as [|[idx packet] rest IH]; intros st.
  - exists []. cbn. rewrite app_nil_r. split; [reflexivity|]. split; [constructor|].
    intros q Hq. apply elem_of_nil in Hq. contradiction.
  - cbn [fold_left]. destruct (IH (filter_step fm st (idx, packet))) as (kept & Heq & Hsub & Hidx).
    destruct (filter_step_cases fm st idx packet) as [[Hst _]|[Hst (_ & _ & Hout)]].
    + exists kept. rewrite Heq, Hst. split; [reflexivity|]. split.
      * cbn. apply sublist_cons, Hsub.
      * intros q Hq. destruct (Hidx q Hq) as (i & Hi & Hni).
        exists i. split; [apply list_elem_of_further, Hi|exact Hni].
    + exists (packet :: kept). rewrite Heq, Hst. cbn [filtered_packets].
      split; [rewrite <- app_assoc; reflexivity|]. split.
      * cbn. apply sublist_skip, Hsub.
      * intros q Hq. apply elem_of_cons in Hq as [->|Hq].
        -- exists idx. split; [apply list_elem_of_here|exact Hout].
        -- destruct (Hidx q Hq) as (i & Hi & Hni).
           exists i. split; [apply list_elem_of_further, Hi|exact Hni].
Qed.

Lemma channel_filter_unconfigured packet :
  channel_limits fm = ∅ -> _passes_channel_filter fm packet = true.
Proof. intros H. unfold _passes_channel_filter. rewrite H, map_to_list_empty. reflexivity. Qed.

(** With the time and channel stages switched off, the loop keeps exactly
    the entries whose index is not excluded. *)
Lemma filter_loop_manual_only entries : forall st,
  time_settings_empty (time_settings fm) = true -> channel_limits fm = ∅ ->
  filtered_packets (fold_left (filter_step fm) entries st)
  = filtered_packets st ++ (filter (fun e => e.1 ∉ manual_drops fm) entries).*2.
Proof.
  intros st Htime Hchan. revert st.
  induction entries as [|[idx packet] rest IH]; intros st.
  - cbn. rewrite app_nil_r. reflexivity.
  - cbn [fold_left]. rewrite IH.
    destruct (filter_step_cases fm st idx packet)
      as [[Hst [Ht|[Hc|Hin]]]|[Hst (_ & _ & Hout)]].
    + rewrite time_filter_disabled in Ht by exact Htime. discriminate.
    + rewrite channel_filter_unconfigured in Hc by exact Hchan. discriminate.
    + rewrite Hst, filter_cons_False; [reflexivity|]. cbn. intros Hn. exact (Hn Hin).
    + rewrite Hst, filter_cons_True by exact Hout. cbn [filtered_packets].
      rewrite <- app_assoc. reflexivity.
Qed.

End ManualStage.

Lemma apply_filters_loop fm packets config_manager :
  (apply_filters fm packets config_manager).1
  = filtered_packets
      (filter_loop (_merge_config_settings fm config_manager) (enumerate packets)).
Proof. destruct packets; reflexivity. Qed.

(** C9.  The filter loop runs over [enumerate packets], so the index a
    packet is tested with is its position in the input.  A packet that
    passed the time and channel stages is dropped when that index is in
    [manual_drops] and appended when it is not.  The output is a
    sub-sequence of the input (relative order kept), and every packet in it
    sits at an input position outside [manual_drops]; with the other two
    stages off, the output is exactly the packets at the positions outside
    [manual_drops].  For a drop list of tokens written with decimal digits
    the set holds an index exactly when some literal token is the numeral
    of that index or some range token "a-b" has a <= index <= b, the number
    a numeral stands for being the place value of its digits; this for the
    tokens whose numerals have at most 4300 digits, since [int] refuses a
    longer one and the token is then skipped like any malformed token. *)
Theorem manual_stage_behaviour (fm : FilterManager) (config_manager : ConfigManager)
    (packets : list TelemetryPacket) :
  let fm' := _merge_config_settings fm config_manager in
  let output := (apply_filters fm packets config_manager).1 in
  manual_drops fm' = manual_drops fm
  /\ output = filtered_packets (filter_loop fm' (enumerate packets))
  /\ (forall (i : nat) idx packet,
        enumerate packets !! i = Some (idx, packet)
        <-> idx = Z.of_nat i /\ packets !! i = Some packet)
  /\ (forall st idx packet,
        _passes_time_filter fm' packet (prev_time st) idx = true ->
        _passes_channel_filter fm' packet = true ->
        (idx ∈ manual_drops fm -> filter_step fm' st (idx, packet) = st)
        /\ (idx ∉ manual_drops fm ->
            filter_step fm' st (idx, packet)
            = {| filtered_packets := filtered_packets st ++ [packet];
                 prev_time := Some (time_ms packet) |}))
  /\ sublist output packets
  /\ (forall q, q ∈ output ->
        exists i : nat, packets !! i = Some q /\ Z.of_nat i ∉ manual_drops fm)
  /\ (time_settings_empty (time_settings fm') = true -> channel_limits fm' = ∅ ->
        output = (filter (fun e => e.1 ∉ manual_drops fm) (enumerate packets)).*2)
  /\ (forall (tokens : list drop_token) z,
        Forall token_form tokens ->
        z ∈ _parse_packet_list (String.concat "," (token_text <$> tokens))
        <-> exists t, t ∈ tokens /\ token_wf t /\ token_covers t z).
Proof.
  intros fm' output.
  assert (Hout : output = filtered_packets (filter_loop fm' (enumerate packets)))
    by apply apply_filters_loop.
  destruct (filter_loop_kept fm' (enumerate packets)
              {| filtered_packets := []; prev_time := None |})
    as (kept & Hkept & Hsub & Hidx).
  fold (filter_loop fm' (enumerate packets)) in Hkept. cbn in Hkept.
  rewrite enumerate_snd in Hsub.
  split; [reflexivity|]. split; [exact Hout|].
  split; [intros i idx packet; apply enumerate_lookup|].
  split.
  { intros st idx packet Ht Hc.
    destruct (filter_step_cases fm' st idx packet)
      as [[Hst [Ht'|[Hc'|Hin]]]|[Hst (_ & _ & Hni)]]; try congruence.
    - split; [intros _; exact Hst|]. intros Hn. contradiction.
    - split; [|intros _; exact Hst]. intros Hin. contradiction. }
  split; [rewrite Hout, Hkept; exact Hsub|].
  split.
  { intros q Hq. rewrite Hout, Hkept in Hq. destruct (Hidx q Hq) as (idx & Hin & Hni).
    apply list_elem_of_lookup in Hin as [i Hi]. apply enumerate_lookup in Hi as [-> Hi].
    exists i. split; assumption. }
  split.
  { intros Htime Hchan. rewrite Hout. unfold filter_loop.
    rewrite filter_loop_manual_only by assumption. reflexivity. }
  intros tokens z. apply parse_packet_list_tokens.
Qed.

(** The example of the specification: "2,5-7" on ten packets removes the
    positions 2, 5, 6 and 7 and keeps the rest in order. *)
Example manual_drop_example :
  let packets := packet_at <$> [0; 10; 20; 30; 40; 50; 60; 70; 80; 90] in
  (apply_filters (load_manual_drops FilterManager_init "2,5-7") packets no_config).1
  = packet_at <$> [0; 10; 30; 40; 80; 90].
Proof. vm_compute. reflexivity. Qed.

(** The example of the docstring of [_parse_packet_list]: '17,42,153-160'
    stands for 17, 42 and 153 to 160. *)
Example drop_list_example (z : Z) :
  z ∈ _parse_packet_list "17,42,153-160" <-> z = 17 \/ z = 42 \/ 153 <= z <= 160.
Proof.
  change "17,42,153-160"%string
    with (String.concat "," (token_text <$> [Literal "17"; Literal "42"; Range "153" "160"])).
  assert (Hnum : forall s, (s = "17" \/ s = "42" \/ s = "153" \/ s = "160")%string -> numeral s).
  { intros s [ -> | [ -> | [ -> | -> ]]]; (split; [discriminate|split; [reflexivity|]]);
      unfold MAX_STR_DIGITS; cbn; lia. }
  rewrite parse_packet_list_tokens.
  - split.
    + intros (t & Hin & _ & Hc).
      apply elem_of_cons in Hin as [->|Hin]; [left; exact Hc|].
      apply elem_of_cons in Hin as [->|Hin]; [right; left; exact Hc|].
      apply list_elem_of_singleton in Hin as ->. right. right. exact Hc.
    + intros [ -> | [ -> | H]].
      * exists (Literal "17"). split; [apply list_elem_of_here|].
        split; [apply Hnum; tauto|reflexivity].
      * exists (Literal "42"). split; [apply list_elem_of_further, list_elem_of_here|].
        split; [apply Hnum; tauto|reflexivity].
      * exists (Range "153" "160").
        split; [do 2 apply list_elem_of_further; apply list_elem_of_here|].
        split; [split; apply Hnum; tauto|exact H].
  - repeat constructor; discriminate.
Qed.

(** The examples of the specification for the time stage. *)
Example time_jump_example :
  let fm := {| time_settings := mkTimeSettings (Some 2000) (Some false);
               channel_limits := ∅; manual_drops := ∅ |} in
  (apply_filters fm (packet_at <$> [1000; 1500; 50000]) no_config).1
  = packet_at <$> [1000; 1500].
Proof. vm_compute. reflexivity. Qed.

Example time_wrap_example :
  let fm := {| time_settings := mkTimeSettings (Some 2000) (Some true);
               channel_limits := ∅; manual_drops := ∅ |} in
  spec_time_delta true 16777200 100 = 116
  /\ (apply_filters fm (packet_at <$> [16777200; 100]) no_config).1
     = packet_at <$> [16777200; 100].
Proof. split; vm_compute; reflexivity. Qed.

(** * Further properties of the code *)

(** ** BitReader: what a read returns and what it leaves alone *)

Lemma byte_val_range b : 0 <= byte_val b < 256.
Proof.
  unfold byte_val. pose proof (Byte.to_N_bounded b) as H. lia.
Qed.

Lemma bits_value_byte data (i : nat) b :
  data !! i = Some b -> bits_value data (8 * Z.of_nat i) 8 = byte_val b.
Proof.
  intros Hb. pose proof (byte_val_range b) as Hr.
  apply Z.bits_inj'; intros j Hj.
  rewrite bits_value_testbit by lia.
  destruct (Z.ltb_spec j (Z.of_nat 8)) as [Hlt|Hge]; cbn [andb].
  - unfold buf_bit.
    replace ((8 * Z.of_nat i + j) / 8) with (Z.of_nat i) by (Z.div_mod_to_equations; lia).
    replace ((8 * Z.of_nat i + j) mod 8) with j by (Z.div_mod_to_equations; lia).
    rewrite Nat2Z.id, Hb. reflexivity.
  - symmetry. rewrite <- (Z.mod_small (byte_val b) (2 ^ 8)) by (change (2 ^ 8) with 256; lia).
    apply Z.mod_pow2_bits_high. lia.
Qed.

Lemma bits_value_bytes data (k : nat) : forall i : nat,
  (i + k <= length data)%nat ->
  bits_value data (8 * Z.of_nat i) (8 * k) = le_value (take k (drop i data)).
Proof.
  induction k as [|k IH]; intros i Hfit.
  - reflexivity.
  - destruct (lookup_lt_is_Some_2 data i) as [b Hb]; [lia|].
    replace (8 * S k)%nat with (8 + 8 * k)%nat by lia.
    rewrite bits_value_app, (bits_value_byte data i b Hb).
    replace (8 * Z.of_nat i + Z.of_nat 8) with (8 * Z.of_nat (S i)) by lia.
    rewrite IH by lia.
    rewrite (drop_S data b i Hb). cbn [take le_value].
    change (2 ^ Z.of_nat 8) with 256. reflexivity.
Qed.

(** X1.  On a well-formed reader whose cursor is on a byte boundary, reading
    [8 * k] bits returns the little-endian integer of the next [k] bytes
    (first byte least significant) and moves the cursor over them. *)
Theorem read_bits_aligned_bytes (r : BitReader) (k : Z) :
  reader_wf r -> _bit_pos r mod 8 = 0 -> 0 <= k -> 8 * k <= bits_left r ->
  read_bits (8 * k) r
  = (Returns (le_value (take (Z.to_nat k) (drop (Z.to_nat (_bit_pos r / 8)) (_data r)))),
     advance r (8 * k)).
Proof.
  intros Hwf Hal Hk Hleft. rewrite read_bits_ok by (assumption || lia).
  f_equal. f_equal. destruct Hwf as [Hmax Hpos]. unfold bits_left in Hleft.
  set (i := Z.to_nat (_bit_pos r / 8)).
  assert (Hi : _bit_pos r = 8 * Z.of_nat i).
  { unfold i. rewrite Z2Nat.id by (apply Z.div_pos; lia).
    Z.div_mod_to_equations. lia. }
  rewrite Hi. replace (Z.to_nat (8 * k)) with (8 * Z.to_nat k)%nat by lia.
  apply bits_value_bytes. lia.
Qed.

Lemma read_bits_aligned_bytes_witness :
  read_bits (8 * 2) (advance (BitReader_init ["a"%byte; "b"%byte; "c"%byte]) 8)
  = (Returns (le_value ["b"%byte; "c"%byte]),
     advance (advance (BitReader_init ["a"%byte; "b"%byte; "c"%byte]) 8) (8 * 2)).
Proof.
  apply (read_bits_aligned_bytes (advance (BitReader_init ["a"%byte; "b"%byte; "c"%byte]) 8) 2).
  - unfold reader_wf; simpl; lia.
  - reflexivity.
  - lia.
  - unfold bits_left; simpl; lia.
Defined.

Lemma read_loop_data budget : forall result shift remain r,
  _data (read_loop budget result shift remain r).2 = _data r
  /\ _max_bits (read_loop budget result shift remain r).2 = _max_bits r.
Proof.
  induction budget as [|budget IH]; intros result shift remain r; cbn [read_loop].
  - destruct (remain =? 0); split; reflexivity.
  - destruct (remain =? 0); [split; reflexivity|]. cbv zeta.
    destruct (py_index _ _); [|split; reflexivity].
    destruct (IH (Z.lor result
                    (Z.shiftl (Z.land (Z.shiftr (byte_val b) (_bit_pos r mod 8))
                                      (Z.shiftl 1 (Z.min (8 - _bit_pos r mod 8) remain) - 1))
                              shift))
                 (shift + Z.min (8 - _bit_pos r mod 8) remain)
                 (remain - Z.min (8 - _bit_pos r mod 8) remain)
                 {| _data := _data r;
                    _bit_pos := _bit_pos r + Z.min (8 - _bit_pos r mod 8) remain;
                    _max_bits := _max_bits r |}) as [H1 H2].
    split; [exact H1|exact H2].
Qed.

(** X2.  Whatever the reader and the count, [read_bits] never touches the
    buffer or its size, whether it returns or raises; and on a well-formed
    reader a returned value fits in [n] bits. *)
Theorem read_bits_frame (r : BitReader) (n : Z) :
  _data (read_bits n r).2 = _data r
  /\ _max_bits (read_bits n r).2 = _max_bits r
  /\ (reader_wf r -> forall v r', read_bits n r = (Returns v, r') -> 0 <= v < 2 ^ n).
Proof.
  assert (Hframe : _data (read_bits n r).2 = _data r
                   /\ _max_bits (read_bits n r).2 = _max_bits r).
  { unfold read_bits. destruct (n =? 0); [split; reflexivity|].
    destruct (n <? 0); [split; reflexivity|].
    destruct (_ <? _); [split; reflexivity|]. apply read_loop_data. }
  destruct Hframe as [H1 H2]. split; [exact H1|]. split; [exact H2|].
  intros Hwf v r' Hret.
  destruct (Z.ltb_spec n 0) as [Hneg|Hnn].
  - unfold read_bits in Hret. destruct (Z.eqb_spec n 0); [lia|].
    destruct (Z.ltb_spec n 0); [discriminate|lia].
  - destruct (Z_lt_le_dec (bits_left r) n) as [Hlt|Hle].
    + unfold read_bits, bits_left in *. destruct (Z.eqb_spec n 0) as [Hz|Hnz].
      * injection Hret as <- _. rewrite Hz. simpl. lia.
      * destruct (Z.ltb_spec n 0); [lia|].
        destruct (Z.ltb_spec (_max_bits r) (_bit_pos r + n)); [discriminate|lia].
    + rewrite read_bits_ok in Hret by assumption. injection Hret as <- _.
      pose proof (bits_value_range (_data r) (_bit_pos r) (Z.to_nat n)) as Hr.
      rewrite Z2Nat.id in Hr by lia. exact Hr.
Qed.

(** ** Sign extension on arbitrary integers *)

Lemma sign_extend_mod value bits :
  1 <= bits -> _sign_extend value bits = twos_complement bits (value mod 2 ^ bits).
Proof.
  intros Hb. unfold _sign_extend. cbv zeta.
  rewrite mask_ones, Z.land_ones by lia.
  assert (Hr : 0 <= value mod 2 ^ bits < 2 ^ bits)
    by (apply Z.mod_pos_bound, Z.pow_pos_nonneg; lia).
  unfold twos_complement.
  rewrite !Z.shiftl_1_l, truthy_land_pow2, testbit_top by lia. reflexivity.
Qed.

Lemma sign_extend_range value bits :
  1 <= bits -> - 2 ^ (bits - 1) <= _sign_extend value bits < 2 ^ (bits - 1).
Proof.
  intros Hb. rewrite sign_extend_mod by lia.
  apply twos_complement_range; [lia|].
  apply Z.mod_pos_bound, Z.pow_pos_nonneg; lia.
Qed.

Lemma sign_extend_congruent value bits :
  1 <= bits -> (_sign_extend value bits - value) mod 2 ^ bits = 0.
Proof.
  intros Hb. rewrite sign_extend_mod by lia.
  assert (Hp : 0 < 2 ^ bits) by (apply Z.pow_pos_nonneg; lia).
  unfold twos_complement. destruct (_ <=? _).
  - replace (value mod 2 ^ bits - 2 ^ bits - value)
      with (value mod 2 ^ bits - value + (-1) * 2 ^ bits) by ring.
    rewrite Z.mod_add by lia.
    rewrite Zminus_mod, Z.mod_mod, Z.sub_diag by lia. apply Z.mod_0_l. lia.
  - rewrite Zminus_mod, Z.mod_mod, Z.sub_diag by lia. apply Z.mod_0_l. lia.
Qed.

Lemma congruent_in_window m h a b :
  0 < m -> m = 2 * h -> - h <= a < h -> - h <= b < h -> (a - b) mod m = 0 -> a = b.
Proof.
  intros Hm Hh Ha Hb Hmod.
  assert (Hd : a - b = m * ((a - b) / m)).
  { rewrite (Z.div_mod (a - b) m) at 1 by lia. rewrite Hmod. ring. }
  assert ((a - b) / m = 0) by nia. lia.
Qed.

Lemma pow2_half bits : 1 <= bits -> 2 ^ bits = 2 * 2 ^ (bits - 1).
Proof.
  intros. replace bits with (Z.succ (bits - 1)) at 1 by lia. apply Z.pow_succ_r. lia.
Qed.

(** X3.  For any integer [value] and any width of at least one bit,
    [_sign_extend] returns the one integer of the signed range of that width
    that agrees with [value] modulo [2^bits]; in particular it looks at the
    low [bits] bits of [value] only. *)
Theorem sign_extend_signed_residue (value bits : Z) :
  1 <= bits ->
  - 2 ^ (bits - 1) <= _sign_extend value bits < 2 ^ (bits - 1)
  /\ (_sign_extend value bits - value) mod 2 ^ bits = 0
  /\ (forall r, - 2 ^ (bits - 1) <= r < 2 ^ (bits - 1) ->
        (r - value) mod 2 ^ bits = 0 -> r = _sign_extend value bits)
  /\ (forall other, other mod 2 ^ bits = value mod 2 ^ bits ->
        _sign_extend other bits = _sign_extend value bits).
Proof.
  intros Hb.
  assert (Hp : 0 < 2 ^ bits) by (apply Z.pow_pos_nonneg; lia).
  split; [apply sign_extend_range, Hb|].
  split; [apply sign_extend_congruent, Hb|].
  split.
  - intros r Hr Hmod.
    apply (congruent_in_window (2 ^ bits) (2 ^ (bits - 1)));
      [lia|apply pow2_half, Hb|exact Hr|apply sign_extend_range, Hb|].
    pose proof (sign_extend_congruent value bits Hb) as Hc.
    replace (r - _sign_extend value bits)
      with ((r - value) - (_sign_extend value bits - value)) by ring.
    rewrite Zminus_mod, Hmod, Hc. reflexivity.
  - intros other Hsame. rewrite !sign_extend_mod by lia. rewrite Hsame. reflexivity.
Qed.

Lemma sign_extend_signed_residue_witness :
  - 2 ^ (14 - 1) <= _sign_extend 16383 14 < 2 ^ (14 - 1)
  /\ (_sign_extend 16383 14 - 16383) mod 2 ^ 14 = 0
  /\ (forall r, - 2 ^ (14 - 1) <= r < 2 ^ (14 - 1) ->
        (r - 16383) mod 2 ^ 14 = 0 -> r = _sign_extend 16383 14)
  /\ (forall other, other mod 2 ^ 14 = 16383 mod 2 ^ 14 ->
        _sign_extend other 14 = _sign_extend 16383 14).
Proof. apply (sign_extend_signed_residue 16383 14). lia. Defined.

Lemma to_twos_complement_mod value nbits :
  0 <= nbits -> _to_twos_complement value nbits = value mod 2 ^ nbits.
Proof.
  intros. unfold _to_twos_complement. cbv zeta. rewrite mask_ones by lia.
  apply Z.land_ones. lia.
Qed.

(** X4.  Encoding a signed value with the generator's [_to_twos_complement]
    and decoding it with the decoder's [_sign_extend] at the same width gives
    the value back exactly when the value lies in the signed range of that
    width; the encoded value is always an unsigned [nbits]-bit integer. *)
Theorem twos_complement_round_trip (value nbits : Z) :
  1 <= nbits ->
  0 <= _to_twos_complement value nbits < 2 ^ nbits
  /\ (_sign_extend (_to_twos_complement value nbits) nbits = value
      <-> - 2 ^ (nbits - 1) <= value < 2 ^ (nbits - 1)).
Proof.
  intros Hb.
  assert (Hp : 0 < 2 ^ nbits) by (apply Z.pow_pos_nonneg; lia).
  rewrite to_twos_complement_mod by lia.
  split; [apply Z.mod_pos_bound; lia|].
  assert (Hsame : _sign_extend (value mod 2 ^ nbits) nbits = _sign_extend value nbits).
  { rewrite !sign_extend_mod by lia. rewrite Z.mod_mod by lia. reflexivity. }
  rewrite Hsame. split.
  - intros <-. apply sign_extend_range, Hb.
  - intros Hr. symmetry.
    apply (congruent_in_window (2 ^ nbits) (2 ^ (nbits - 1)));
      [lia|apply pow2_half, Hb|exact Hr|apply sign_extend_range, Hb|].
    pose proof (sign_extend_congruent value nbits Hb) as Hc.
    replace (value - _sign_extend value nbits)
      with (- (_sign_extend value nbits - value)) by ring.
    apply Z.mod_opp_l_z; [lia|exact Hc].
Qed.

Lemma twos_complement_round_trip_witness :
  0 <= _to_twos_complement (-2000) 14 < 2 ^ 14
  /\ (_sign_extend (_to_twos_complement (-2000) 14) 14 = -2000
      <-> - 2 ^ (14 - 1) <= -2000 < 2 ^ (14 - 1)).
Proof. apply (twos_complement_round_trip (-2000) 14). lia. Defined.

(** ** What a decoded packet can hold *)

Lemma decode_packet_returns data pkt log :
  _decode_packet data = (Returns pkt, log) ->
  length data = 42%nat /\ pkt = decoded_fields data /\ log = [].
Proof.
  intros H. destruct (decide (length data = 42%nat)) as [Hlen|Hlen].
  - rewrite decode_packet_42 in H by exact Hlen. injection H as <- <-. auto.
  - rewrite decode_packet_wrong_length in H by exact Hlen. discriminate.
Qed.

Lemma sign_extend_bits_range data off (w : nat) :
  (1 <= w)%nat ->
  - 2 ^ (Z.of_nat w - 1) <= _sign_extend (bits_value data off w) (Z.of_nat w)
    < 2 ^ (Z.of_nat w - 1).
Proof. intros. apply sign_extend_range. lia. Qed.

(** X5.  Every field of a packet that [_decode_packet] returns lies in the
    range of its bit width: 24, 20 and 16 bits unsigned for time_ms, pressPa
    and the radiation counters, 14, 16 and 30 bits signed for temp_cC, the
    mag/accel/gyro triples and lat_1e7/lon_1e7. *)
Theorem decoded_field_ranges (data : list byte) (pkt : TelemetryPacket)
    (log : list log_event) :
  _decode_packet data = (Returns pkt, log) ->
  0 <= time_ms pkt < 2 ^ 24
  /\ - 2 ^ 13 <= temp_cC pkt < 2 ^ 13
  /\ 0 <= pressPa pkt < 2 ^ 20
  /\ (- 2 ^ 15 <= magX pkt < 2 ^ 15 /\ - 2 ^ 15 <= magY pkt < 2 ^ 15
      /\ - 2 ^ 15 <= magZ pkt < 2 ^ 15)
  /\ (- 2 ^ 15 <= accelX pkt < 2 ^ 15 /\ - 2 ^ 15 <= accelY pkt < 2 ^ 15
      /\ - 2 ^ 15 <= accelZ pkt < 2 ^ 15)
  /\ (- 2 ^ 15 <= gyroX pkt < 2 ^ 15 /\ - 2 ^ 15 <= gyroY pkt < 2 ^ 15
      /\ - 2 ^ 15 <= gyroZ pkt < 2 ^ 15)
  /\ - 2 ^ 29 <= lat_1e7 pkt < 2 ^ 29
  /\ - 2 ^ 29 <= lon_1e7 pkt < 2 ^ 29
  /\ (0 <= radData0 pkt < 2 ^ 16 /\ 0 <= radData1 pkt < 2 ^ 16
      /\ 0 <= radData2 pkt < 2 ^ 16 /\ 0 <= radData3 pkt < 2 ^ 16).
Proof.
  intros H. apply decode_packet_returns in H as (_ & -> & _).
  unfold decoded_fields.
  cbn [time_ms temp_cC pressPa magX magY magZ accelX accelY accelZ
       gyroX gyroY gyroZ lat_1e7 lon_1e7 radData0 radData1 radData2 radData3].
  pose proof (fun off => bits_value_range data off 16) as U16.
  pose proof (fun off => sign_extend_range (bits_value data off 16) 16 ltac:(lia)) as S16.
  pose proof (fun off => sign_extend_range (bits_value data off 30) 30 ltac:(lia)) as S30.
  change (2 ^ Z.of_nat 16) with (2 ^ 16) in U16.
  change (2 ^ (16 - 1)) with (2 ^ 15) in S16.
  change (2 ^ (30 - 1)) with (2 ^ 29) in S30.
  split; [exact (bits_value_range data 0 24)|].
  split; [exact (sign_extend_range (bits_value data 24 14) 14 ltac:(lia))|].
  split; [exact (bits_value_range data 38 20)|].
  split; [split; [apply S16|split; apply S16]|].
  split; [split; [apply S16|split; apply S16]|].
  split; [split; [apply S16|split; apply S16]|].
  split; [apply S30|]. split; [apply S30|].
  split; [apply U16|]. split; [apply U16|]. split; apply U16.
Qed.

Lemma decoded_field_ranges_witness :
  let pkt := decoded_fields sample_record in
  0 <= time_ms pkt < 2 ^ 24
  /\ - 2 ^ 13 <= temp_cC pkt < 2 ^ 13
  /\ 0 <= pressPa pkt < 2 ^ 20
  /\ (- 2 ^ 15 <= magX pkt < 2 ^ 15 /\ - 2 ^ 15 <= magY pkt < 2 ^ 15
      /\ - 2 ^ 15 <= magZ pkt < 2 ^ 15)
  /\ (- 2 ^ 15 <= accelX pkt < 2 ^ 15 /\ - 2 ^ 15 <= accelY pkt < 2 ^ 15
      /\ - 2 ^ 15 <= accelZ pkt < 2 ^ 15)
  /\ (- 2 ^ 15 <= gyroX pkt < 2 ^ 15 /\ - 2 ^ 15 <= gyroY pkt < 2 ^ 15
      /\ - 2 ^ 15 <= gyroZ pkt < 2 ^ 15)
  /\ - 2 ^ 29 <= lat_1e7 pkt < 2 ^ 29
  /\ - 2 ^ 29 <= lon_1e7 pkt < 2 ^ 29
  /\ (0 <= radData0 pkt < 2 ^ 16 /\ 0 <= radData1 pkt < 2 ^ 16
      /\ 0 <= radData2 pkt < 2 ^ 16 /\ 0 <= radData3 pkt < 2 ^ 16).
Proof.
  apply (decoded_field_ranges sample_record (decoded_fields sample_record) []).
  vm_compute. reflexivity.
Defined.

(** X6.  The sanity check can never fail on a packet the decoder returns:
    the bit widths already keep pressPa, lat_1e7, lon_1e7 and temp_cC inside
    its bounds.  So the single-packet entry point returns a packet exactly
    when it is given 42 bytes, and never reports an invalid packet. *)
Theorem sanity_check_never_fails (log_packets : bool) (data : list byte) (idx : Z) :
  (forall pkt log, _decode_packet data = (Returns pkt, log) -> _is_valid_packet pkt = true)
  /\ ((exists pkt log,
         decode_packet_with_log log_packets data idx = (Returns (Some pkt), log))
      <-> length data = 42%nat)
  /\ WarnInvalidPacket idx ∉ (decode_packet_with_log log_packets data idx).2.
Proof.
  split; [|split].
  - intros pkt log H. apply decode_packet_returns in H as (_ & -> & _).
    apply decoded_fields_valid.
  - unfold decode_packet_with_log. split.
    + intros (pkt & log & H). destruct (decide (length data = 42%nat)) as [Hlen|Hlen];
        [exact Hlen|].
      rewrite decode_packet_wrong_length in H by exact Hlen. discriminate.
    + intros Hlen. rewrite decode_packet_42, decoded_fields_valid by exact Hlen. eauto.
  - unfold decode_packet_with_log.
    destruct (decide (length data = 42%nat)) as [Hlen|Hlen].
    + rewrite decode_packet_42, decoded_fields_valid by exact Hlen. cbn.
      destruct log_packets; [|apply not_elem_of_nil].
      intros Hin. apply list_elem_of_singleton in Hin. discriminate.
    + rewrite decode_packet_wrong_length by exact Hlen. cbn.
      intros Hin. apply list_elem_of_singleton in Hin. discriminate.
Qed.

(** ** Batch decoding: the exact result *)

Section BatchExact.
Context (log_packets : bool) (data : list byte).

(** The log line of a packet that was accepted, when packets are logged. *)
Let packet_log (i : Z) : list log_event :=
  if log_packets then [LogPacket (i + 1) (decoded_fields (block_at data i))] else [].

Lemma decode_block_42 packets log i :
  length (block_at data i) = 42%nat ->
  decode_block log_packets data (Returns packets, log) i
  = (Returns (packets ++ [decoded_fields (block_at data i)]), log ++ packet_log i).
Proof.
  intros Hlen. unfold decode_block. fold (block_at data i).
  rewrite decode_packet_42, decoded_fields_valid by exact Hlen. reflexivity.
Qed.

Lemma decode_loop_42 (indices : list Z) : forall packets log,
  (forall i, i ∈ indices -> length (block_at data i) = 42%nat) ->
  fold_left (decode_block log_packets data) indices (Returns packets, log)
  = (Returns (packets ++ ((fun i => decoded_fields (block_at data i)) <$> indices)),
     log ++ concat (packet_log <$> indices)).
Proof.
  induction indices as [|i rest IH]; intros packets log Hlen.
  - cbn [fold_left fmap list_fmap concat]. rewrite !app_nil_r. reflexivity.
  - cbn [fold_left]. rewrite decode_block_42 by (apply Hlen, list_elem_of_here).
    rewrite IH by (intros j Hj; apply Hlen, list_elem_of_further, Hj).
    cbn [fmap list_fmap concat]. rewrite <- !app_assoc. reflexivity.
Qed.

End BatchExact.

(** X7.  For a buffer of at least 42 bytes, [decode_file] returns the
    decoding of every complete 42-byte window, in order, and logs no warning
    at all: the log is the opening line with the record count, one line per
    packet (numbered from 1) when packet logging is on, and the closing line
    with the same count. *)
Theorem decode_file_exact (log_packets : bool) (data : list byte) :
  42 <= Z.of_nat (length data) ->
  let count := Z.of_nat (length data) / 42 in
  decode_file log_packets data
  = (Returns ((fun i => decoded_fields (block_at data i)) <$> seqZ 0 count),
     [InfoDecoding count]
     ++ (if log_packets
         then (fun i => LogPacket (i + 1) (decoded_fields (block_at data i))) <$> seqZ 0 count
         else [])
     ++ [InfoDecoded count]).
Proof.
  intros Hlen count.
  assert (Hcount : 1 <= count /\ 42 * count <= Z.of_nat (length data))
    by (unfold count; Z.div_mod_to_equations; lia).
  unfold decode_file, PACKET_SIZE, py_range.
  destruct (Z.ltb_spec (Z.of_nat (length data)) 42); [lia|]. cbv zeta. fold count.
  rewrite decode_loop_42.
  - cbn [app]. rewrite length_fmap, length_seqZ, Z2Nat.id by lia.
    f_equal. f_equal. f_equal. destruct log_packets.
    + induction (seqZ 0 count) as [|i l IH]; [reflexivity|].
      cbn [fmap list_fmap concat app]. f_equal. exact IH.
    + induction (seqZ 0 count) as [|i l IH]; [reflexivity|].
      cbn [fmap list_fmap concat app]. exact IH.
  - intros i Hi. apply (blocks_length data count); [lia|].
    rewrite record_blocks_fmap. apply list_elem_of_fmap. eauto.
Qed.

Lemma decode_file_exact_witness :
  let data := (sample_record ++ sample_record)%list in
  let count := Z.of_nat (length data) / 42 in
  decode_file true data
  = (Returns ((fun i => decoded_fields (block_at data i)) <$> seqZ 0 count),
     [InfoDecoding count]
     ++ ((fun i => LogPacket (i + 1) (decoded_fields (block_at data i))) <$> seqZ 0 count)
     ++ [InfoDecoded count]).
Proof.
  apply (decode_file_exact true (sample_record ++ sample_record)). vm_compute. discriminate.
Defined.

(** ** SystemFlags *)

Lemma from_byte_eta b :
  from_byte b
  = {| err := Z.testbit b 0; wait := Z.testbit b 1; ok := Z.testbit b 2;
       ping := Z.testbit b 3; command := Z.testbit b 4; land := Z.testbit b 5;
       eject := Z.testbit b 6; start := Z.testbit b 7 |}.
Proof.
  unfold from_byte. f_equal.
  - exact (truthy_land_pow2 b 0 ltac:(lia)).
  - exact (truthy_land_pow2 b 1 ltac:(lia)).
  - exact (truthy_land_pow2 b 2 ltac:(lia)).
  - exact (truthy_land_pow2 b 3 ltac:(lia)).
  - exact (truthy_land_pow2 b 4 ltac:(lia)).
  - exact (truthy_land_pow2 b 5 ltac:(lia)).
  - exact (truthy_land_pow2 b 6 ltac:(lia)).
  - exact (truthy_land_pow2 b 7 ltac:(lia)).
Qed.

(** X8.  [from_byte] reads the low eight bits of its argument and nothing
    else, and loses none of them: two integers give the same flags exactly
    when they agree modulo 256. *)
Theorem from_byte_low_bits (b1 b2 : Z) :
  from_byte b1 = from_byte b2 <-> b1 mod 256 = b2 mod 256.
Proof.
  rewrite !from_byte_eta. change 256 with (2 ^ 8). split.
  - intros [= H0 H1 H2 H3 H4 H5 H6 H7].
    apply Z.bits_inj'; intros i Hi.
    destruct (Z_lt_le_dec i 8) as [Hlt|Hge].
    + rewrite !Z.mod_pow2_bits_low by lia.
      assert (i = 0 \/ i = 1 \/ i = 2 \/ i = 3 \/ i = 4 \/ i = 5 \/ i = 6 \/ i = 7)
        as [->|[->|[->|[->|[->|[->|[->| ->]]]]]]] by lia; assumption.
    + rewrite !Z.mod_pow2_bits_high by lia. reflexivity.
  - intros H.
    assert (Hbit : forall i, 0 <= i < 8 -> Z.testbit b1 i = Z.testbit b2 i).
    { intros i Hi. rewrite <- (Z.mod_pow2_bits_low b1 8 i), <- (Z.mod_pow2_bits_low b2 8 i) by lia.
      rewrite H. reflexivity. }
    rewrite !Hbit by lia. reflexivity.
Qed.

(** X9.  The log display of the flags shows the tag of a flag exactly when
    the flag is set (the eject flag under the tag DROP), and it is the
    text "|NONE|" exactly when no flag is set. *)
Theorem flags_display_tags (f : SystemFlags) :
  has_infix "|START|" (to_flags_display f) = start f
  /\ has_infix "|DROP|" (to_flags_display f) = eject f
  /\ has_infix "|PING|" (to_flags_display f) = ping f
  /\ has_infix "|OK|" (to_flags_display f) = ok f
  /\ has_infix "|ERR|" (to_flags_display f) = err f
  /\ has_infix "|WAIT|" (to_flags_display f) = wait f
  /\ has_infix "|CMD|" (to_flags_display f) = command f
  /\ has_infix "|LAND|" (to_flags_display f) = land f
  /\ (to_flags_display f = "|NONE|"%string <-> f = from_byte 0).
Proof.
  destruct f as [[] [] [] [] [] [] [] []];
    (repeat split; try (vm_compute; reflexivity); vm_compute; discriminate).
Qed.

(** ** CSV rows *)

Lemma to_dict_dom p : dom (to_dict p) = list_to_set HEADER.
Proof. unfold to_dict. rewrite dom_list_to_map_L. reflexivity. Qed.

Lemma to_dict_is_Some p field : is_Some (to_dict p !! field) <-> field ∈ HEADER.
Proof. rewrite <- elem_of_dom, to_dict_dom, elem_of_list_to_set. reflexivity. Qed.

Lemma row_data_fields p : (row_data p).*1 = HEADER.
Proof.
  unfold row_data. cbv zeta. generalize (to_dict p). intros d.
  induction HEADER as [|field l IH]; [reflexivity|].
  cbn [map fmap list_fmap fst]. f_equal. exact IH.
Qed.

(** X10.  The dictionary of a packet has exactly the 19 header fields as
    keys, so a CSV row never falls back on the empty default: a row holds
    the header fields in header order, each with the value the dictionary
    has for it, and nothing else.  [export] refuses the empty list and
    otherwise writes the header and one such row per packet, in order. *)
Theorem csv_rows_complete (packets : list TelemetryPacket) (p : TelemetryPacket) :
  (forall field, is_Some (to_dict p !! field) <-> field ∈ HEADER)
  /\ (row_data p).*1 = HEADER
  /\ (forall field v, (field, v) ∈ row_data p <-> to_dict p !! field = Some v)
  /\ (export packets = ExportValueError <-> packets = [])
  /\ (forall table, export packets = Exported table ->
        csv_header table = HEADER /\ csv_rows table = row_data <$> packets).
Proof.
  split; [apply to_dict_is_Some|]. split; [apply row_data_fields|]. split; [|split].
  - intros field v. unfold row_data. cbv zeta. rewrite list_elem_of_fmap. split.
    + intros (f & Heq & Hf).
      pose proof (f_equal fst Heq) as Hfield. pose proof (f_equal snd Heq) as Hvalue.
      cbn [fst snd] in Hfield, Hvalue. rewrite Hfield, Hvalue.
      apply (proj2 (to_dict_is_Some p f)) in Hf as [v' Hv].
      rewrite Hv. reflexivity.
    + intros Hv. exists field. rewrite Hv. split; [reflexivity|].
      apply (proj1 (to_dict_is_Some p field)). eauto.
  - destruct packets; split; try discriminate; reflexivity.
  - intros table H. destruct packets; [discriminate|]. injection H as <-. split; reflexivity.
Qed.

(** ** The channel-range stage *)

Lemma int_lt_float_false v bound :
  match bound with Some m => int_lt_float v m | None => false end = false
  <-> respects_min v bound.
Proof.
  destruct bound as [[q| | |]|]; cbn; try (split; [trivial|reflexivity]).
  - rewrite negb_false_iff. apply Qle_bool_iff.
  - split; [discriminate|contradiction].
Qed.

Lemma int_gt_float_false v bound :
  match bound with Some m => int_gt_float v m | None => false end = false
  <-> respects_max v bound.
Proof.
  destruct bound as [[q| | |]|]; cbn; try (split; [trivial|reflexivity]).
  - rewrite negb_false_iff. apply Qle_bool_iff.
  - split; [discriminate|contradiction].
Qed.

Lemma channel_ok_spec p channel limits :
  channel_ok (to_dict p) channel limits = true
  <-> (channel <> "flags"%string ->
       forall v, to_dict p !! channel = Some (PyInt v) ->
       respects_min v (lim_min limits) /\ respects_max v (lim_max limits)).
Proof.
  unfold channel_ok. destruct (to_dict p !! channel) as [value|] eqn:E.
  - destruct (String.eqb_spec channel "flags") as [->|Hne].
    + split; [intros _ Hn; contradiction|reflexivity].
    + destruct value as [v|s].
      * destruct (match lim_min limits with Some m => int_lt_float v m | None => false end) eqn:Emin.
        -- split; [discriminate|]. intros H. destruct (H Hne v eq_refl) as [Hmin _].
           apply int_lt_float_false in Hmin. congruence.
        -- apply int_lt_float_false in Emin.
           destruct (match lim_max limits with Some m => int_gt_float v m | None => false end) eqn:Emax.
           ++ split; [discriminate|]. intros H. destruct (H Hne v eq_refl) as [_ Hmax].
              apply int_gt_float_false in Hmax. congruence.
           ++ apply int_gt_float_false in Emax.
              split; [|reflexivity]. intros _ _ v' [= <-]. split; assumption.
      * split; [|reflexivity]. intros _ _ v' [=].
  - split; [|reflexivity]. intros _ _ v' [=].
Qed.

(** X11.  A packet passes the channel stage exactly when, for every channel
    that has limits and names a numeric packet field, the field's value is
    not below the configured minimum and not above the configured maximum
    (both bounds inclusive, a missing bound unbounded, a NaN bound ignored).
    Limits given for 'flags' or for a name that is no packet field have no
    effect. *)
Theorem channel_stage_intervals (fm : FilterManager) (p : TelemetryPacket) :
  _passes_channel_filter fm p = true
  <-> (forall channel limits v,
         channel_limits fm !! channel = Some limits ->
         channel <> "flags"%string ->
         to_dict p !! channel = Some (PyInt v) ->
         respects_min v (lim_min limits) /\ respects_max v (lim_max limits)).
Proof.
  unfold _passes_channel_filter. cbv zeta. rewrite forallb_forall. split.
  - intros H channel limits v Hl Hne Hv.
    assert (Hok : channel_ok (to_dict p) channel limits = true).
    { apply (H (channel, limits)). apply list_elem_of_In, elem_of_map_to_list, Hl. }
    destruct (channel_ok_spec p channel limits) as [Hfw _]. apply (Hfw Hok); assumption.
  - intros H [channel limits] Hin.
    apply list_elem_of_In, elem_of_map_to_list in Hin. cbn [fst snd].
    destruct (channel_ok_spec p channel limits) as [_ Hbw]. apply Hbw.
    intros Hne v Hv. eapply H; eassumption.
Qed.

(** ** Merging the two sources of filter settings *)

Lemma limits_update_twice old new :
  limits_update (limits_update old new) new = limits_update old new.
Proof.
  unfold limits_update. cbn [lim_min lim_max].
  destruct (lim_min new), (lim_max new); reflexivity.
Qed.

Lemma merged_limits_lookup (cfg fmap_ : gmap string limits_t) channel :
  union_with (fun new old => Some (limits_update old new)) cfg fmap_ !! channel
  = match cfg !! channel, fmap_ !! channel with
    | Some new, Some old => Some (limits_update old new)
    | Some new, None => Some new
    | None, old => old
    end.
Proof.
  rewrite lookup_union_with. destruct (cfg !! channel), (fmap_ !! channel); reflexivity.
Qed.

(** X12.  Merging the configuration into the filter manager works bound by
    bound: for each channel, the minimum (maximum) in force afterwards is the
    configuration's when it gives one and the filter file's otherwise, so a
    configuration that gives only one bound of a channel leaves the other
    bound of the filter file in force.  The time settings are overridden key
    by key in the same way, and the manual drop set is left alone. *)
Theorem merge_bound_by_bound (fm : FilterManager) (config_manager : ConfigManager)
    (channel : string) :
  let fm' := _merge_config_settings fm config_manager in
  bound_of (channel_limits fm') channel lim_min
    = match bound_of (get_channel_limits config_manager) channel lim_min with
      | Some b => Some b
      | None => bound_of (channel_limits fm) channel lim_min
      end
  /\ bound_of (channel_limits fm') channel lim_max
     = match bound_of (get_channel_limits config_manager) channel lim_max with
       | Some b => Some b
       | None => bound_of (channel_limits fm) channel lim_max
       end
  /\ (is_Some (channel_limits fm' !! channel)
      <-> is_Some (get_channel_limits config_manager !! channel)
          \/ is_Some (channel_limits fm !! channel))
  /\ max_jump_ms (time_settings fm')
     = match max_jump_ms (get_time_settings config_manager) with
       | Some m => Some m
       | None => max_jump_ms (time_settings fm)
       end
  /\ allow_wrap (time_settings fm')
     = match allow_wrap (get_time_settings config_manager) with
       | Some w => Some w
       | None => allow_wrap (time_settings fm)
       end
  /\ manual_drops fm' = manual_drops fm.
Proof.
  intros fm'. unfold fm', _merge_config_settings, bound_of.
  cbn [channel_limits time_settings manual_drops].
  rewrite merged_limits_lookup.
  split; [|split; [|split; [|split; [|split]]]]; try reflexivity.
  - destruct (get_channel_limits config_manager !! channel) as [new|],
             (channel_limits fm !! channel) as [old|]; cbn; try reflexivity;
      destruct (lim_min new); reflexivity.
  - destruct (get_channel_limits config_manager !! channel) as [new|],
             (channel_limits fm !! channel) as [old|]; cbn; try reflexivity;
      destruct (lim_max new); reflexivity.
  - destruct (get_channel_limits config_manager !! channel) as [new|],
             (channel_limits fm !! channel) as [old|];
      rewrite !is_Some_alt; tauto.
Qed.

Lemma merge_idempotent fm config_manager :
  _merge_config_settings (_merge_config_settings fm config_manager) config_manager
  = _merge_config_settings fm config_manager.
Proof.
  unfold _merge_config_settings. cbn [time_settings channel_limits manual_drops].
  f_equal.
  - unfold time_settings_update. cbn [max_jump_ms allow_wrap].
    destruct (max_jump_ms (get_time_settings config_manager)),
             (allow_wrap (get_time_settings config_manager)); reflexivity.
  - apply map_eq. intros channel. rewrite !merged_limits_lookup.
    destruct (get_channel_limits config_manager !! channel) as [new|],
             (channel_limits fm !! channel) as [old|]; try reflexivity.
    + rewrite limits_update_twice. reflexivity.
    + f_equal. unfold limits_update. destruct new as [[?|] [?|]]; reflexivity.
Qed.

(** ** What the filter loop guarantees about its output *)

Section FilterOutput.
Context (fm : FilterManager).

Lemma time_chain_snoc baseline l p :
  time_chain fm baseline (l ++ [p])
  <-> time_chain fm baseline l
      /\ _passes_time_filter fm p
           (match last l with Some q => Some (time_ms q) | None => baseline end) 0 = true.
Proof.
  revert baseline. induction l as [|q l IH]; intros baseline.
  - cbn. tauto.
  - cbn [app time_chain]. rewrite IH.
    destruct l as [|q' l']; cbn [last]; [tauto|].
    change (last (q :: q' :: l')) with (last (q' :: l')).
    destruct (last (q' :: l')) eqn:E; [tauto|].
    apply last_None in E. discriminate.
Qed.

Lemma time_chain_adjacent l : forall baseline (i : nat) p q,
  time_chain fm baseline l -> l !! i = Some p -> l !! S i = Some q ->
  _passes_time_filter fm q (Some (time_ms p)) 0 = true.
Proof.
  induction l as [|x l IH]; intros baseline i p q Hc Hp Hq; [discriminate|].
  destruct Hc as [_ Hrest]. destruct i as [|i].
  - injection Hp as ->. destruct l as [|y l']; [discriminate|].
    injection Hq as ->. exact (proj1 Hrest).
  - exact (IH _ i p q Hrest Hp Hq).
Qed.

Lemma filter_step_output_inv st entry :
  output_inv fm st -> output_inv fm (filter_step fm st entry).
Proof.
  intros (Hb & Hc & Hch). destruct entry as [idx packet].
  destruct (filter_step_cases fm st idx packet) as [[-> _]|[-> (Ht & Hcf & _)]];
    [repeat split; assumption|].
  split; [|split]; cbn [filtered_packets prev_time].
  - unfold baseline_inv. cbn [filtered_packets prev_time]. rewrite last_snoc. reflexivity.
  - apply time_chain_snoc. split; [exact Hc|].
    unfold baseline_inv in Hb. rewrite Hb in Ht.
    destruct (last (filtered_packets st)); exact Ht.
  - apply Forall_app. split; [exact Hch|]. apply Forall_singleton, Hcf.
Qed.

Lemma fold_output_inv entries : forall st,
  output_inv fm st -> output_inv fm (fold_left (filter_step fm) entries st).
Proof.
  induction entries as [|e rest IH]; intros st Hinv; [exact Hinv|].
  cbn [fold_left]. apply IH, filter_step_output_inv, Hinv.
Qed.

Lemma filter_loop_output_inv entries : output_inv fm (filter_loop fm entries).
Proof.
  apply fold_output_inv. split; [reflexivity|]. split; [exact I|constructor].
Qed.

(** Running the loop over a list that is already a chain of packets that
    pass the channel stage, with nothing excluded by index, keeps all of
    it. *)
Lemma filter_loop_keeps_chain entries : forall st,
  manual_drops fm = ∅ ->
  time_chain fm (prev_time st) (entries.*2) ->
  Forall (fun q => _passes_channel_filter fm q = true) (entries.*2) ->
  filtered_packets (fold_left (filter_step fm) entries st)
  = filtered_packets st ++ entries.*2.
Proof.
  induction entries as [|[idx packet] rest IH]; intros st Hdrops Hc Hch.
  - cbn. rewrite app_nil_r. reflexivity.
  - cbn [fmap list_fmap snd] in Hc, Hch.
    change (list_fmap _ _ snd rest) with (rest.*2) in Hc, Hch.
    destruct Hc as [Ht Hrest]. apply Forall_cons in Hch as [Hcf Hchrest].
    cbn [fold_left].
    destruct (filter_step_cases fm st idx packet)
      as [[_ [Ht'|[Hc'|Hin]]]|[Hst _]].
    + change (_passes_time_filter fm packet (prev_time st) idx)
        with (_passes_time_filter fm packet (prev_time st) 0) in Ht'. congruence.
    + congruence.
    + rewrite Hdrops in Hin. apply not_elem_of_empty in Hin. contradiction.
    + rewrite Hst, IH; cbn [filtered_packets prev_time]; try assumption.
      cbn [fmap list_fmap snd]. rewrite <- app_assoc. reflexivity.
Qed.

End FilterOutput.

Lemma time_pass_arith fm q baseline :
  time_settings_empty (time_settings fm) = false ->
  _passes_time_filter fm q (Some baseline) 0 = true ->
  ~ spec_time_drop (max_jump_ms (time_settings fm))
                   (default false (allow_wrap (time_settings fm)))
                   baseline (time_ms q).
Proof.
  intros Hne Hpass Hdrop.
  apply (time_filter_enabled fm q baseline 0 Hne) in Hdrop. congruence.
Qed.

(** X13.  In the output of [apply_filters] every packet passes the time
    stage against the packet just before it in the output.  Hence, when a
    time setting is configured and wrap is not allowed, the output times
    never decrease and two neighbours are at most max_jump_ms apart; when
    wrap is allowed, the gap between neighbours, plus 2^24 if it is
    negative, is at most max_jump_ms. *)
Theorem output_time_chain (fm : FilterManager) (config_manager : ConfigManager)
    (packets : list TelemetryPacket) :
  let fm' := _merge_config_settings fm config_manager in
  let output := (apply_filters fm packets config_manager).1 in
  let settings := time_settings fm' in
  (forall (i : nat) p q idx,
     output !! i = Some p -> output !! S i = Some q ->
     _passes_time_filter fm' q (Some (time_ms p)) idx = true)
  /\ (time_settings_empty settings = false ->
      default false (allow_wrap settings) = false ->
      forall (i : nat) p q,
        output !! i = Some p -> output !! S i = Some q ->
        time_ms p <= time_ms q
        /\ forall m, max_jump_ms settings = Some m -> time_ms q - time_ms p <= m)
  /\ (allow_wrap settings = Some true ->
      forall (i : nat) p q m,
        output !! i = Some p -> output !! S i = Some q ->
        max_jump_ms settings = Some m ->
        (0 <= time_ms q - time_ms p <= m)
        \/ (time_ms q - time_ms p < 0 /\ time_ms q - time_ms p + 2 ^ 24 <= m)).
Proof.
  intros fm' output settings.
  assert (Hadj : forall (i : nat) p q,
             output !! i = Some p -> output !! S i = Some q ->
             _passes_time_filter fm' q (Some (time_ms p)) 0 = true).
  { intros i p q Hp Hq. unfold output in Hp, Hq. rewrite apply_filters_loop in Hp, Hq.
    destruct (filter_loop_output_inv fm' (enumerate packets)) as (_ & Hc & _).
    exact (time_chain_adjacent fm' _ None i p q Hc Hp Hq). }
  split; [|split].
  - intros i p q idx Hp Hq. exact (Hadj i p q Hp Hq).
  - intros Hne Hwrap i p q Hp Hq.
    pose proof (time_pass_arith fm' q (time_ms p) Hne (Hadj i p q Hp Hq)) as Hnd.
    fold settings in Hnd. rewrite Hwrap in Hnd.
    unfold spec_time_drop, spec_time_delta in Hnd. cbv zeta in Hnd.
    rewrite andb_false_r in Hnd. split.
    + destruct (Z_le_gt_dec (time_ms p) (time_ms q)); [assumption|].
      exfalso. apply Hnd. right. split; [lia|reflexivity].
    + intros m Hm. destruct (Z_le_gt_dec (time_ms q - time_ms p) m); [assumption|].
      exfalso. apply Hnd. left. exists m. split; [exact Hm|lia].
  - intros Hwrap i p q m Hp Hq Hm.
    assert (Hne : time_settings_empty settings = false).
    { unfold time_settings_empty. rewrite Hwrap. destruct (max_jump_ms settings); reflexivity. }
    pose proof (time_pass_arith fm' q (time_ms p) Hne (Hadj i p q Hp Hq)) as Hnd.
    fold settings in Hnd. rewrite Hwrap, Hm in Hnd.
    unfold spec_time_drop, spec_time_delta in Hnd. cbn [default] in Hnd. cbv zeta in Hnd.
    rewrite andb_true_r in Hnd.
    destruct (Z.ltb_spec (time_ms q - time_ms p) 0) as [Hneg|Hpos].
    + right. split; [exact Hneg|].
      destruct (Z_le_gt_dec (time_ms q - time_ms p + 2 ^ 24) m); [assumption|].
      exfalso. apply Hnd. left. exists m. split; [reflexivity|lia].
    + left. split; [exact Hpos|].
      destruct (Z_le_gt_dec (time_ms q - time_ms p) m); [assumption|].
      exfalso. apply Hnd. left. exists m. split; [reflexivity|lia].
Qed.

(** X14.  When no index is excluded by hand, filtering is idempotent:
    running [apply_filters] again on its own output, with the manager it
    left behind and the same configuration, returns that output unchanged
    and leaves the manager as it is. *)
Theorem apply_filters_idempotent (fm : FilterManager) (config_manager : ConfigManager)
    (packets : list TelemetryPacket) :
  manual_drops fm = ∅ ->
  let result := apply_filters fm packets config_manager in
  apply_filters result.2 result.1 config_manager = result.
Proof.
  intros Hdrops result.
  destruct packets as [|p0 rest]; [reflexivity|].
  set (fm' := _merge_config_settings fm config_manager).
  assert (Hres : result = (filtered_packets (filter_loop fm' (enumerate (p0 :: rest))), fm'))
    by reflexivity.
  rewrite Hres. cbn [fst snd].
  set (output := filtered_packets (filter_loop fm' (enumerate (p0 :: rest)))).
  destruct output as [|q0 out] eqn:Eout; [reflexivity|].
  assert (Hm : _merge_config_settings fm' config_manager = fm') by apply merge_idempotent.
  unfold apply_filters. rewrite Hm.
  f_equal. unfold filter_loop at 1.
  destruct (filter_loop_output_inv fm' (enumerate (p0 :: rest))) as (_ & Hc & Hch).
  fold output in Hc, Hch. rewrite Eout in Hc, Hch.
  rewrite filter_loop_keeps_chain.
  - cbn [filtered_packets]. rewrite enumerate_snd. reflexivity.
  - exact Hdrops.
  - rewrite enumerate_snd. exact Hc.
  - rewrite enumerate_snd. exact Hch.
Qed.

Lemma apply_filters_idempotent_witness :
  let fm := {| time_settings := mkTimeSettings (Some 2000) (Some false);
               channel_limits := ∅; manual_drops := ∅ |} in
  let result := apply_filters fm (packet_at <$> [1000; 1500; 50000; 2000]) no_config in
  apply_filters result.2 result.1 no_config = result.
Proof.
  apply (apply_filters_idempotent
           {| time_settings := mkTimeSettings (Some 2000) (Some false);
              channel_limits := ∅; manual_drops := ∅ |}
           no_config (packet_at <$> [1000; 1500; 50000; 2000])).
  reflexivity.
Defined.

(** ** More on the manual drop list *)

Ltac unions :=
  apply set_eq; intros ?;
  repeat rewrite elem_of_union; repeat rewrite elem_of_empty; tauto.

Lemma split_nonempty sep s : split sep s <> [].
Proof.
  destruct s as [|c s]; cbn [split]; [discriminate|].
  destruct (Ascii.eqb c sep); [discriminate|]. destruct (split sep s); discriminate.
Qed.

Lemma split_app_sep sep s1 s2 :
  split sep (s1 ++ String sep s2) = (split sep s1 ++ split sep s2)%list.
Proof.
  induction s1 as [|c s1 IH].
  - rewrite append_nil. cbn [split]. rewrite Ascii.eqb_refl. reflexivity.
  - rewrite append_cons. cbn [split]. destruct (Ascii.eqb c sep).
    + rewrite IH. reflexivity.
    + rewrite IH. pose proof (split_nonempty sep s1) as Hne.
      destruct (split sep s1) as [|cur more]; [contradiction|]. reflexivity.
Qed.

Lemma parse_item_union drops item :
  parse_item drops item = drops ∪ parse_item ∅ item.
Proof.
  unfold parse_item. cbv zeta.
  destruct (strip item) as [|c rest]; [unions|].
  destruct (contains "-" (String c rest)).
  - destruct (split_once "-" (String c rest)) as [start end_].
    destruct (py_int (strip start)); [|unions].
    destruct (py_int (strip end_)); unions.
  - destruct (py_int (String c rest)); unions.
Qed.

Lemma fold_parse_item_union items : forall drops,
  fold_left parse_item items drops = drops ∪ fold_left parse_item items ∅.
Proof.
  induction items as [|item rest IH]; intros drops; cbn [fold_left].
  - unions.
  - rewrite IH, (IH (parse_item ∅ item)), (parse_item_union drops item). unions.
Qed.

(** X15.  The drop list is read token by token and the results are united:
    the set for two lists joined by a comma is the union of their sets, so
    the order of the tokens does not matter and a repeated token changes
    nothing. *)
Theorem parse_packet_list_comma (s1 s2 : string) :
  _parse_packet_list (s1 ++ "," ++ s2) = _parse_packet_list s1 ∪ _parse_packet_list s2
  /\ _parse_packet_list (s1 ++ "," ++ s2) = _parse_packet_list (s2 ++ "," ++ s1)
  /\ _parse_packet_list (s1 ++ "," ++ s1) = _parse_packet_list s1.
Proof.
  assert (Hu : forall a b,
             _parse_packet_list (a ++ "," ++ b) = _parse_packet_list a ∪ _parse_packet_list b).
  { intros a b. unfold _parse_packet_list.
    change (a ++ "," ++ b)%string with (a ++ String "," b)%string.
    rewrite split_app_sep, fold_left_app, fold_parse_item_union. reflexivity. }
  split; [apply Hu|]. split.
  - rewrite !Hu. unions.
  - rewrite Hu. unions.
Qed.

Lemma digit_of_nonneg c d : digit_of c = Some d -> 0 <= d.
Proof.
  unfold digit_of. cbv zeta.
  destruct (Nat.leb_spec 48 (nat_of_ascii c)); cbn [andb]; [|discriminate].
  destruct (_ <=? _)%nat; [|discriminate]. intros [= <-]. lia.
Qed.

Lemma parse_digits_nonneg s : forall acc after_digit n,
  0 <= acc -> parse_digits acc after_digit s = Some n -> 0 <= n.
Proof.
  induction s as [|c s IH]; intros acc after_digit n Hacc; cbn [parse_digits].
  - destruct after_digit; [intros [= <-]; exact Hacc|discriminate].
  - destruct (digit_of c) as [d|] eqn:Ed.
    + apply digit_of_nonneg in Ed. apply IH. lia.
    + destruct (Ascii.eqb c "_" && after_digit); [apply IH, Hacc|discriminate].
Qed.

Lemma contains_lstrip sep s : contains sep (lstrip s) = true -> contains sep s = true.
Proof.
  induction s as [|c s IH]; cbn [lstrip contains]; [trivial|].
  destruct (is_space c); [|trivial]. intros H. rewrite (IH H). apply orb_true_r.
Qed.

Lemma contains_rstrip sep s : contains sep (rstrip s) = true -> contains sep s = true.
Proof.
  induction s as [|c s IH]; cbn [rstrip contains]; [trivial|].
  destruct (rstrip s) as [|c' s'] eqn:E.
  - destruct (is_space c); cbn [contains]; [discriminate|].
    rewrite orb_false_r. intros ->. reflexivity.
  - cbn [contains]. intros H. apply orb_true_iff in H as [->|H]; [reflexivity|].
    rewrite (IH H). apply orb_true_r.
Qed.

Lemma contains_strip sep s : contains sep s = false -> contains sep (strip s) = false.
Proof.
  intros H. destruct (contains sep (strip s)) eqn:E; [|reflexivity].
  apply contains_rstrip, contains_lstrip in E. congruence.
Qed.

Lemma parse_numeral_nonneg body n : parse_numeral body = Some n -> 0 <= n.
Proof.
  unfold parse_numeral. destruct (MAX_STR_DIGITS <? count_digits body); [discriminate|].
  apply parse_digits_nonneg. lia.
Qed.

Lemma py_int_nonneg s n : contains "-" s = false -> py_int s = Some n -> 0 <= n.
Proof.
  intros Hno. apply contains_strip in Hno. rewrite py_int_cases.
  destruct (strip s) as [|c rest]; [discriminate|]. cbn [contains] in Hno.
  apply orb_false_iff in Hno as [Hc _]. rewrite Hc.
  destruct (Ascii.eqb c "+"); apply parse_numeral_nonneg.
Qed.

Lemma split_once_before sep s : contains sep (split_once sep s).1 = false.
Proof.
  induction s as [|c s IH]; cbn [split_once]; [reflexivity|].
  destruct (Ascii.eqb c sep) eqn:E; [reflexivity|].
  destruct (split_once sep s) as [before after]. cbn [fst contains] in *.
  rewrite E, IH. reflexivity.
Qed.

Lemma parse_item_nonneg drops item :
  (forall z, z ∈ drops -> 0 <= z) -> forall z, z ∈ parse_item drops item -> 0 <= z.
Proof.
  intros Hd z. unfold parse_item. cbv zeta.
  destruct (strip item) as [|c rest] eqn:Es; [apply Hd|].
  destruct (contains "-" (String c rest)) eqn:Ec.
  - pose proof (split_once_before "-" (String c rest)) as Hb.
    destruct (split_once "-" (String c rest)) as [start end_]. cbn [fst] in Hb.
    destruct (py_int (strip start)) as [a|] eqn:Ea; [|apply Hd].
    destruct (py_int (strip end_)) as [b|]; [|apply Hd].
    rewrite elem_of_union, elem_of_list_to_set, elem_of_py_range2.
    intros [Hz|Hz]; [apply Hd, Hz|].
    assert (0 <= a); [|lia].
    apply (py_int_nonneg (strip start)); [apply contains_strip, Hb|exact Ea].
  - destruct (py_int (String c rest)) as [n|] eqn:En; [|apply Hd].
    rewrite elem_of_union, elem_of_singleton.
    intros [Hz| ->]; [apply Hd, Hz|]. exact (py_int_nonneg _ _ Ec En).
Qed.

(** X16.  Every index the drop list produces is non-negative, whatever the
    text: a token such as "-3" is taken for a range with an empty start and
    skipped, so no negative position can be excluded. *)
Theorem parse_packet_list_nonneg (drop_list : string) (z : Z) :
  z ∈ _parse_packet_list drop_list -> 0 <= z.
Proof.
  unfold _parse_packet_list.
  assert (H : forall items drops,
             (forall x, x ∈ drops -> 0 <= x) ->
             forall x, x ∈ fold_left parse_item items drops -> 0 <= x).
  { induction items as [|item rest IH]; intros drops Hd; cbn [fold_left]; [exact Hd|].
    apply IH. apply parse_item_nonneg, Hd. }
  apply H. intros x Hx. apply not_elem_of_empty in Hx. contradiction.
Qed.

Lemma parse_packet_list_nonneg_witness : 6 ∈ _parse_packet_list "2,5-7" /\ 0 <= 6.
Proof.
  split; [vm_compute; reflexivity|].
  apply (parse_packet_list_nonneg "2,5-7" 6). vm_compute. reflexivity.
Defined.

Lemma lstrip_all_space ws : all_space ws = true -> lstrip ws = EmptyString.
Proof.
  induction ws as [|c ws IH]; cbn [all_space lstrip]; [reflexivity|].
  intros H. apply andb_true_iff in H as [-> H]. exact (IH H).
Qed.

Lemma lstrip_space_app ws s : all_space ws = true -> lstrip (ws ++ s) = lstrip s.
Proof.
  induction ws as [|c ws IH]; intros H.
  - rewrite append_nil. reflexivity.
  - rewrite append_cons. cbn [all_space lstrip] in *.
    apply andb_true_iff in H as [-> H]. exact (IH H).
Qed.

Lemma rstrip_all_space ws : all_space ws = true -> rstrip ws = EmptyString.
Proof.
  induction ws as [|c ws IH]; cbn [all_space rstrip]; [reflexivity|].
  intros H. apply andb_true_iff in H as [Hc H]. rewrite (IH H), Hc. reflexivity.
Qed.

Lemma rstrip_app_space s ws : all_space ws = true -> rstrip (s ++ ws) = rstrip s.
Proof.
  intros H. induction s as [|c s IH].
  - rewrite append_nil. apply rstrip_all_space, H.
  - rewrite append_cons. cbn [rstrip]. rewrite IH. reflexivity.
Qed.

Lemma strip_app_space s ws : all_space ws = true -> strip (s ++ ws) = strip s.
Proof.
  intros H. unfold strip. induction s as [|c s IH].
  - rewrite append_nil. rewrite (lstrip_all_space ws H). reflexivity.
  - rewrite append_cons. cbn [lstrip]. destruct (is_space c); [exact IH|].
    rewrite <- append_cons. apply rstrip_app_space, H.
Qed.

Lemma strip_padding ws1 s ws2 :
  all_space ws1 = true -> all_space ws2 = true -> strip (ws1 ++ s ++ ws2) = strip s.
Proof.
  intros H1 H2. unfold strip at 1. rewrite lstrip_space_app by exact H1.
  exact (strip_app_space s ws2 H2).
Qed.

Lemma all_space_no_comma ws : all_space ws = true -> contains "," ws = false.
Proof.
  induction ws as [|c ws IH]; cbn [all_space contains]; [reflexivity|].
  intros H. apply andb_true_iff in H as [Hc H]. rewrite (IH H), orb_false_r.
  destruct (Ascii.eqb_spec c ",") as [->|]; [discriminate|reflexivity].
Qed.

Lemma parse_item_strip drops a b : strip a = strip b -> parse_item drops a = parse_item drops b.
Proof. intros H. unfold parse_item. rewrite H. reflexivity. Qed.

(** X17.  Whitespace around a token of the drop list is ignored: padding a
    comma-free text with whitespace on either side does not change the set
    it stands for. *)
Theorem parse_packet_list_padding (ws1 ws2 text : string) :
  all_space ws1 = true -> all_space ws2 = true -> contains "," text = false ->
  _parse_packet_list (ws1 ++ text ++ ws2) = _parse_packet_list text.
Proof.
  intros H1 H2 Hc. unfold _parse_packet_list.
  rewrite (split_no_sep "," text Hc), split_no_sep.
  - cbn [fold_left]. apply parse_item_strip, strip_padding; assumption.
  - rewrite !contains_append, Hc, (all_space_no_comma ws1 H1), (all_space_no_comma ws2 H2).
    reflexivity.
Qed.

Lemma parse_packet_list_padding_witness :
  _parse_packet_list ("  " ++ "5-7" ++ " ") = _parse_packet_list "5-7".
Proof.
  apply (parse_packet_list_padding "  " " " "5-7"); reflexivity.
Defined.

(** ** BitWriter *)

Lemma buf_bit_insert (bytes : list byte) (i : nat) b j :
  (i < length bytes)%nat ->
  buf_bit (<[i:=b]> bytes) j
  = if decide (Z.to_nat (j / 8) = i) then Z.testbit (byte_val b) (j mod 8)
    else buf_bit bytes j.
Proof.
  intros Hi. unfold buf_bit. destruct (decide (Z.to_nat (j / 8) = i)) as [->|Hne].
  - rewrite list_lookup_insert_eq by exact Hi. reflexivity.
  - rewrite list_lookup_insert_ne by congruence. reflexivity.
Qed.

Lemma mod256_small_bits x : 0 <= x -> (forall i, 8 <= i -> Z.testbit x i = false) -> x < 256.
Proof.
  intros Hx Hhi.
  assert (Hm : x mod 2 ^ 8 = x).
  { apply Z.bits_inj'; intros i Hi. destruct (Z_lt_le_dec i 8).
    - apply Z.mod_pow2_bits_low. lia.
    - rewrite Z.mod_pow2_bits_high, Hhi by lia. reflexivity. }
  pose proof (Z.mod_pos_bound x (2 ^ 8) ltac:(lia)) as Hb. rewrite Hm in Hb.
  change (2 ^ 8) with 256 in Hb. lia.
Qed.

Lemma byte_val_high b i : 8 <= i -> Z.testbit (byte_val b) i = false.
Proof.
  intros Hi. pose proof (byte_val_range b) as Hr.
  rewrite <- (Z.mod_small (byte_val b) (2 ^ 8)) by (change (2 ^ 8) with 256; lia).
  apply Z.mod_pow2_bits_high. lia.
Qed.

(** The byte the writer stores: it is a byte, and it is the old byte with
    the chunk's bits set on top. *)
Lemma stored_byte old x :
  let stored := Z.lor (byte_val old) (Z.land x 0xFF) in
  exists b, (if (0 <=? stored) && (stored <? 256) then Byte.of_N (Z.to_N stored) else None)
            = Some b
            /\ byte_val b = stored.
Proof.
  intros stored. pose proof (byte_val_range old) as Hr.
  assert (Hland : 0 <= Z.land x 0xFF) by (apply Z.land_nonneg; right; lia).
  assert (Hnn : 0 <= stored) by (apply Z.lor_nonneg; lia).
  assert (Hlt : stored < 256).
  { apply mod256_small_bits; [exact Hnn|]. intros i Hi. unfold stored.
    rewrite Z.lor_spec, Z.land_spec, byte_val_high by lia.
    change 0xFF with (Z.ones 8). rewrite Z.testbit_ones_nonneg by lia.
    destruct (Z.ltb_spec i 8); [lia|]. rewrite andb_false_r. reflexivity. }
  destruct (Z.leb_spec 0 stored); [|lia]. destruct (Z.ltb_spec stored 256); [|lia].
  cbn [andb]. destruct (Byte.of_N (Z.to_N stored)) as [b|] eqn:E.
  - exists b. split; [reflexivity|]. apply Byte.to_of_N in E. unfold byte_val. lia.
  - apply Byte.of_N_None_iff in E. lia.
Qed.

Lemma stored_bits old v bib tw jm :
  0 <= bib -> 0 <= tw -> 0 <= jm < 8 ->
  Z.testbit (Z.lor (byte_val old)
                   (Z.land (Z.shiftl (Z.land v (Z.shiftl 1 tw - 1)) bib) 0xFF)) jm
  = Z.testbit (byte_val old) jm || value_bit bib tw v jm.
Proof.
  intros Hbib Htw Hjm. unfold value_bit.
  rewrite Z.lor_spec, Z.land_spec. change 0xFF with (Z.ones 8).
  rewrite Z.testbit_ones_nonneg by lia.
  destruct (Z.ltb_spec jm 8); [|lia]. rewrite andb_true_r.
  rewrite Z.shiftl_spec by lia. f_equal.
  destruct (Z.leb_spec bib jm) as [Hle|Hgt]; cbn [andb].
  - rewrite mask_ones, Z.land_spec, Z.testbit_ones_nonneg by lia.
    destruct (Z.ltb_spec (jm - bib) tw), (Z.ltb_spec jm (bib + tw)); try lia;
      cbn [andb]; first [apply andb_true_r|apply andb_false_r].
  - apply Z.testbit_neg_r. lia.
Qed.

Lemma value_bit_empty pos value j : value_bit pos 0 value j = false.
Proof.
  unfold value_bit. destruct (Z.leb_spec pos j), (Z.ltb_spec j (pos + 0)); try lia; reflexivity.
Qed.

Lemma value_bit_split pos tw rest v j :
  0 <= tw -> 0 <= rest ->
  value_bit pos tw v j || value_bit (pos + tw) rest (Z.shiftr v tw) j
  = value_bit pos (tw + rest) v j.
Proof.
  intros Htw Hrest. unfold value_bit.
  destruct (Z.leb_spec pos j), (Z.ltb_spec j (pos + tw)), (Z.leb_spec (pos + tw) j),
           (Z.ltb_spec j (pos + tw + rest)), (Z.ltb_spec j (pos + (tw + rest)));
    try lia; cbn [andb orb]; rewrite ?orb_false_r; try reflexivity.
  rewrite Z.shiftr_spec by lia. f_equal. lia.
Qed.

(** The loop of [write_bits]: it returns, moves the cursor by [remaining],
    keeps the length of the buffer, and sets (never clears) the bits of [v]
    in place. *)
Lemma write_loop_correct budget : forall v remaining w,
  writer_wf w -> 0 <= remaining -> (Z.to_nat remaining <= budget)%nat ->
  bit_pos w + remaining <= size_bits w ->
  exists bytes,
    write_loop budget v remaining w
    = (Returns tt, {| buf := bytes; bit_pos := bit_pos w + remaining;
                      size_bits := size_bits w |})
    /\ length bytes = length (buf w)
    /\ forall j, 0 <= j ->
         buf_bit bytes j = buf_bit (buf w) j || value_bit (bit_pos w) remaining v j.
Proof.
  induction budget as [|budget IH]; intros v remaining w [Hsize Hpos] Hrem Hbud Hfit.
  - assert (remaining = 0) as -> by lia. exists (buf w). cbn [write_loop Z.eqb].
    rewrite Z.add_0_r. split; [destruct w; reflexivity|]. split; [reflexivity|].
    intros j _. rewrite value_bit_empty, orb_false_r. reflexivity.
  - cbn [write_loop]. destruct (Z.eqb_spec remaining 0) as [->|Hnz].
    { exists (buf w). rewrite Z.add_0_r. split; [destruct w; reflexivity|].
      split; [reflexivity|]. intros j _. rewrite value_bit_empty, orb_false_r. reflexivity. }
    cbv zeta.
    set (pos := bit_pos w) in *.
    set (bib := pos mod 8). set (tw := Z.min (8 - bib) remaining).
    assert (Hbib : 0 <= bib < 8) by (apply Z.mod_pos_bound; lia).
    assert (Htw : 1 <= tw <= remaining /\ tw <= 8 - bib) by (unfold tw; lia).
    assert (Hq : 0 <= pos / 8) by (apply Z.div_pos; lia).
    assert (Hdm : pos = 8 * (pos / 8) + bib) by (apply Z.div_mod; lia).
    assert (Hidx : (Z.to_nat (pos / 8) < length (buf w))%nat) by lia.
    rewrite py_index_nonneg by exact Hq.
    destruct (lookup_lt_is_Some_2 _ _ Hidx) as [old Hold]. rewrite Hold.
    destruct (stored_byte old (Z.shiftl (Z.land v (Z.shiftl 1 tw - 1)) bib))
      as (b & Hb & Hbv).
    cbv zeta in Hb. rewrite Hb.
    set (w1 := {| buf := py_setitem (buf w) (pos / 8) b; bit_pos := pos + tw;
                  size_bits := size_bits w |}).
    assert (Hbuf1 : buf w1 = <[Z.to_nat (pos / 8) := b]> (buf w)).
    { unfold w1, py_setitem. cbn [buf]. destruct (Z.leb_spec 0 (pos / 8)); [reflexivity|lia]. }
    assert (Hlen1 : length (buf w1) = length (buf w)) by (rewrite Hbuf1; apply length_insert).
    destruct (IH (Z.shiftr v tw) (remaining - tw) w1) as (bytes & Hrun & Hlen & Hbits).
    { split; [cbn [size_bits]; rewrite Hlen1; exact Hsize|].
      unfold w1. cbn [bit_pos size_bits]. lia. }
    { lia. } { lia. } { unfold w1. cbn [bit_pos size_bits]. lia. }
    exists bytes. split; [|split].
    + rewrite Hrun. unfold w1. cbn [bit_pos size_bits]. do 2 f_equal. lia.
    + rewrite Hlen, Hlen1. reflexivity.
    + intros j Hj. rewrite (Hbits j Hj). unfold w1 at 2. cbn [bit_pos].
      replace remaining with (tw + (remaining - tw)) at 2 by lia.
      rewrite <- value_bit_split by lia. rewrite orb_assoc. f_equal.
      rewrite Hbuf1, buf_bit_insert by exact Hidx.
      destruct (decide (Z.to_nat (j / 8) = Z.to_nat (pos / 8))) as [Hsame|Hdiff].
      * assert (Hj8 : j / 8 = pos / 8) by (apply Z2Nat.inj; try apply Z.div_pos; lia).
        assert (Hjm : 0 <= j mod 8 < 8) by (apply Z.mod_pos_bound; lia).
        assert (Hjdm : j = 8 * (j / 8) + j mod 8) by (apply Z.div_mod; lia).
        rewrite Hbv, stored_bits by lia.
        unfold buf_bit. rewrite Hsame, Hold. f_equal.
        unfold value_bit.
        replace (j mod 8 - bib) with (j - pos) by lia.
        destruct (Z.leb_spec bib (j mod 8)), (Z.leb_spec pos j); try lia;
          destruct (Z.ltb_spec (j mod 8) (bib + tw)), (Z.ltb_spec j (pos + tw)); try lia;
          reflexivity.
      * unfold value_bit.
        destruct (Z.leb_spec pos j), (Z.ltb_spec j (pos + tw)); cbn [andb];
          rewrite ?orb_false_r; try reflexivity.
        exfalso. apply Hdiff. f_equal. Z.div_mod_to_equations. lia.
Qed.

Lemma value_bit_masked pos nbits value j :
  0 <= nbits ->
  value_bit pos nbits (Z.land value (Z.shiftl 1 nbits - 1)) j = value_bit pos nbits value j.
Proof.
  intros Hn. unfold value_bit.
  destruct (Z.leb_spec pos j), (Z.ltb_spec j (pos + nbits)); cbn [andb]; try reflexivity.
  rewrite mask_ones, Z.land_spec, Z.testbit_ones_nonneg by lia.
  destruct (Z.ltb_spec (j - pos) nbits); [apply andb_true_r|lia].
Qed.

Lemma write_bits_correct value nbits w :
  writer_wf w -> 0 <= nbits -> bit_pos w + nbits <= size_bits w ->
  exists bytes,
    write_bits value nbits w
    = (Returns tt, {| buf := bytes; bit_pos := bit_pos w + nbits; size_bits := size_bits w |})
    /\ length bytes = length (buf w)
    /\ forall j, 0 <= j ->
         buf_bit bytes j = buf_bit (buf w) j || value_bit (bit_pos w) nbits value j.
Proof.
  intros Hwf Hn Hfit. unfold write_bits.
  destruct (Z.eqb_spec nbits 0) as [->|Hnz].
  - exists (buf w). rewrite Z.add_0_r. split; [destruct w; reflexivity|].
    split; [reflexivity|]. intros j _. rewrite value_bit_empty, orb_false_r. reflexivity.
  - destruct (Z.ltb_spec nbits 0); [lia|].
    destruct (Z.ltb_spec (size_bits w) (bit_pos w + nbits)); [lia|]. cbv zeta.
    destruct (write_loop_correct (Z.to_nat nbits)
                (if nbits <? 64 then Z.land value (Z.shiftl 1 nbits - 1) else value)
                nbits w Hwf Hn ltac:(lia) Hfit) as (bytes & Hrun & Hlen & Hbits).
    exists bytes. split; [exact Hrun|]. split; [exact Hlen|].
    intros j Hj. rewrite (Hbits j Hj). f_equal.
    destruct (nbits <? 64); [apply value_bit_masked; lia|reflexivity].
Qed.

(** X18.  On a well-formed writer with room for [nbits >= 0] bits,
    [write_bits] returns, keeps the length of the buffer and moves the
    cursor by exactly [nbits]; afterwards a stream bit is set exactly when
    it was set before or it is, inside the [nbits] positions from the old
    cursor on, the corresponding bit of [value].  So bits outside those
    positions are untouched, and bits inside are merged in, never cleared:
    writing over a region that already holds data does not overwrite it. *)
Theorem write_bits_sets_bits (value nbits : Z) (w : BitWriter) :
  writer_wf w -> 0 <= nbits -> bit_pos w + nbits <= size_bits w ->
  exists w',
    write_bits value nbits w = (Returns tt, w')
    /\ writer_wf w'
    /\ bit_pos w' = bit_pos w + nbits
    /\ length (buf w') = length (buf w)
    /\ (forall j, 0 <= j ->
          buf_bit (buf w') j
          = buf_bit (buf w) j
            || ((bit_pos w <=? j) && (j <? bit_pos w + nbits)
                && Z.testbit value (j - bit_pos w)))
    /\ (forall j, 0 <= j -> buf_bit (buf w) j = true -> buf_bit (buf w') j = true)
    /\ (forall j, 0 <= j < bit_pos w \/ bit_pos w + nbits <= j ->
          buf_bit (buf w') j = buf_bit (buf w) j).
Proof.
  intros Hwf Hn Hfit.
  destruct (write_bits_correct value nbits w Hwf Hn Hfit) as (bytes & Hrun & Hlen & Hbits).
  eexists. split; [exact Hrun|]. cbn [buf bit_pos size_bits].
  destruct Hwf as [Hsize Hpos].
  split; [split; cbn [buf bit_pos size_bits]; [rewrite Hlen; exact Hsize|lia]|].
  split; [reflexivity|]. split; [exact Hlen|]. split; [exact Hbits|]. split.
  - intros j Hj Hset. rewrite (Hbits j Hj), Hset. reflexivity.
  - intros j Hj. rewrite (Hbits j ltac:(lia)). unfold value_bit.
    destruct (Z.leb_spec (bit_pos w) j), (Z.ltb_spec j (bit_pos w + nbits)); try lia;
      cbn [andb]; apply orb_false_r.
Qed.

Lemma write_bits_sets_bits_witness :
  exists w',
    let w := {| buf := [x0f; x00; x00]%byte; bit_pos := 6; size_bits := 24 |} in
    write_bits 5 7 w = (Returns tt, w')
    /\ writer_wf w'
    /\ bit_pos w' = bit_pos w + 7
    /\ length (buf w') = length (buf w)
    /\ (forall j, 0 <= j ->
          buf_bit (buf w') j
          = buf_bit (buf w) j
            || ((bit_pos w <=? j) && (j <? bit_pos w + 7) && Z.testbit 5 (j - bit_pos w)))
    /\ (forall j, 0 <= j -> buf_bit (buf w) j = true -> buf_bit (buf w') j = true)
    /\ (forall j, 0 <= j < bit_pos w \/ bit_pos w + 7 <= j ->
          buf_bit (buf w') j = buf_bit (buf w) j).
Proof.
  apply (write_bits_sets_bits 5 7 {| buf := [x0f; x00; x00]%byte; bit_pos := 6; size_bits := 24 |}).
  - unfold writer_wf; simpl; lia.
  - lia.
  - simpl; lia.
Defined.

(** X19.  What the writer writes, the reader reads: after [write_bits value
    nbits] into positions that read as zero, reading [nbits] bits from the
    writer's bytes at the old cursor returns the low [nbits] bits of
    [value], that is [value mod 2^nbits] (also for a negative [value]), and
    ends at the writer's new cursor. *)
Theorem write_read_round_trip (value nbits : Z) (w : BitWriter) :
  writer_wf w -> 0 <= nbits -> bit_pos w + nbits <= size_bits w ->
  bits_value (buf w) (bit_pos w) (Z.to_nat nbits) = 0 ->
  exists w',
    write_bits value nbits w = (Returns tt, w')
    /\ read_bits nbits {| _data := get_bytes w'; _bit_pos := bit_pos w;
                          _max_bits := size_bits w |}
       = (Returns (value mod 2 ^ nbits),
          {| _data := get_bytes w'; _bit_pos := bit_pos w'; _max_bits := size_bits w' |}).
Proof.
  intros Hwf Hn Hfit Hzero.
  destruct (write_bits_correct value nbits w Hwf Hn Hfit) as (bytes & Hrun & Hlen & Hbits).
  eexists. split; [exact Hrun|]. unfold get_bytes. cbn [buf bit_pos size_bits].
  destruct Hwf as [Hsize Hpos].
  rewrite read_bits_ok.
  - unfold advance. cbn [_data _bit_pos _max_bits]. f_equal. f_equal.
    apply Z.bits_inj'; intros i Hi.
    rewrite bits_value_testbit, Z2Nat.id by lia.
    destruct (Z.ltb_spec i nbits) as [Hlt|Hge]; cbn [andb].
    + rewrite Z.mod_pow2_bits_low by lia. rewrite Hbits by lia.
      assert (Hold : buf_bit (buf w) (bit_pos w + i) = false).
      { pose proof (bits_value_testbit (buf w) (bit_pos w) (Z.to_nat nbits) i Hi) as Ht.
        rewrite Hzero, Z.bits_0, Z2Nat.id in Ht by lia.
        destruct (Z.ltb_spec i nbits); [|lia]. symmetry. exact Ht. }
      rewrite Hold. unfold value_bit.
      destruct (Z.leb_spec (bit_pos w) (bit_pos w + i)); [|lia].
      destruct (Z.ltb_spec (bit_pos w + i) (bit_pos w + nbits)); [|lia].
      cbn [andb orb]. f_equal. lia.
    + rewrite Z.mod_pow2_bits_high by lia. reflexivity.
  - unfold reader_wf. cbn [_data _bit_pos _max_bits]. rewrite Hlen. lia.
  - exact Hn.
  - unfold bits_left. cbn [_bit_pos _max_bits]. lia.
Qed.

Lemma write_read_round_trip_witness :
  exists w',
    let w := {| buf := [x0f; x00; x00]%byte; bit_pos := 5; size_bits := 24 |} in
    write_bits (-3) 14 w = (Returns tt, w')
    /\ read_bits 14 {| _data := get_bytes w'; _bit_pos := bit_pos w; _max_bits := size_bits w |}
       = (Returns ((-3) mod 2 ^ 14),
          {| _data := get_bytes w'; _bit_pos := bit_pos w'; _max_bits := size_bits w' |}).
Proof.
  apply (write_read_round_trip (-3) 14
           {| buf := [x0f; x00; x00]%byte; bit_pos := 5; size_bits := 24 |}).
  - unfold writer_wf; simpl; lia.
  - lia.
  - simpl; lia.
  - vm_compute. reflexivity.
Defined.

(** X20.  [write_bits] refuses a negative width and a write that would run
    past the end of the buffer with a [ValueError], and then leaves the
    writer exactly as it was; a zero width is a no-op.  On a well-formed
    writer there is no other way for it to fail: it returns exactly when the
    width is non-negative and the bits fit. *)
Theorem write_bits_failures (value nbits : Z) (w : BitWriter) :
  (nbits < 0 -> write_bits value nbits w = (Raises (ValueError NegativeWidth), w))
  /\ (0 < nbits -> size_bits w < bit_pos w + nbits ->
      write_bits value nbits w = (Raises (ValueError (NotEnoughSpace nbits (bit_pos w))), w))
  /\ (nbits = 0 -> write_bits value nbits w = (Returns tt, w))
  /\ (writer_wf w ->
      ((exists w', write_bits value nbits w = (Returns tt, w'))
       <-> 0 <= nbits /\ bit_pos w + nbits <= size_bits w)).
Proof.
  split; [|split; [|split]].
  - intros Hneg. unfold write_bits. destruct (Z.eqb_spec nbits 0); [lia|].
    destruct (Z.ltb_spec nbits 0); [reflexivity|lia].
  - intros Hpos Hover. unfold write_bits. destruct (Z.eqb_spec nbits 0); [lia|].
    destruct (Z.ltb_spec nbits 0); [lia|].
    destruct (Z.ltb_spec (size_bits w) (bit_pos w + nbits)); [reflexivity|lia].
  - intros ->. reflexivity.
  - intros Hwf. split.
    + intros [w' Hrun]. unfold write_bits in Hrun. destruct Hwf as [_ Hpos].
      destruct (Z.eqb_spec nbits 0) as [Hz|Hnz]; [lia|].
      destruct (Z.ltb_spec nbits 0); [discriminate|].
      destruct (Z.ltb_spec (size_bits w) (bit_pos w + nbits)); [discriminate|lia].
    + intros [Hn Hfit].
      destruct (write_bits_correct value nbits w Hwf Hn Hfit) as (bytes & Hrun & _).
      eauto.
Qed.

(** ** The generator: one write after the other *)

Lemma bind_ext_both {S A B} (m1 m2 : stateful S A) (k1 k2 : A -> stateful S B) s :
  (forall s, m1 s = m2 s) -> (forall a s, k1 a s = k2 a s) -> bind m1 k1 s = bind m2 k2 s.
Proof.
  intros Hm Hk. unfold bind. rewrite Hm. destruct (m2 s) as [[] ?]; auto.
Qed.

Lemma write_fields_app fs1 fs2 w :
  write_fields (fs1 ++ fs2) w = bind (write_fields fs1) (fun _ => write_fields fs2) w.
Proof.
  revert w. induction fs1 as [|[v n] rest IH]; intros w; [reflexivity|].
  cbn [app write_fields]. unfold bind in *.
  destruct (write_bits v n w) as [[] w1]; try reflexivity. apply IH.
Qed.

Lemma write_each_fields f n vals w :
  write_each f n vals w = write_fields (map (fun v => (f v, n)) vals) w.
Proof.
  revert w. induction vals as [|v rest IH]; intros w; [reflexivity|].
  cbn [write_each map write_fields]. apply bind_ext_both; auto.
Qed.

Lemma write_bits_field v n w : write_bits v n w = write_fields [(v, n)] w.
Proof.
  cbn [write_fields]. unfold bind, ret.
  destruct (write_bits v n w) as [[[]| |] w1]; reflexivity.
Qed.

Lemma pack_fields_fields time_ms packet_id d w :
  pack_fields time_ms packet_id d w = write_fields (generator_fields time_ms packet_id d) w.
Proof.
  unfold pack_fields, generator_fields. cbv zeta. cbn [app write_fields].
  apply bind_ext_both; [reflexivity|intros _ s1].
  apply bind_ext_both; [reflexivity|intros _ s2].
  apply bind_ext_both; [reflexivity|intros _ s3].
  rewrite write_fields_app. apply bind_ext_both; [apply write_each_fields|intros _ s4].
  rewrite write_fields_app. apply bind_ext_both; [apply write_each_fields|intros _ s5].
  rewrite write_fields_app. apply bind_ext_both; [apply write_each_fields|intros _ s6].
  cbn [app write_fields].
  apply bind_ext_both; [reflexivity|intros _ s7].
  apply bind_ext_both; [reflexivity|intros _ s8].
  apply bind_ext_both; [reflexivity|intros _ s9].
  rewrite write_fields_app. apply bind_ext_both; [apply write_each_fields|intros _ s10].
  apply write_bits_field.
Qed.

Lemma buf_bit_zeros n j : buf_bit (repeat x00%byte n) j = false.
Proof.
  unfold buf_bit. destruct (repeat x00%byte n !! Z.to_nat (j / 8)) as [b|] eqn:E; [|reflexivity].
  apply list_elem_of_lookup_2, list_elem_of_In, repeat_spec in E. subst b.
  apply Z.bits_0.
Qed.

Lemma bits_value_mod bytes pos n v :
  0 <= n -> (forall i, 0 <= i < n -> buf_bit bytes (pos + i) = Z.testbit v i) ->
  bits_value bytes pos (Z.to_nat n) = v mod 2 ^ n.
Proof.
  intros Hn Hbits. apply Z.bits_inj'; intros i Hi.
  rewrite bits_value_testbit, Z2Nat.id by lia.
  destruct (Z.ltb_spec i n); cbn [andb].
  - rewrite Z.mod_pow2_bits_low by lia. apply Hbits. lia.
  - rewrite Z.mod_pow2_bits_high by lia. reflexivity.
Qed.

Lemma bits_value_bit bytes pos n i :
  0 <= i < Z.of_nat n -> buf_bit bytes (pos + i) = Z.testbit (bits_value bytes pos n) i.
Proof.
  intros Hi. rewrite bits_value_testbit by lia.
  destruct (Z.ltb_spec i (Z.of_nat n)); [reflexivity|lia].
Qed.

Lemma widths_nonneg (fields : list (Z * Z)) :
  Forall (fun f => 0 <= f.2) fields -> 0 <= foldr Z.add 0 (fields.*2).
Proof.
  induction 1 as [|[v n] rest Hn _ IH]; cbn [fmap list_fmap foldr snd] in *; lia.
Qed.

(** Writing a list of fields into the zero tail of a buffer: every field
    can be read back at its offset. *)
Lemma write_fields_correct fields : forall w,
  writer_wf w -> Forall (fun f => 0 <= f.2) fields ->
  bit_pos w + foldr Z.add 0 (fields.*2) <= size_bits w ->
  (forall j, bit_pos w <= j -> buf_bit (buf w) j = false) ->
  exists bytes,
    write_fields fields w
    = (Returns tt, {| buf := bytes; bit_pos := bit_pos w + foldr Z.add 0 (fields.*2);
                      size_bits := size_bits w |})
    /\ length bytes = length (buf w)
    /\ (forall j, bit_pos w + foldr Z.add 0 (fields.*2) <= j -> buf_bit bytes j = false)
    /\ (forall j, 0 <= j < bit_pos w -> buf_bit bytes j = buf_bit (buf w) j)
    /\ (forall k v n, fields !! k = Some (v, n) ->
          bits_value bytes (bit_pos w + field_offset fields k) (Z.to_nat n) = v mod 2 ^ n).
Proof.
  induction fields as [|[v n] rest IH]; intros w Hwf Hnn Hfit Hzero.
  - exists (buf w). cbn [fmap list_fmap foldr]. rewrite Z.add_0_r.
    split; [destruct w; reflexivity|]. split; [reflexivity|].
    split; [exact Hzero|]. split; [reflexivity|]. intros k v n Hk. discriminate.
  - cbn [fmap list_fmap foldr snd] in *.
    apply Forall_cons in Hnn as [Hn Hrest]. cbn [snd] in Hn.
    pose proof (widths_nonneg rest Hrest) as Htot.
    pose proof Hwf as [Hsize Hpos].
    destruct (write_bits_correct v n w Hwf Hn ltac:(lia)) as (b1 & Hrun1 & Hlen1 & Hbits1).
    destruct (IH {| buf := b1; bit_pos := bit_pos w + n; size_bits := size_bits w |})
      as (bytes & Hrun & Hlen & Hhigh & Hlow & Hfields).
    + split; cbn [buf bit_pos size_bits]; [rewrite Hlen1; exact Hsize|lia].
    + exact Hrest.
    + cbn [buf bit_pos size_bits]. lia.
    + cbn [buf bit_pos size_bits]. intros j Hj.
      rewrite Hbits1, Hzero by lia. unfold value_bit.
      destruct (Z.ltb_spec j (bit_pos w + n)); [lia|]. rewrite andb_false_r. reflexivity.
    + cbn [buf bit_pos size_bits] in *. exists bytes.
      split.
      { cbn [write_fields]. unfold bind. rewrite Hrun1, Hrun. rewrite Z.add_assoc. reflexivity. }
      split; [congruence|].
      split; [intros j Hj; apply Hhigh; lia|].
      split.
      { intros j Hj. rewrite Hlow, Hbits1 by lia. unfold value_bit.
        destruct (Z.leb_spec (bit_pos w) j); [lia|]. apply orb_false_r. }
      intros k v' n' Hk. destruct k as [|k].
      * injection Hk as <- <-. unfold field_offset. cbn [take fmap list_fmap foldr].
        rewrite Z.add_0_r. apply bits_value_mod; [exact Hn|]. intros i Hi.
        rewrite Hlow, Hbits1, Hzero by lia. unfold value_bit.
        destruct (Z.leb_spec (bit_pos w) (bit_pos w + i)); [|lia].
        destruct (Z.ltb_spec (bit_pos w + i) (bit_pos w + n)); [|lia].
        cbn [andb orb]. f_equal. lia.
      * cbn [lookup list_lookup] in Hk. specialize (Hfields k v' n' Hk).
        unfold field_offset in *. cbn [take fmap list_fmap foldr snd].
        rewrite <- Hfields. f_equal. lia.
Qed.

Lemma sign_extend_in_range value bits :
  1 <= bits -> - 2 ^ (bits - 1) <= value < 2 ^ (bits - 1) ->
  _sign_extend (value mod 2 ^ bits) bits = value.
Proof.
  intros Hb Hr.
  assert (Hp : 0 < 2 ^ bits) by (apply Z.pow_pos_nonneg; lia).
  assert (Hsame : _sign_extend (value mod 2 ^ bits) bits = _sign_extend value bits).
  { rewrite !sign_extend_mod by lia. rewrite Z.mod_mod by lia. reflexivity. }
  rewrite Hsame. symmetry.
  apply (congruent_in_window (2 ^ bits) (2 ^ (bits - 1)));
    [lia|apply pow2_half, Hb|exact Hr|apply sign_extend_range, Hb|].
  pose proof (sign_extend_congruent value bits Hb) as Hc.
  replace (value - _sign_extend value bits)
    with (- (_sign_extend value bits - value)) by ring.
  apply Z.mod_opp_l_z; [lia|exact Hc].
Qed.

Lemma generator_flags_range packet_id d : 0 <= generator_flags packet_id d < 256.
Proof.
  unfold generator_flags. cbv zeta.
  destruct (packet_id =? 10), (packet_id =? 50), (packet_id =? 100), (ok_draw d);
    (split; [apply Z.leb_le|apply Z.ltb_lt]; reflexivity).
Qed.

(** The generator's run on draws with three values per axis triple and four
    radiation counters. *)
Lemma generate_fields time_ms packet_id d :
  length (draw_mag d) = 3%nat -> length (draw_accel d) = 3%nat ->
  length (draw_gyro d) = 3%nat -> length (draw_rad_data d) = 4%nat ->
  exists record,
    generate_test_packet time_ms packet_id d = Returns record
    /\ length record = 42%nat
    /\ (forall k v n, generator_fields time_ms packet_id d !! k = Some (v, n) ->
          bits_value record (field_offset (generator_fields time_ms packet_id d) k)
                     (Z.to_nat n) = v mod 2 ^ n).
Proof.
  intros Hm Ha Hg Hr.
  assert (Hwidths : (generator_fields time_ms packet_id d).*2
                    = [24; 14; 20; 16; 16; 16; 16; 16; 16; 16; 16; 16; 30; 30; 8;
                       16; 16; 16; 16; 2]).
  { destruct d as [temp press mag accel gyro lat lon ok rad]. cbn [draw_mag draw_accel draw_gyro draw_rad_data] in *.
    destruct mag as [|m0 [|m1 [|m2 [|]]]]; try discriminate.
    destruct accel as [|a0 [|a1 [|a2 [|]]]]; try discriminate.
    destruct gyro as [|g0 [|g1 [|g2 [|]]]]; try discriminate.
    destruct rad as [|r0 [|r1 [|r2 [|r3 [|]]]]]; try discriminate.
    reflexivity. }
  destruct (write_fields_correct (generator_fields time_ms packet_id d)
              (BitWriter_init PACKET_SIZE_BYTES))
    as (bytes & Hrun & Hlen & _ & _ & Hfields).
  - split; cbn [BitWriter_init buf bit_pos size_bits]; [|unfold PACKET_SIZE_BYTES; lia].
    rewrite repeat_length. reflexivity.
  - apply Forall_forall. intros [v n] Hin. cbn [snd].
    assert (Hn : n ∈ (generator_fields time_ms packet_id d).*2).
    { apply list_elem_of_fmap. exists (v, n). split; [reflexivity|exact Hin]. }
    rewrite Hwidths in Hn. repeat (apply elem_of_cons in Hn as [->|Hn]; [lia|]).
    apply elem_of_nil in Hn. contradiction.
  - rewrite Hwidths. apply Z.leb_le. reflexivity.
  - intros j _. apply buf_bit_zeros.
  - exists bytes. unfold generate_test_packet. rewrite pack_fields_fields, Hrun.
    rewrite Hwidths. cbn [BitWriter_init buf bit_pos size_bits] in *.
    split; [reflexivity|]. split; [rewrite Hlen, repeat_length; reflexivity|].
    intros k v n Hk. rewrite <- (Hfields k v n Hk). f_equal.
Qed.

Ltac explicit_draws d :=
  destruct d as [temp press mag accel gyro lat lon ok rad];
  cbn [draw_temp_cC draw_pressPa draw_mag draw_accel draw_gyro draw_lat_1e7
       draw_lon_1e7 ok_draw draw_rad_data] in *;
  destruct mag as [|m0 [|m1 [|m2 [|]]]]; try discriminate;
  destruct accel as [|a0 [|a1 [|a2 [|]]]]; try discriminate;
  destruct gyro as [|g0 [|g1 [|g2 [|]]]]; try discriminate;
  destruct rad as [|r0 [|r1 [|r2 [|r3 [|]]]]]; try discriminate.

(** Field [k] of the generator's writes, read back at offset [off]. *)
Ltac written_field Hfields k v n off H :=
  pose proof (Hfields k v n eq_refl) as H;
  change (field_offset _ _) with off in H;
  change (Z.to_nat n) with (Pos.to_nat (Z.to_pos n)) in H;
  cbn [Z.to_pos] in H.

Ltac signed_field Hfields k v n off :=
  let H := fresh "H" in
  written_field Hfields k (_to_twos_complement v n) n off H;
  rewrite to_twos_complement_mod, Z.mod_mod in H by lia; exact H.

Ltac counter_field Hfields k v off :=
  let H := fresh "H" in
  written_field Hfields k (Z.land v 0xFFFF) 16 off H;
  change 0xFFFF with (Z.ones 16) in H;
  rewrite Z.land_ones, Z.mod_mod in H by lia; exact H.

(** X21.  The record layout the generator produces.  With three values per
    axis triple and four radiation counters (what it always draws),
    [generate_test_packet] returns a record of exactly 42 bytes in which,
    least-significant bit first, time_ms is at bit 0 (24 bits), temp_cC at 24
    (14), pressPa at 38 (20), the mag, accel and gyro triples at 58, 106 and
    154 (16 bits per axis), lat_1e7 at 202 and lon_1e7 at 232 (30 bits each),
    the flags byte at 262 and the radiation counters at 270 (16 bits each);
    the last two bits are zero.  Each field holds its value modulo two to
    its width. *)
Theorem generate_test_packet_layout (time_ms packet_id : Z) (d : random_draws) :
  length (draw_mag d) = 3%nat -> length (draw_accel d) = 3%nat ->
  length (draw_gyro d) = 3%nat -> length (draw_rad_data d) = 4%nat ->
  exists record,
    generate_test_packet time_ms packet_id d = Returns record
    /\ length record = 42%nat
    /\ bits_value record 0 24 = time_ms mod 2 ^ 24
    /\ bits_value record 24 14 = draw_temp_cC d mod 2 ^ 14
    /\ bits_value record 38 20 = draw_pressPa d mod 2 ^ 20
    /\ (forall i v, draw_mag d !! i = Some v ->
          bits_value record (58 + 16 * Z.of_nat i) 16 = v mod 2 ^ 16)
    /\ (forall i v, draw_accel d !! i = Some v ->
          bits_value record (106 + 16 * Z.of_nat i) 16 = v mod 2 ^ 16)
    /\ (forall i v, draw_gyro d !! i = Some v ->
          bits_value record (154 + 16 * Z.of_nat i) 16 = v mod 2 ^ 16)
    /\ bits_value record 202 30 = draw_lat_1e7 d mod 2 ^ 30
    /\ bits_value record 232 30 = draw_lon_1e7 d mod 2 ^ 30
    /\ bits_value record 262 8 = generator_flags packet_id d
    /\ (forall i v, draw_rad_data d !! i = Some v ->
          bits_value record (270 + 16 * Z.of_nat i) 16 = v mod 2 ^ 16)
    /\ bits_value record 334 2 = 0.
Proof.
  intros Hm Ha Hg Hr.
  destruct (generate_fields time_ms packet_id d Hm Ha Hg Hr)
    as (record & Hrun & Hlen & Hfields).
  exists record. split; [exact Hrun|]. split; [exact Hlen|].
  clear Hrun Hlen. pose proof (generator_flags_range packet_id d) as Hflags.
  explicit_draws d.
  split; [exact (Hfields 0%nat time_ms 24 eq_refl)|].
  split; [signed_field Hfields 1%nat temp 14 24|].
  split.
  { written_field Hfields 2%nat (Z.land press (Z.shiftl 1 20 - 1)) 20 38 H.
    change (Z.shiftl 1 20 - 1) with (Z.ones 20) in H.
    rewrite Z.land_ones, Z.mod_mod in H by lia. exact H. }
  split.
  { intros i v Hv. destruct i as [|[|[|i]]]; try discriminate; injection Hv as <-.
    - signed_field Hfields 3%nat m0 16 58.
    - signed_field Hfields 4%nat m1 16 74.
    - signed_field Hfields 5%nat m2 16 90. }
  split.
  { intros i v Hv. destruct i as [|[|[|i]]]; try discriminate; injection Hv as <-.
    - signed_field Hfields 6%nat a0 16 106.
    - signed_field Hfields 7%nat a1 16 122.
    - signed_field Hfields 8%nat a2 16 138. }
  split.
  { intros i v Hv. destruct i as [|[|[|i]]]; try discriminate; injection Hv as <-.
    - signed_field Hfields 9%nat g0 16 154.
    - signed_field Hfields 10%nat g1 16 170.
    - signed_field Hfields 11%nat g2 16 186. }
  split; [signed_field Hfields 12%nat lat 30 202|].
  split; [signed_field Hfields 13%nat lon 30 232|].
  split.
  { set (fl := generator_flags packet_id _) in *.
    written_field Hfields 14%nat (Z.land fl 0xFF) 8 262 H.
    change 0xFF with (Z.ones 8) in H.
    rewrite Z.land_ones, Z.mod_mod, Z.mod_small in H by lia. exact H. }
  split.
  { intros i v Hv. destruct i as [|[|[|[|i]]]]; try discriminate; injection Hv as <-.
    - counter_field Hfields 15%nat r0 270.
    - counter_field Hfields 16%nat r1 286.
    - counter_field Hfields 17%nat r2 302.
    - counter_field Hfields 18%nat r3 318. }
  exact (Hfields 19%nat 0 2 eq_refl).
Qed.

Lemma generate_test_packet_layout_witness :
  exists record,
    generate_test_packet 1000 10 sample_draws = Returns record
    /\ length record = 42%nat
    /\ bits_value record 0 24 = 1000 mod 2 ^ 24
    /\ bits_value record 24 14 = draw_temp_cC sample_draws mod 2 ^ 14
    /\ bits_value record 38 20 = draw_pressPa sample_draws mod 2 ^ 20
    /\ (forall i v, draw_mag sample_draws !! i = Some v ->
          bits_value record (58 + 16 * Z.of_nat i) 16 = v mod 2 ^ 16)
    /\ (forall i v, draw_accel sample_draws !! i = Some v ->
          bits_value record (106 + 16 * Z.of_nat i) 16 = v mod 2 ^ 16)
    /\ (forall i v, draw_gyro sample_draws !! i = Some v ->
          bits_value record (154 + 16 * Z.of_nat i) 16 = v mod 2 ^ 16)
    /\ bits_value record 202 30 = draw_lat_1e7 sample_draws mod 2 ^ 30
    /\ bits_value record 232 30 = draw_lon_1e7 sample_draws mod 2 ^ 30
    /\ bits_value record 262 8 = generator_flags 10 sample_draws
    /\ (forall i v, draw_rad_data sample_draws !! i = Some v ->
          bits_value record (270 + 16 * Z.of_nat i) 16 = v mod 2 ^ 16)
    /\ bits_value record 334 2 = 0.
Proof.
  apply (generate_test_packet_layout 1000 10 sample_draws); reflexivity.
Defined.

(** X22.  Decoding what the generator produced.  For a time stamp of 24
    bits, a temperature of 14 signed bits and a pressure of 20 bits (the
    generator's own ranges lie inside these), [_decode_packet] accepts the
    generated record and gives time_ms, temp_cC and pressPa back unchanged,
    the three fields the two layouts agree on.  The last radiation counter
    does not come back: the decoder reads it two bits further on than the
    generator wrote it and returns the written 16-bit value divided by
    four. *)
Theorem decode_generated_packet (t_ms packet_id : Z) (d : random_draws) :
  length (draw_mag d) = 3%nat -> length (draw_accel d) = 3%nat ->
  length (draw_gyro d) = 3%nat -> length (draw_rad_data d) = 4%nat ->
  0 <= t_ms < 2 ^ 24 ->
  - 2 ^ 13 <= draw_temp_cC d < 2 ^ 13 ->
  0 <= draw_pressPa d < 2 ^ 20 ->
  exists record pkt,
    generate_test_packet t_ms packet_id d = Returns record
    /\ _decode_packet record = (Returns pkt, [])
    /\ time_ms pkt = t_ms
    /\ temp_cC pkt = draw_temp_cC d
    /\ pressPa pkt = draw_pressPa d
    /\ (forall r3, draw_rad_data d !! 3%nat = Some r3 ->
          radData3 pkt = (r3 mod 2 ^ 16) / 4).
Proof.
  intros Hm Ha Hg Hr Ht Htemp Hpress.
  destruct (generate_fields t_ms packet_id d Hm Ha Hg Hr)
    as (record & Hrun & Hlen & Hfields).
  exists record, (decoded_fields record).
  split; [exact Hrun|]. split; [apply decode_packet_42, Hlen|].
  clear Hrun Hlen. explicit_draws d.
  unfold decoded_fields;
    cbn [time_ms temp_cC pressPa radData3].
  split.
  { written_field Hfields 0%nat t_ms 24 0 H.
    rewrite Z.mod_small in H by exact Ht. exact H. }
  split.
  { written_field Hfields 1%nat (_to_twos_complement temp 14) 14 24 H.
    rewrite to_twos_complement_mod, Z.mod_mod in H by lia.
    change (Pos.to_nat 14) with 14%nat in H.
    rewrite H. apply sign_extend_in_range; [lia|exact Htemp]. }
  split.
  { written_field Hfields 2%nat (Z.land press (Z.shiftl 1 20 - 1)) 20 38 H.
    change (Z.shiftl 1 20 - 1) with (Z.ones 20) in H.
    rewrite Z.land_ones, Z.mod_mod, Z.mod_small in H by lia. exact H. }
  intros r [= <-].
  written_field Hfields 18%nat (Z.land r3 0xFFFF) 16 318 Hrad.
  change 0xFFFF with (Z.ones 16) in Hrad.
  rewrite Z.land_ones, Z.mod_mod in Hrad by lia.
  change (Pos.to_nat 16) with 16%nat in Hrad.
  pose proof (Hfields 19%nat 0 2 eq_refl) as Hpad.
  change (field_offset _ _) with 334 in Hpad.
  change (Z.to_nat 2) with 2%nat in Hpad. change (0 mod 2 ^ 2) with 0 in Hpad.
  clear Hfields.
  apply Z.bits_inj'; intros i Hi.
  rewrite bits_value_testbit by lia.
  change 4 with (2 ^ 2). rewrite Z.div_pow2_bits by lia.
  change (Z.of_nat 16) with 16.
  destruct (Z.ltb_spec i 16) as [Hlt|Hge]; cbn [andb].
  - destruct (Z_lt_le_dec i 14) as [Hlow|Hhigh].
    + replace (320 + i) with (318 + (i + 2)) by lia.
      rewrite (bits_value_bit record 318 16 (i + 2)) by lia.
      rewrite Hrad. reflexivity.
    + replace (320 + i) with (334 + (i - 14)) by lia.
      rewrite (bits_value_bit record 334 2 (i - 14)) by lia.
      rewrite Hpad, Z.bits_0. symmetry. apply Z.mod_pow2_bits_high. lia.
  - symmetry. apply Z.mod_pow2_bits_high. lia.
Qed.

Lemma decode_generated_packet_witness :
  exists record pkt,
    generate_test_packet 1000 10 sample_draws = Returns record
    /\ _decode_packet record = (Returns pkt, [])
    /\ time_ms pkt = 1000
    /\ temp_cC pkt = draw_temp_cC sample_draws
    /\ pressPa pkt = draw_pressPa sample_draws
    /\ (forall r3, draw_rad_data sample_draws !! 3%nat = Some r3 ->
          radData3 pkt = (r3 mod 2 ^ 16) / 4).
Proof.
  apply (decode_generated_packet 1000 10 sample_draws);
    try reflexivity; simpl; lia.
Defined.

(** ** A generated file, decoded *)

Lemma generated_prefix t_ms packet_id d :
  generator_shape d -> 0 <= t_ms < 2 ^ 24 ->
  - 2 ^ 13 <= draw_temp_cC d < 2 ^ 13 -> 0 <= draw_pressPa d < 2 ^ 20 ->
  exists record,
    generate_test_packet t_ms packet_id d = Returns record
    /\ length record = 42%nat
    /\ time_ms (decoded_fields record) = t_ms
    /\ temp_cC (decoded_fields record) = draw_temp_cC d
    /\ pressPa (decoded_fields record) = draw_pressPa d.
Proof.
  intros (Hm & Ha & Hg & Hr) Ht Htemp Hpress.
  destruct (generate_fields t_ms packet_id d Hm Ha Hg Hr)
    as (record & Hrun & Hlen & Hfields).
  exists record. split; [exact Hrun|]. split; [exact Hlen|].
  clear Hrun Hlen. explicit_draws d.
  unfold decoded_fields; cbn [time_ms temp_cC pressPa].
  split.
  { written_field Hfields 0%nat t_ms 24 0 H.
    rewrite Z.mod_small in H by exact Ht. exact H. }
  split.
  { written_field Hfields 1%nat (_to_twos_complement temp 14) 14 24 H.
    rewrite to_twos_complement_mod, Z.mod_mod in H by lia.
    change (Pos.to_nat 14) with 14%nat in H.
    rewrite H. apply sign_extend_in_range; [lia|exact Htemp]. }
  written_field Hfields 2%nat (Z.land press (Z.shiftl 1 20 - 1)) 20 38 H.
  change (Z.shiftl 1 20 - 1) with (Z.ones 20) in H.
  rewrite Z.land_ones, Z.mod_mod, Z.mod_small in H by lia. exact H.
Qed.

Lemma generated_time_range draws i : 0 <= generated_time draws i < 2 ^ 24.
Proof.
  destruct i as [|k]; cbn [generated_time]; [lia|].
  cbv zeta. change (Z.shiftl 1 24) with (2 ^ 24). apply Z.mod_pos_bound. lia.
Qed.

Lemma generate_loop draws (n : nat) :
  (forall i, (i < n)%nat -> generator_shape (packet_draws (draws (Z.of_nat i)))) ->
  exists records,
    fold_left (write_packet draws) (seqZ 0 (Z.of_nat n)) (Returns (1000, []))
    = Returns (generated_time draws (pred n), concat records)
    /\ length records = n
    /\ (forall i record, records !! i = Some record ->
          length record = 42%nat
          /\ generate_test_packet (generated_time draws i) (Z.of_nat i)
               (packet_draws (draws (Z.of_nat i))) = Returns record).
Proof.
  induction n as [|n IH]; intros Hshape.
  - exists []. split; [reflexivity|]. split; [reflexivity|]. intros i record Hi. discriminate.
  - destruct IH as (records & Hrun & Hlen & Hrec); [intros i Hi; apply Hshape; lia|].
    destruct (Hshape n ltac:(lia)) as (Hm & Ha & Hg & Hr).
    destruct (generate_fields (generated_time draws n) (Z.of_nat n)
                (packet_draws (draws (Z.of_nat n))) Hm Ha Hg Hr)
      as (record & Hgen & Hlen42 & _).
    exists (records ++ [record]).
    split; [|split].
    + rewrite seqZ_S, fold_left_app, Hrun. cbn [fold_left write_packet].
      rewrite Z.add_0_l. cbv zeta.
      assert (Htime : (if Z.of_nat n =? 0 then 1000
                       else if big_jump (draws (Z.of_nat n))
                            then generated_time draws (pred n) + jump_ms (draws (Z.of_nat n))
                            else generated_time draws (pred n) + step_ms (draws (Z.of_nat n)))
                      mod Z.shiftl 1 24 = generated_time draws n).
      { destruct n as [|m]; [reflexivity|].
        destruct (Z.eqb_spec (Z.of_nat (S m)) 0); [lia|]. reflexivity. }
      rewrite Htime, Hgen, Hlen42. cbn [pred].
      change (negb (Z.of_nat 42 =? PACKET_SIZE_BYTES)) with false. cbv iota.
      rewrite concat_app. cbn [concat]. rewrite app_nil_r. reflexivity.
    + rewrite length_app, Hlen. cbn [length]. lia.
    + intros i rec Hi. apply lookup_app_Some in Hi as [Hi|[Hge Hi]]; [apply Hrec, Hi|].
      rewrite Hlen in *. destruct (i - n)%nat as [|k] eqn:Hk; [|destruct k; discriminate].
      injection Hi as <-. replace i with n by lia. split; [exact Hlen42|exact Hgen].
Qed.

Lemma concat_length_42 (records : list (list byte)) :
  (forall record, record ∈ records -> length record = 42%nat) ->
  Z.of_nat (length (concat records)) = 42 * Z.of_nat (length records).
Proof.
  induction records as [|r rest IH]; intros Hall; [reflexivity|].
  cbn [concat length]. rewrite length_app, Nat2Z.inj_add, IH, (Hall r).
  - lia.
  - apply list_elem_of_here.
  - intros record Hin. apply Hall, list_elem_of_further, Hin.
Qed.

Lemma concat_42_inj (l1 l2 : list (list byte)) :
  (forall b, b ∈ l1 -> length b = 42%nat) -> (forall b, b ∈ l2 -> length b = 42%nat) ->
  concat l1 = concat l2 -> l1 = l2.
Proof.
  revert l2. induction l1 as [|a l1 IH]; intros l2 H1 H2 Heq.
  - destruct l2 as [|b l2]; [reflexivity|].
    pose proof (H2 b (list_elem_of_here _ _)) as Hb.
    apply (f_equal length) in Heq. cbn [concat length] in Heq.
    rewrite length_app in Heq. lia.
  - pose proof (H1 a (list_elem_of_here _ _)) as Ha.
    destruct l2 as [|b l2].
    + apply (f_equal length) in Heq. cbn [concat length] in Heq.
      rewrite length_app in Heq. lia.
    + pose proof (H2 b (list_elem_of_here _ _)) as Hb.
      cbn [concat] in Heq. apply app_inj_1 in Heq as [-> Hrest]; [|congruence].
      f_equal. apply IH; [| |exact Hrest].
      * intros c Hc. apply H1, list_elem_of_further, Hc.
      * intros c Hc. apply H2, list_elem_of_further, Hc.
Qed.

(** The records of a buffer made of 42-byte records are those records. *)
Lemma record_blocks_concat (records : list (list byte)) :
  (forall record, record ∈ records -> length record = 42%nat) ->
  record_blocks (concat records) (Z.of_nat (length records)) = records.
Proof.
  intros Hall. pose proof (concat_length_42 records Hall) as Hlen.
  apply concat_42_inj.
  - intros b. apply blocks_length. lia.
  - exact Hall.
  - rewrite record_blocks_fmap, concat_blocks by lia. cbn [drop Z.to_nat Z.mul].
    apply take_ge. lia.
Qed.

(** X23.  A generated test file decodes packet for packet.  For a positive
    packet count and draws of the generator's shape with a temperature of 14
    signed bits and a pressure of 20 bits, [generate_test_file] writes
    [42 * packet_count] bytes, [decode_file] returns exactly [packet_count]
    packets from them, and packet [i] carries the time stamp the generator
    gave it (1000 for the first packet, then the drawn increments modulo
    [2^24]) and the temperature and pressure drawn for it. *)
Theorem decode_generated_file (log_packets : bool) (packet_count : Z)
    (draws : Z -> file_draws) :
  1 <= packet_count ->
  (forall i, 0 <= i < packet_count ->
     generator_shape (packet_draws (draws i))
     /\ - 2 ^ 13 <= draw_temp_cC (packet_draws (draws i)) < 2 ^ 13
     /\ 0 <= draw_pressPa (packet_draws (draws i)) < 2 ^ 20) ->
  exists file packets log,
    generate_test_file packet_count draws = Returns file
    /\ Z.of_nat (length file) = 42 * packet_count
    /\ decode_file log_packets file = (Returns packets, log)
    /\ Z.of_nat (length packets) = packet_count
    /\ (forall (i : nat) pkt, packets !! i = Some pkt ->
          time_ms pkt = generated_time draws i
          /\ temp_cC pkt = draw_temp_cC (packet_draws (draws (Z.of_nat i)))
          /\ pressPa pkt = draw_pressPa (packet_draws (draws (Z.of_nat i)))).
Proof.
  intros Hcount Hdraws.
  destruct (generate_loop draws (Z.to_nat packet_count)) as (records & Hrun & Hlen & Hrec).
  { intros i Hi. apply Hdraws. lia. }
  assert (Hall : forall record, record ∈ records -> length record = 42%nat).
  { intros record Hin. apply list_elem_of_lookup_1 in Hin as [i Hi]. apply (Hrec i record Hi). }
  pose proof (concat_length_42 records Hall) as Hsize.
  rewrite Hlen, Z2Nat.id in Hsize by lia.
  destruct (decode_file_unfold log_packets (concat records) ltac:(lia)) as (evs & Hdec & _).
  cbv zeta in Hdec.
  replace (Z.of_nat (length (concat records)) / 42) with (Z.of_nat (length records)) in Hdec
    by (rewrite Hsize, Hlen, Z2Nat.id by lia; Z.div_mod_to_equations; lia).
  rewrite omap_blocks_decoded, record_blocks_concat in Hdec by (exact Hall || lia).
  exists (concat records), (decoded_fields <$> records). eexists.
  split; [|split; [exact Hsize|split; [exact Hdec|split]]].
  - unfold generate_test_file, py_range. rewrite <- (Z2Nat.id packet_count) by lia.
    rewrite Hrun. reflexivity.
  - rewrite length_fmap, Hlen. lia.
  - intros i pkt Hi. apply list_lookup_fmap_Some in Hi as (record & -> & Hi).
    pose proof (lookup_lt_Some _ _ _ Hi) as Hlt. rewrite Hlen in Hlt.
    destruct (Hrec i record Hi) as [_ Hgen].
    destruct (Hdraws (Z.of_nat i) ltac:(lia)) as (Hshape & Htemp & Hpress).
    destruct (generated_prefix (generated_time draws i) (Z.of_nat i)
                (packet_draws (draws (Z.of_nat i))) Hshape
                (generated_time_range draws i) Htemp Hpress)
      as (record' & Hgen' & _ & Hfields).
    rewrite Hgen in Hgen'. injection Hgen' as <-. exact Hfields.
Qed.

Lemma decode_generated_file_witness :
  exists file packets log,
    generate_test_file 3 sample_file_draws = Returns file
    /\ Z.of_nat (length file) = 42 * 3
    /\ decode_file false file = (Returns packets, log)
    /\ Z.of_nat (length packets) = 3
    /\ (forall (i : nat) pkt, packets !! i = Some pkt ->
          time_ms pkt = generated_time sample_file_draws i
          /\ temp_cC pkt = draw_temp_cC (packet_draws (sample_file_draws (Z.of_nat i)))
          /\ pressPa pkt = draw_pressPa (packet_draws (sample_file_draws (Z.of_nat i)))).
Proof.
  apply (decode_generated_file false 3 sample_file_draws).
  - lia.
  - intros i _. simpl. unfold generator_shape. simpl. lia.
Defined.

(** ** Plot groups *)

Lemma omap_snoc_some {A B} (f : A -> option B) l x y :
  f x = Some y -> omap f (l ++ [x]) = omap f l ++ [y].
Proof. intros H. rewrite omap_app. cbn [omap list_omap]. rewrite H. reflexivity. Qed.

Lemma omap_snoc_none {A B} (f : A -> option B) l x :
  f x = None -> omap f (l ++ [x]) = omap f l.
Proof. intros H. rewrite omap_app. cbn [omap list_omap]. rewrite H. apply app_nil_r. Qed.

Lemma fmap_fst_snoc {A B} (l : list (A * B)) a b : (l ++ [(a, b)]).*1 = l.*1 ++ [a].
Proof. rewrite fmap_app. reflexivity. Qed.

Lemma concat_snoc {A} (l : list (list A)) x : concat (l ++ [x]) = concat l ++ x.
Proof. rewrite concat_app. cbn [concat]. rewrite app_nil_r. reflexivity. Qed.

(** The second half of the loop body: the channel is checked and joins a
    group. *)
Lemma graphs_append seen item channel st :
  item_channel item = Some channel ->
  graphs_inv seen (Parsing st) ->
  graphs_inv (seen ++ [item])
    (if negb (bool_decide (channel ∈ CHANNEL_INFO)) then UnknownChannel channel
     else
       let st := {| plot_groups := plot_groups st;
                    current_group := current_group st ++ [channel];
                    current_axis := current_axis st |} in
       if String.eqb (current_axis st) "multi"
       then Parsing {| plot_groups := plot_groups st ++ [([channel], current_axis st)];
                       current_group := [];
                       current_axis := current_axis st |}
       else Parsing st).
Proof.
  intros Hitem (Hall & Hgroups & Hopen & Haxis & Hknown).
  destruct (bool_decide_reflect (channel ∈ CHANNEL_INFO)) as [Hin|Hnot]; cbn [negb].
  - cbv zeta. cbn [plot_groups current_group current_axis].
    assert (Hknown' : Forall (fun c => c ∈ CHANNEL_INFO) (omap item_channel (seen ++ [item]))).
    { rewrite (omap_snoc_some _ _ _ _ Hitem). apply Forall_app. split; [exact Hknown|].
      apply Forall_singleton. exact Hin. }
    destruct (String.eqb_spec (current_axis st) "multi") as [Hmulti|Hsingle].
    + assert (Hclosed : current_group st = []).
      { destruct (current_group st) as [|g gs]; [reflexivity|].
        rewrite Hopen in Hmulti by discriminate. discriminate. }
      rewrite Hclosed, app_nil_r in Hall.
      cbn [graphs_inv plot_groups current_group current_axis].
      split; [|split; [|split; [|split]]].
      * rewrite fmap_fst_snoc, concat_snoc, app_nil_r, Hall.
        symmetry. apply omap_snoc_some, Hitem.
      * apply Forall_app. split; [exact Hgroups|]. apply Forall_singleton.
        left. split; [exact Hmulti|reflexivity].
      * intros Hne. contradiction.
      * exact Haxis.
      * exact Hknown'.
    + cbn [graphs_inv plot_groups current_group current_axis].
      split; [|split; [|split; [|split]]].
      * rewrite app_assoc, Hall. symmetry. apply omap_snoc_some, Hitem.
      * exact Hgroups.
      * intros _. destruct Haxis as [Hs|Hm]; [exact Hs|contradiction].
      * exact Haxis.
      * exact Hknown'.
  - cbn [graphs_inv]. exists (omap item_channel seen), [].
    split; [apply omap_snoc_some, Hitem|]. split; [exact Hknown|exact Hnot].
Qed.

(** The first half of the loop body for an item with a colon: the axis
    mode is set, and a change of mode closes the open group. *)
Lemma graphs_switch seen st axis_spec :
  graphs_inv seen (Parsing st) ->
  let axis_spec :=
    if negb (String.eqb axis_spec "single" || String.eqb axis_spec "multi")
    then "multi"%string else axis_spec in
  let st' :=
    if negb (Nat.eqb (length (current_group st)) 0)
       && negb (String.eqb axis_spec (current_axis st))
    then {| plot_groups := plot_groups st ++ [(current_group st, current_axis st)];
            current_group := [];
            current_axis := current_axis st |}
    else st in
  graphs_inv seen (Parsing {| plot_groups := plot_groups st'; current_group := current_group st';
                              current_axis := axis_spec |}).
Proof.
  intros (Hall & Hgroups & Hopen & Haxis & Hknown). cbv zeta.
  set (axis := if negb (String.eqb axis_spec "single" || String.eqb axis_spec "multi")
               then "multi"%string else axis_spec).
  assert (Hnew : axis = "single"%string \/ axis = "multi"%string).
  { unfold axis. destruct (String.eqb_spec axis_spec "single") as [->|];
      [left; reflexivity|].
    destruct (String.eqb_spec axis_spec "multi") as [->|]; right; reflexivity. }
  destruct (current_group st) as [|g gs] eqn:Hgroup.
  - cbn [length Nat.eqb negb andb]. cbn [graphs_inv plot_groups current_group current_axis].
    rewrite Hgroup. split; [exact Hall|]. split; [exact Hgroups|].
    split; [intros Hne; contradiction|]. split; [exact Hnew|exact Hknown].
  - cbn [length Nat.eqb negb andb].
    pose proof (Hopen ltac:(discriminate)) as Hsingle.
    destruct (String.eqb_spec axis (current_axis st)) as [Hsame|Hdiff]; cbn [negb].
    + cbn [graphs_inv plot_groups current_group current_axis].
      rewrite Hgroup. split; [exact Hall|]. split; [exact Hgroups|].
      split; [intros _; congruence|]. split; [exact Hnew|exact Hknown].
    + cbn [graphs_inv plot_groups current_group current_axis].
      split; [|split; [|split; [|split]]].
      * rewrite fmap_fst_snoc, concat_snoc, app_nil_r. exact Hall.
      * apply Forall_app. split; [exact Hgroups|]. apply Forall_singleton.
        right. split; [exact Hsingle|discriminate].
      * intros Hne. contradiction.
      * exact Hnew.
      * exact Hknown.
Qed.

Lemma graphs_step_inv seen run item :
  graphs_inv seen run -> graphs_inv (seen ++ [item]) (graphs_step run item).
Proof.
  intros Hinv. destruct run as [st|channel].
  - unfold graphs_step. cbv zeta.
    destruct (strip item) as [|c body] eqn:Hstrip.
    + assert (Hnone : item_channel item = None).
      { unfold item_channel. cbv zeta. rewrite Hstrip. reflexivity. }
      cbn [graphs_inv] in *. rewrite (omap_snoc_none _ _ _ Hnone). exact Hinv.
    + destruct (contains ":" (String c body)) eqn:Hcolon.
      * destruct (split_once ":" (String c body)) as [channel axis_spec] eqn:Hsplit.
        cbv beta iota.
        apply graphs_append.
        -- unfold item_channel. cbv zeta. rewrite Hstrip, Hcolon, Hsplit. reflexivity.
        -- apply (graphs_switch seen st (strip axis_spec) Hinv).
      * cbv beta iota. apply graphs_append; [|exact Hinv].
        unfold item_channel. cbv zeta. rewrite Hstrip, Hcolon. reflexivity.
  - cbn [graphs_step graphs_inv] in *.
    destruct Hinv as (before & after & Hreq & Hknown & Hnot).
    destruct (item_channel item) as [c|] eqn:Hitem.
    + exists before, (after ++ [c]). rewrite (omap_snoc_some _ _ _ _ Hitem), Hreq.
      split; [|split; [exact Hknown|exact Hnot]].
      rewrite <- app_assoc. reflexivity.
    + exists before, after. rewrite (omap_snoc_none _ _ _ Hitem).
      split; [exact Hreq|]. split; [exact Hknown|exact Hnot].
Qed.

Lemma graphs_loop_inv items : forall seen run,
  graphs_inv seen run -> graphs_inv (seen ++ items) (fold_left graphs_step items run).
Proof.
  induction items as [|item rest IH]; intros seen run Hinv.
  - rewrite app_nil_r. exact Hinv.
  - cbn [fold_left]. replace (seen ++ item :: rest) with ((seen ++ [item]) ++ rest)
      by (rewrite <- app_assoc; reflexivity).
    apply IH, graphs_step_inv, Hinv.
Qed.

(** X24.  [_parse_graphs_spec] keeps every requested channel, once and in
    order.  When it returns, the channels of the plot groups, read group
    after group, are exactly the channels the comma-separated items name
    (the text before a colon, blank items skipped); every one is a key of
    [CHANNEL_INFO]; and each group is either one channel in 'multi' mode or
    a non-empty list of channels in 'single' mode.  When it raises instead,
    the channel it reports is the first requested channel that is no key of
    [CHANNEL_INFO]. *)
Theorem parse_graphs_spec_groups (graphs_spec : string) :
  match _parse_graphs_spec graphs_spec with
  | PlotGroups groups =>
    concat (groups.*1) = requested_channels graphs_spec
    /\ Forall group_ok groups
    /\ Forall (fun c => c ∈ CHANNEL_INFO) (requested_channels graphs_spec)
  | GraphsValueError channel =>
    exists before after,
      requested_channels graphs_spec = before ++ channel :: after
      /\ Forall (fun c => c ∈ CHANNEL_INFO) before
      /\ channel ∉ CHANNEL_INFO
  end.
Proof.
  unfold _parse_graphs_spec, requested_channels.
  pose proof (graphs_loop_inv (split "," graphs_spec) []
                (Parsing {| plot_groups := []; current_group := [];
                            current_axis := "multi" |})) as Hinv.
  cbn [app] in Hinv.
  destruct (fold_left graphs_step (split "," graphs_spec) _) as [st|channel].
  - destruct Hinv as (Hall & Hgroups & Hopen & Haxis & Hknown).
    { cbn [graphs_inv plot_groups current_group current_axis fmap list_fmap concat app omap list_omap].
      split; [reflexivity|]. split; [constructor|]. split; [intros H; contradiction|].
      split; [right; reflexivity|constructor]. }
    destruct (current_group st) as [|g gs] eqn:Hgroup; cbn [length Nat.eqb negb].
    + rewrite app_nil_r in Hall. split; [exact Hall|]. split; [exact Hgroups|exact Hknown].
    + split; [|split; [|exact Hknown]].
      * rewrite fmap_fst_snoc, concat_snoc. exact Hall.
      * apply Forall_app. split; [exact Hgroups|]. apply Forall_singleton.
        right. split; [apply Hopen; discriminate|discriminate].
  - apply Hinv.
    cbn [graphs_inv plot_groups current_group current_axis fmap list_fmap concat app omap list_omap].
    split; [reflexivity|]. split; [constructor|]. split; [intros H; contradiction|].
    split; [right; reflexivity|constructor].
Qed.
